(** * rchk: protection-balance and fresh-pointer checking

    A shallow embedding of the per-function checker of rchk: the work-list
    engine and its adaptive restarts (bcheck.cpp), the fresh-variables
    transfer functions (freshvars.cpp, in its current and in its older
    copy) and the multiple-allocating-arguments scanner (maacheck.cpp).

    The LLVM IR is seen through the shapes the checker tests with
    [dyn_cast]; what the checker obtains from other translation units
    (call-graph summaries, liveness, callee-protect information, the
    balance and guard transfer functions) is a record of functions. *)

From Stdlib Require Import ZArith Lia.
From stdpp Require Import base tactics option list gmap strings pretty sorting.

Set Warnings "-register-all".
Open Scope Z_scope.

(* ================================================================== *)
(** * LLVM values as the checker inspects them *)
(* ================================================================== *)

(** A local slot ([AllocaInst*]), a basic block ([BasicBlock*]) and every
    other IR object is known by its address. *)
Definition AllocaInst := positive.
Definition BasicBlock := positive.

Record Function := mkFunction {
  fname : string;                (* getName() *)
  faddr : positive;              (* the Function* itself *)
  paramIsSEXP : list bool        (* isSEXP(getParamType(i)), i < getNumParams() *)
}.

Definition arg_size (f : Function) : nat := length (paramIsSEXP f).

Definition sameFunction (f g : Function) : bool := bool_decide (faddr f = faddr g).

(** The instruction and operand shapes distinguished by the checker.
    Operands are sub-terms; identity of an instruction is its address. *)
Inductive Value : Type :=
| ConstantInt (zext : N)
| Alloca (var : AllocaInst)
| GlobalVariable (g : positive)
| FunctionRef (f : Function)
| LoadInst (addr : positive) (pointerOperand : Value)
| StoreInst (addr : positive) (valueOperand pointerOperand : Value)
| CallInst (addr : positive) (calledFunction : option Function) (args : list Value)
| GetElementPtrInst (addr : positive) (inBounds : bool) (operand0 : Value)
| PHINode (addr : positive) (incoming : list Value)
| SelectInst (addr : positive) (condition trueValue falseValue : Value)
| CmpInst (addr : positive) (isEquality isTrueWhenEqual : bool) (op0 op1 : Value)
| TerminatorInst (addr : positive) (successors : list BasicBlock)
| OtherValue (addr : positive).

(** What pointer comparison of two [Value*] compares. *)
Inductive Address :=
| AtConst (n : N)
| AtAlloca (a : AllocaInst)
| AtGlobal (g : positive)
| AtFunction (f : positive)
| AtInst (p : positive).

#[global] Instance Address_eq_dec : EqDecision Address.
Proof. solve_decision. Defined.

Definition addressOf (v : Value) : Address :=
  match v with
  | ConstantInt n => AtConst n
  | Alloca a => AtAlloca a
  | GlobalVariable g => AtGlobal g
  | FunctionRef f => AtFunction (faddr f)
  | LoadInst p _ | StoreInst p _ _ | CallInst p _ _ | GetElementPtrInst p _ _
  | PHINode p _ | SelectInst p _ _ _ | CmpInst p _ _ _ _ | TerminatorInst p _
  | OtherValue p => AtInst p
  end.

Definition sameValue (a b : Value) : bool := bool_decide (addressOf a = addressOf b).

(** [dyn_cast<AllocaInst>(v)] *)
Definition asAlloca (v : Value) : option AllocaInst :=
  match v with Alloca a => Some a | _ => None end.

(** [dyn_cast<LoadInst>(v)] followed by [dyn_cast<AllocaInst>] of its
    pointer operand: the slot a value is loaded from. *)
Definition loadedVar (v : Value) : option AllocaInst :=
  match v with LoadInst _ ptr => asAlloca ptr | _ => None end.

Definition isLoadInst (v : Value) : bool :=
  match v with LoadInst _ _ => true | _ => false end.

Definition isStoreInst (v : Value) : bool :=
  match v with StoreInst _ _ _ => true | _ => false end.

(** The use lists and the helper predicates of common.h and patterns.h. *)
Record IRInfo := mkIRInfo {
  users : Value -> list Value;                    (* user_begin() .. user_end() *)
  isSEXP : AllocaInst -> bool;                    (* isSEXP(AllocaInst* ) *)
  varName : AllocaInst -> string;
  hasEmptyName : AllocaInst -> bool;              (* var->getName().str().empty() *)
  isSetterFunction : Function -> bool;
  isStoreToStructureElement : Value -> option AllocaInst;
      (* isStoreToStructureElement(in, "struct.R_bcstack_t", "union.ieee_double", var) *)
  aliasesVariable : Value -> AllocaInst -> option AllocaInst;
  findOnlyStoreTo : AllocaInst -> option Value    (* the defining StoreInst *)
}.

Definition hasOneUse (ir : IRInfo) (v : Value) : bool :=
  bool_decide (length (users ir v) = 1%nat).

(** [user_back()] is [*user_begin()]. *)
Definition user_back (ir : IRInfo) (v : Value) : option Value := head (users ir v).

(* ================================================================== *)
(** * Machine integers *)
(* ================================================================== *)

(** [unsigned] arithmetic wraps at 2^32; [refinableInfos++]. *)
Definition uint_incr (n : N) : N := ((n + 1) mod 2 ^ 32)%N.

(** Conversion of an [int] to [uint64_t]. *)
Definition to_uint64 (z : Z) : N := Z.to_N (z mod 2 ^ 64).

(** Conversion to [int] (two's complement, 32 bits). *)
Definition to_int (z : Z) : Z := (z + 2 ^ 31) mod 2 ^ 32 - 2 ^ 31.

(* ================================================================== *)
(** * Line messages *)
(* ================================================================== *)

(** Modelled from the spec: linemsg.h is not among the sources.  A
    diagnostic record is a message text with the instruction whose source
    line it is reported at; the messenger of a run buffers the records of
    the function being checked ("messages are delayed until the next
    function, possibly even dropped in case of some kind of adaptive
    checking"), keeps one record per text and line, drops the buffer on
    [clear] and prints it when the next function starts.  Debug and trace
    messages are disabled ([DEBUG], [TRACE] are false) and are left out. *)
Record LineInfoTy := mkLineInfo {
  message : string;
  where_ : option Address
}.

#[global] Instance LineInfoTy_eq_dec : EqDecision LineInfoTy.
Proof. solve_decision. Defined.

Record LineMessenger := mkLineMessenger {
  lineBuffer : list LineInfoTy;     (* records of the current function *)
  printed : list LineInfoTy         (* records already written out *)
}.

Definition emit (li : LineInfoTy) (m : LineMessenger) : LineMessenger :=
  if bool_decide (li ∈ lineBuffer m) then m
  else mkLineMessenger (lineBuffer m ++ [li]) (printed m).

Definition msg_info (text : string) (at_ : option Value) (m : LineMessenger) : LineMessenger :=
  emit (mkLineInfo text (addressOf <$> at_)) m.

Definition msg_clear (m : LineMessenger) : LineMessenger :=
  mkLineMessenger [] (printed m).

Definition msg_flush (m : LineMessenger) : LineMessenger :=
  mkLineMessenger [] (printed m ++ lineBuffer m).

(** [newFunction] writes out what the previous function left. *)
Definition msg_newFunction (m : LineMessenger) : LineMessenger := msg_flush m.

(** Modelled from the spec: a delayed messenger holds the pending records
    of one variable, an "ordered multiset of pending diagnostic records";
    [flush] hands every one of them to the line messenger. *)
Abbreviation DelayedLineMessenger := (list LineInfoTy).

Definition delayed_info (text : string) (at_ : option Value)
    (d : DelayedLineMessenger) : DelayedLineMessenger :=
  d ++ [mkLineInfo text (addressOf <$> at_)].

Definition delayed_flush (d : DelayedLineMessenger) (m : LineMessenger) : LineMessenger :=
  foldl (fun acc li => emit li acc) m d.

(* ================================================================== *)
(** * Guards (guards.h) *)
(* ================================================================== *)

Inductive IntGuardState := IGS_ZERO | IGS_NONZERO | IGS_UNKNOWN.

Inductive SEXPGuardState := SGS_NIL | SGS_SYMBOL | SGS_NONNIL | SGS_UNKNOWN.

#[global] Instance IntGuardState_eq_dec : EqDecision IntGuardState.
Proof. solve_decision. Defined.
#[global] Instance SEXPGuardState_eq_dec : EqDecision SEXPGuardState.
Proof. solve_decision. Defined.

Record SEXPGuardTy := mkSEXPGuard {
  state : SEXPGuardState;
  symbolName : string
}.

#[global] Instance SEXPGuardTy_eq_dec : EqDecision SEXPGuardTy.
Proof. solve_decision. Defined.

(** [std::map<AllocaInst*, ...>]: ordered by key. *)
Abbreviation IntGuardsTy := (gmap AllocaInst IntGuardState).
Abbreviation SEXPGuardsTy := (gmap AllocaInst SEXPGuardTy).

(** The enumerators' values, as written in guards.h. *)
Definition IntGuardState_value (s : IntGuardState) : Z :=
  match s with IGS_ZERO => 0 | IGS_NONZERO => 1 | IGS_UNKNOWN => 2 end.

Definition SEXPGuardState_value (s : SEXPGuardState) : Z :=
  match s with SGS_NIL => 0 | SGS_SYMBOL => 1 | SGS_NONNIL => 2 | SGS_UNKNOWN => 3 end.

(** Iteration over a [std::map] visits the keys in increasing order. *)
Definition key_le {V} (a b : positive * V) : Prop := (a.1 <= b.1)%positive.

#[global] Instance key_le_dec {V} (a b : positive * V) : Decision (key_le a b).
Proof. unfold key_le. apply _. Defined.

Definition ordered {V} (m : gmap positive V) : list (positive * V) :=
  merge_sort key_le (map_to_list m).

(* ================================================================== *)
(** * Balance state *)
(* ================================================================== *)

(** Modelled from the spec: balance.h is not among the sources; the fields
    are those the sources read (bcheck.cpp, freshvars.cpp) with the meaning
    of the spec's balance domain. *)
Inductive CountState := CS_NONE | CS_EXACT | CS_DIFF.

#[global] Instance CountState_eq_dec : EqDecision CountState.
Proof. solve_decision. Defined.

Definition CountState_value (s : CountState) : Z :=
  match s with CS_NONE => 0 | CS_EXACT => 1 | CS_DIFF => 2 end.

Record BalanceStateTy := mkBalance {
  depth : Z;
  count : Z;
  savedDepth : Z;
  countState : CountState;
  counterVar : option AllocaInst;
  topSaveVar : option AllocaInst;
  bconfused : bool
}.

Definition initialBalance : BalanceStateTy :=
  mkBalance 0 0 (-1) CS_NONE None None false.

(* ================================================================== *)
(** * What the checker is given by other translation units *)
(* ================================================================== *)

(** A called function in its calling context (callocators.h). *)
Record CalledFunctionTy := mkCalled {
  fun_ : Function;
  calledName : string            (* funName(tgt) *)
}.

Record CalledModuleTy := mkCalledModule {
  getCalledFunction : Value -> option SEXPGuardsTy -> option CalledFunctionTy;
      (* cm->getCalledFunction(v, sexpGuardsChecker, sexpGuards, false) *)
  isCAllocating : CalledFunctionTy -> bool;
  isPossibleCAllocator : CalledFunctionTy -> bool;
  protectsArguments : CalledFunctionTy -> bool;
  ppStackTopVariable : positive  (* cm->getGlobals()->ppStackTopVariable *)
}.

Record CProtectInfo := mkCProtect {
  isCalleeSafe : Function -> bool;              (* isCalleeSafe(fun, false) *)
  isCalleeSafeArg : Function -> nat -> bool;    (* isCalleeSafe(fun, aidx, false) *)
  isCalleeProtect : Function -> bool;
  isCalleeProtectArg : Function -> nat -> bool
}.

Record VarsLiveness := mkLiveness {
  isPossiblyUsed : AllocaInst -> bool;
  isPossiblyKilled : AllocaInst -> bool;
  isDefinitelyUsed : AllocaInst -> bool
}.

(** [LiveVarsTy]: a map from instructions to the liveness after them. *)
Definition LiveVarsTy := Value -> option VarsLiveness.

(* ================================================================== *)
(** * Fresh variables: state *)
(* ================================================================== *)

(** [condMsgs] is an unordered map ("condMsgs is unordered", bcheck.cpp):
    its elements are kept here in the order an iteration visits them, which
    the contents alone do not determine.  A new element is linked at the
    front of the iteration order. *)
Abbreviation ConditionalMessagesTy := (list (AllocaInst * DelayedLineMessenger)).

Fixpoint cm_find (var : AllocaInst) (m : ConditionalMessagesTy) : option DelayedLineMessenger :=
  match m with
  | [] => None
  | (k, d) :: m' => if bool_decide (k = var) then Some d else cm_find var m'
  end.

Definition cm_erase (var : AllocaInst) (m : ConditionalMessagesTy) : ConditionalMessagesTy :=
  filter (fun kv => kv.1 ≠ var) m.

(** [insert] leaves an existing element alone. *)
Definition cm_insert (var : AllocaInst) (d : DelayedLineMessenger)
    (m : ConditionalMessagesTy) : ConditionalMessagesTy :=
  match cm_find var m with
  | Some _ => m
  | None => (var, d) :: m
  end.

(** Assignment through the iterator a [find] returned. *)
Fixpoint cm_set (var : AllocaInst) (d : DelayedLineMessenger)
    (m : ConditionalMessagesTy) : ConditionalMessagesTy :=
  match m with
  | [] => []
  | (k, d') :: m' => if bool_decide (k = var) then (k, d) :: m' else (k, d') :: cm_set var d m'
  end.

(** [operator==] of an unordered map: the same number of elements, and
    every element of the one is found, with an equal value, in the other. *)
Definition cm_equal (a b : ConditionalMessagesTy) : bool :=
  bool_decide (length a = length b) &&
  forallb (fun kv => bool_decide (cm_find kv.1 b = Some kv.2)) a.

Record FreshVarsTy := mkFreshVars {
  vars : gmap AllocaInst Z;            (* std::map: variable -> protect count *)
  condMsgs : ConditionalMessagesTy;
  pstack : list (option AllocaInst);   (* std::vector, back is the top; None is NULL *)
  confused : bool
}.

Definition initialFreshVars : FreshVarsTy := mkFreshVars ∅ [] [] false.

Definition set_vars (f : gmap AllocaInst Z -> gmap AllocaInst Z) (fv : FreshVarsTy) :=
  mkFreshVars (f (vars fv)) (condMsgs fv) (pstack fv) (confused fv).
Definition set_condMsgs (f : ConditionalMessagesTy -> ConditionalMessagesTy) (fv : FreshVarsTy) :=
  mkFreshVars (vars fv) (f (condMsgs fv)) (pstack fv) (confused fv).
Definition set_pstack (f : list (option AllocaInst) -> list (option AllocaInst)) (fv : FreshVarsTy) :=
  mkFreshVars (vars fv) (condMsgs fv) (f (pstack fv)) (confused fv).
Definition set_confused (b : bool) (fv : FreshVarsTy) :=
  mkFreshVars (vars fv) (condMsgs fv) (pstack fv) b.

(** [std::map<AllocaInst*, bool>] memoising a predicate on variables. *)
Abbreviation VarBoolCacheTy := (gmap AllocaInst bool).

(* ================================================================== *)
(** * The objects a transfer function updates through references *)
(* ================================================================== *)

Record Refs := mkRefs {
  freshVars : FreshVarsTy;
  msg : LineMessenger;
  refinableInfos : N;                 (* unsigned& *)
  checkedVarsCache : VarBoolCacheTy
}.

Definition on_freshVars (f : FreshVarsTy -> FreshVarsTy) (r : Refs) : Refs :=
  mkRefs (f (freshVars r)) (msg r) (refinableInfos r) (checkedVarsCache r).
Definition on_msg (f : LineMessenger -> LineMessenger) (r : Refs) : Refs :=
  mkRefs (freshVars r) (f (msg r)) (refinableInfos r) (checkedVarsCache r).
Definition incr_refinableInfos (r : Refs) : Refs :=
  mkRefs (freshVars r) (msg r) (uint_incr (refinableInfos r)) (checkedVarsCache r).
Definition on_cache (f : VarBoolCacheTy -> VarBoolCacheTy) (r : Refs) : Refs :=
  mkRefs (freshVars r) (msg r) (refinableInfos r) (f (checkedVarsCache r)).

(** How a statement ends: control falls through, the function executes
    [return], or the run stops (a failed [myassert], an operation that is
    undefined, a loop that does not end). *)
Inductive Outcome (A : Type) : Type :=
| Next (a : A)
| Returned
| Aborted.
Arguments Next {A} a.
Arguments Returned {A}.
Arguments Aborted {A}.

(** State passing with the three ways a statement ends. *)
Definition St (S A : Type) : Type := S -> S * Outcome A.

Definition ret {S A} (a : A) : St S A := fun r => (r, Next a).

Definition bind {S A B} (m : St S A) (k : A -> St S B) : St S B :=
  fun r =>
    match m r with
    | (r', Next a) => k a r'
    | (r', Returned) => (r', Returned)
    | (r', Aborted) => (r', Aborted)
    end.

Declare Scope chk_scope.
Delimit Scope chk_scope with chk.
Bind Scope chk_scope with St.
Notation "x ← y ; z" := (bind y (fun x => z))
  (at level 20, y at level 100, z at level 200, only parsing) : chk_scope.
Notation "x ;; z" := (bind x (fun _ => z))
  (at level 100, z at level 200, only parsing, right associativity) : chk_scope.
Open Scope chk_scope.

Definition return_ {S A} : St S A := fun r => (r, Returned).
Definition abort {S A} : St S A := fun r => (r, Aborted).
Definition myassert {S} (b : bool) : St S unit := if b then ret tt else abort.
Definition gets {S A} (f : S -> A) : St S A := fun r => (r, Next (f r)).
Definition modify {S} (f : S -> S) : St S unit := fun r => (f r, Next tt).
Definition when {S} (b : bool) (m : St S unit) : St S unit := if b then m else ret tt.

(** A call of a [void] function: its [return] ends the callee only. *)
Definition call {S} (m : St S unit) : St S unit :=
  fun r =>
    match m r with
    | (r', Returned) => (r', Next tt)
    | res => res
    end.

Fixpoint forEach {S A} (l : list A) (body : A -> St S unit) : St S unit :=
  match l with
  | [] => ret tt
  | x :: l' => body x;; forEach l' body
  end.

Fixpoint repeat_n {S} (n : nat) (body : St S unit) : St S unit :=
  match n with
  | O => ret tt
  | S n' => body;; repeat_n n' body
  end.

(** The transfer functions of the fresh variables act on [Refs]. *)
Abbreviation Chk := (St Refs).

Definition info (text : string) (at_ : option Value) : Chk unit :=
  modify (on_msg (msg_info text at_)).

(* ================================================================== *)
(** * Fresh variables: transfer functions (freshvars.cpp) *)
(* ================================================================== *)

(** [std::vector]: [push_back], [pop_back] and [back]. *)
Definition push_back {A} (x : A) (l : list A) : list A := l ++ [x].
Definition pop_back {A} (l : list A) : list A := @removelast A l.
Definition back {A} (l : list A) : option A := last l.

Definition QUIET_WHEN_CONFUSED : bool := true.

Definition CONFUSION_DISCLAIMER : string :=
  if QUIET_WHEN_CONFUSED then "results will be incomplete" else "results will be incorrect".

Definition MSG_PFX : string := "[UP] ".

(** The texts of the findings. *)
Definition tooDeepText : string :=
  MSG_PFX +:+ "protect stack is too deep, unprotecting all variables, " +:+
  CONFUSION_DISCLAIMER.

Definition beyondStackText (k : N) (size : nat) : string :=
  MSG_PFX +:+ "attempt to unprotect more items (" +:+ pretty k +:+
  ") than protected (" +:+ pretty size +:+ "), " +:+ CONFUSION_DISCLAIMER.

Definition unsupportedUnprotectText : string :=
  MSG_PFX +:+ "unsupported form of unprotect, unprotecting all variables, " +:+
  CONFUSION_DISCLAIMER.

Definition allocatingArgumentText (tgt src : string) : string :=
  MSG_PFX +:+ "calling allocating function " +:+ tgt +:+
  " with argument allocated using " +:+ src.

Definition ignoringVariableText (name : string) : string :=
  MSG_PFX +:+ "ignoring variable " +:+ name +:+
  " as it has address taken, results will be incomplete ".

(** The first [StoreInst] among the users decides: its pointer operand,
    when that is a local slot. *)
Fixpoint firstStoreTarget (us : list Value) : option AllocaInst :=
  match us with
  | [] => None
  | StoreInst _ _ ptr :: _ => asAlloca ptr
  | _ :: us' => firstStoreTarget us'
  end.

(** "first argument of the setter is not fresh": absent from [vars], or
    with a positive protect count. *)
Definition notFresh (vs : gmap AllocaInst Z) (v : AllocaInst) : bool :=
  match vs !! v with
  | None => true
  | Some n => bool_decide (0 < n)
  end.

(** A user that is a call of a setter with more than one argument whose
    first argument is a load of a non-fresh slot other than [var]. *)
Definition setterProtecting (ir : IRInfo) (vs : gmap AllocaInst Z) (var : AllocaInst)
    (u : Value) : bool :=
  match u with
  | CallInst _ (Some tgt) args2 =>
      bool_decide (1 < length args2)%nat && isSetterFunction ir tgt &&
      match args2 !! 0%nat with
      | Some a0 =>
          match loadedVar a0 with
          | Some firstArg => bool_decide (firstArg ≠ var) && notFresh vs firstArg
          | None => false
          end
      | None => false
      end
  | _ => false
  end.

Definition isProtectName (n : string) : bool :=
  bool_decide (n = "Rf_protect") || bool_decide (n = "R_ProtectWithIndex") ||
  bool_decide (n = "R_Reprotect").

Module FreshVars.
Section Transfer.

Variable ir : IRInfo.
Variable cm : CalledModuleTy.
Variable cprotect : CProtectInfo.
Variable liveVars : LiveVarsTy.
(** [MAX_PSTACK_SIZE] is defined in freshvars.h, which is not among the
    sources. *)
Variable MAX_PSTACK_SIZE : nat.
(** The number of local slots of the function: a chain of aliases that
    is longer than this is cyclic, and the loop following it never ends. *)
Variable aliasChainBound : nat.

Definition pruneOne (in_ : Value) (var : AllocaInst) : Chk unit :=
  match liveVars in_ with
  | None => abort
  | Some lvars =>
      if negb (isPossiblyUsed lvars var) then
        modify (on_freshVars (fun fv => set_condMsgs (cm_erase var) (set_vars (delete var) fv)))
      else if negb (isPossiblyKilled lvars var) then
        fv ← gets freshVars;
        match cm_find var (condMsgs fv) with
        | Some d =>
            modify (on_msg (delayed_flush d));;
            modify incr_refinableInfos;;
            modify (on_freshVars (set_condMsgs (cm_erase var)))
        | None => ret tt
        end
      else ret tt
  end.

(** Entries and conditional messages of dead variables are removed;
    conditional messages of variables that are now definitely going to be
    used are printed. *)
Definition pruneFreshVars (in_ : Value) : Chk unit :=
  fv ← gets freshVars;
  forEach (ordered (vars fv)).*1 (pruneOne in_).

Definition unprotectAll (fv : FreshVarsTy) : FreshVarsTy :=
  set_vars (fmap (fun _ => 0)) (set_pstack (fun _ => []) fv).

Definition issueConditionalMessage (in_ : Value) (var : AllocaInst) (text : string)
    : Chk unit :=
  let definitely :=
    match liveVars in_ with
    | Some vlive => isDefinitelyUsed vlive var
    | None => false
    end in
  if definitely then
    info (MSG_PFX +:+ text) (Some in_);;
    modify incr_refinableInfos
  else
    fv ← gets freshVars;
    match cm_find var (condMsgs fv) with
    | None =>
        modify (on_freshVars (set_condMsgs
          (cm_insert var (delayed_info (MSG_PFX +:+ text) (Some in_) []))))
    | Some dmsg =>
        modify (on_freshVars (set_condMsgs
          (cm_set var (delayed_info (MSG_PFX +:+ text) (Some in_) dmsg))))
    end.

(** Only loads and stores use the variable (its address is not taken). *)
Definition onlyLoadStoreUses (var : AllocaInst) : bool :=
  forallb (fun u => isLoadInst u || isStoreInst u) (users ir (Alloca var)).

Definition isVarCheckedFresh (var : AllocaInst) : Chk bool :=
  if negb (isSEXP ir var) then ret false
  else
    cache ← gets checkedVarsCache;
    match cache !! var with
    | Some b => ret b
    | None =>
        let isChecked := onlyLoadStoreUses var in
        when (negb isChecked)
          (info (ignoringVariableText (varName ir var)) None);;
        modify (on_cache <[var := isChecked]>);;
        ret isChecked
    end.

Definition unprotectOne (in_ : Value) : Chk unit :=
  fv ← gets freshVars;
  match back (pstack fv) with
  | None => abort
  | Some top =>
      modify (on_freshVars (set_pstack pop_back));;
      match top with
      | None => ret tt
      | Some var =>
          match vars fv !! var with
          | Some nProtects =>
              let nProtects := nProtects - 1 in
              if bool_decide (nProtects < 0) then
                modify incr_refinableInfos;;
                modify (on_freshVars (set_vars <[var := 0]>))
              else
                modify (on_freshVars (set_vars <[var := nProtects]>))
          | None => ret tt
          end
      end
  end.

(** The variable an argument of [PreserveObject] or [PROTECT] stands for:
    [f(x)], [f(x = foo())] or [x = f(foo())]. *)
Definition handlePreserveObject (in_ : Value) (args : list Value) : Chk unit :=
  match args !! 0%nat with
  | None => abort
  | Some arg =>
      let var := loadedVar arg in
      let var := match var with Some _ => var | None => firstStoreTarget (users ir arg) end in
      let var := match var with Some _ => var | None => firstStoreTarget (users ir in_) end in
      match var with
      | Some v => modify (on_freshVars (set_vars (delete v)))
      | None => ret tt
      end
  end.

Definition handleReprotect (var : option AllocaInst) : Chk unit :=
  match var with
  | None => return_
  | Some v =>
      fv ← gets freshVars;
      match vars fv !! v with
      | Some nProtects =>
          when (negb (bool_decide (0 < nProtects)))
            (modify (on_freshVars (set_vars <[v := 1]>)))
      | None => modify (on_freshVars (set_vars <[v := 1]>))
      end;;
      return_
  end.

(** The variable a [PROTECT] is about, if it is one the tool tracks:
    [PROTECT(x)], [PROTECT(x = foo())] unless that is an argument of a
    setter call, or [x = PROTECT(foo())]. *)
Definition protectedVariable (in_ arg : Value) : Chk (option AllocaInst) :=
  fv ← gets freshVars;
  let var := loadedVar arg in
  var ← match var with
        | Some _ => ret var
        | None =>
            match firstStoreTarget (users ir arg) with
            | Some v =>
                if existsb (setterProtecting ir (vars fv) v) (users ir in_) then
                  modify (on_freshVars (set_vars (delete v)));; ret None
                else ret (Some v)
            | None => ret None
            end
        end;
  let var := match var with Some _ => var | None => firstStoreTarget (users ir in_) end in
  match var with
  | Some v => b ← isVarCheckedFresh v; ret (if b then Some v else None)
  | None => ret None
  end.

(** The push on the protect stack, of a variable or of an anonymous value. *)
Definition pushProtected (var : option AllocaInst) : Chk unit :=
  fv ← gets freshVars;
  if bool_decide (length (pstack fv) = MAX_PSTACK_SIZE) then
    modify (on_freshVars unprotectAll);;
    modify incr_refinableInfos;;
    info tooDeepText None;;
    when QUIET_WHEN_CONFUSED (modify (on_freshVars (set_confused true)));;
    return_
  else
    match var with
    | Some v =>
        modify (on_freshVars (set_pstack (push_back (Some v))));;
        match vars fv !! v with
        | Some nProtects => modify (on_freshVars (set_vars <[v := nProtects + 1]>))
        | None => modify (on_freshVars (set_vars <[v := 1]>))
        end;;
        return_
    | None =>
        modify (on_freshVars (set_pstack (push_back None)))
    end.

Definition handleProtect (in_ : Value) (f : Function) (args : list Value) : Chk unit :=
  match args !! 0%nat with
  | None => abort
  | Some arg =>
      var ← protectedVariable in_ arg;
      if bool_decide (fname f = "R_Reprotect") then handleReprotect var
      else pushProtected var
  end.

(** The count of an [UNPROTECT]: a constant, or a load of the counter
    variable whose value the balance state knows exactly. *)
Definition unprotectCount (arg : Value) (balance : option BalanceStateTy) : option N :=
  match arg with
  | ConstantInt ci => Some ci
  | LoadInst _ ptr =>
      match balance, asAlloca ptr with
      | Some b, Some cvar =>
          if bool_decide (counterVar b = Some cvar) && bool_decide (countState b = CS_EXACT)
          then Some (to_uint64 (count b))
          else None
      | _, _ => None
      end
  | _ => None
  end.

Definition handleUnprotect (in_ : Value) (args : list Value)
    (balance : option BalanceStateTy) : Chk unit :=
  match args !! 0%nat with
  | None => abort
  | Some arg =>
      match unprotectCount arg balance with
      | Some k =>
          fv ← gets freshVars;
          if bool_decide (N.of_nat (length (pstack fv)) < k)%N then
            info (beyondStackText k (length (pstack fv))) (Some in_);;
            modify incr_refinableInfos;;
            when QUIET_WHEN_CONFUSED (modify (on_freshVars (set_confused true)));;
            return_
          else
            repeat_n (N.to_nat k) (call (unprotectOne in_))
      | None =>
          info unsupportedUnprotectText (Some in_);;
          modify (on_freshVars unprotectAll);;
          when QUIET_WHEN_CONFUSED (modify (on_freshVars (set_confused true)));;
          return_
      end
  end.

(** The protection primitives, handled unless the tool is confused. *)
Definition handleProtectionCalls (in_ : Value) (f : Function) (args : list Value)
    (balance : option BalanceStateTy) : Chk unit :=
  when (bool_decide (fname f = "R_PreserveObject")) (handlePreserveObject in_ args);;
  when (isProtectName (fname f)) (handleProtect in_ f args);;
  when (bool_decide (fname f = "Rf_unprotect")) (handleUnprotect in_ args balance).

(** "calling allocating function ... with argument allocated using ...":
    "this check can be done even when the tool is confused". *)
Definition checkAllocatingArguments (in_ : Value) (tgt : CalledFunctionTy)
    (args : list Value) (sexpGuards : option SEXPGuardsTy) : Chk unit :=
  when (negb (protectsArguments cm tgt) && negb (isCalleeSafe cprotect (fun_ tgt)))
    (forEach (zip (seq 0 (length args)) args) (fun '(aidx, arg) =>
       match getCalledFunction cm arg sexpGuards with
       | None => ret tt
       | Some src =>
           if negb (isPossibleCAllocator cm src) then ret tt
           else if bool_decide (aidx < arg_size (fun_ tgt))%nat &&
                   isCalleeSafeArg cprotect (fun_ tgt) aidx then ret tt
           else
             info (allocatingArgumentText (calledName tgt) (calledName src)) (Some in_);;
             modify incr_refinableInfos
       end)).

(** The variables passed to the call: [foo(x)] and [foo(x = bar())]. *)
Definition passedVarsOf (f : Function) (args : list Value) : gset AllocaInst :=
  foldl (fun (acc : gset AllocaInst) '(i, arg) =>
    if bool_decide (i < length (paramIsSEXP f))%nat &&
       negb (default false (paramIsSEXP f !! i)) then acc
    else
      match arg with
      | LoadInst _ ptr =>
          match asAlloca ptr with
          | Some lvar => {[lvar]} ∪ acc
          | None => acc
          end
      | _ =>
          if hasOneUse ir arg then acc
          else
            foldl (fun (acc : gset AllocaInst) u =>
              match u with
              | StoreInst _ _ ptr =>
                  match asAlloca ptr with
                  | Some svar => {[svar]} ∪ acc
                  | None => acc
                  end
              | _ => acc
              end) acc (users ir arg)
      end) ∅ (zip (seq 0 (length args)) args).

Definition checkFreshVarsAtCall (in_ : Value) (tgt : CalledFunctionTy) (f : Function)
    (args : list Value) : Chk unit :=
  fv ← gets freshVars;
  when (bool_decide (0 < size (vars fv))%nat)
    (let passedVars := passedVarsOf f args in
     forEach (ordered (vars fv)) (fun '(var, nProtects) =>
       if bool_decide (0 < nProtects) then ret tt
       else if bool_decide (var ∈ passedVars) then ret tt
       else
         call (issueConditionalMessage in_ var
           ("unprotected variable " +:+ varName ir var +:+
            " while calling allocating function " +:+ calledName tgt)))).

(** The call of a function that may allocate. *)
Definition handleAllocatingCall (in_ : Value) (tgt : CalledFunctionTy) (args : list Value)
    (sexpGuards : option SEXPGuardsTy) (confused : bool) : Chk unit :=
  if negb (isCAllocating cm tgt) then return_
  else
    checkAllocatingArguments in_ tgt args sexpGuards;;
    if confused then return_
    else
      call (pruneFreshVars in_);;
      checkFreshVarsAtCall in_ tgt (fun_ tgt) args.

Definition handleCall (in_ : Value) (sexpGuards : option SEXPGuardsTy)
    (balance : option BalanceStateTy) : Chk unit :=
  fv ← gets freshVars;
  let confused := QUIET_WHEN_CONFUSED && confused fv in
  match getCalledFunction cm in_ sexpGuards with
  | None => return_
  | Some tgt =>
      match in_ with
      | CallInst _ (Some _) args =>
          when (negb confused) (handleProtectionCalls in_ (fun_ tgt) args balance);;
          handleAllocatingCall in_ tgt args sexpGuards confused
      | _ => abort
      end
  end.

(** A user of the loaded value that protects it implicitly: a setter call
    with a non-fresh first argument, or (as written) a store whose value
    operand is the store itself into something that is not a local slot. *)
Definition loadUserProtects (vs : gmap AllocaInst Z) (var : AllocaInst) (u : Value) : bool :=
  match u with
  | CallInst _ _ _ => setterProtecting ir vs var u
  | StoreInst _ valueOp ptrOp => sameValue valueOp u && negb (bool_decide (is_Some (asAlloca ptrOp)))
  | _ => false
  end.

Definition flushConditionalMessages (var : AllocaInst) : Chk unit :=
  fv ← gets freshVars;
  match cm_find var (condMsgs fv) with
  | Some d =>
      modify (on_msg (delayed_flush d));;
      modify incr_refinableInfos;;
      modify (on_freshVars (set_condMsgs (cm_erase var)))
  | None => ret tt
  end.

(** The part of [handleLoad] that follows the flush of the conditional
    messages: a fresh variable is being loaded. *)
Definition handleLoadOfFresh (in_ : Value) (var : AllocaInst) (nProtects : Z)
    (sexpGuards : option SEXPGuardsTy) : Chk unit :=
  fv ← gets freshVars;
  when (existsb (loadUserProtects (vars fv) var) (users ir in_))
    (modify (on_freshVars (set_vars (delete var))));;
  if negb (hasOneUse ir in_) then return_
  else
    match user_back ir in_ with
    | None => abort
    | Some user =>
        match getCalledFunction cm user sexpGuards with
        | None => return_
        | Some tgt =>
            if negb (isCAllocating cm tgt) || protectsArguments cm tgt ||
               isCalleeProtect cprotect (fun_ tgt) then return_
            else if bool_decide (0 < nProtects) then return_
            else
              match user with
              | CallInst _ _ args =>
                  let aidx :=
                    match list_find (fun a => sameValue a in_ = true) args with
                    | Some (i, _) => i
                    | None => length args
                    end in
                  myassert (bool_decide (aidx < length args)%nat);;
                  if bool_decide (aidx < arg_size (fun_ tgt))%nat &&
                     isCalleeProtectArg cprotect (fun_ tgt) aidx then return_
                  else
                    let nameSuffix :=
                      if hasEmptyName ir var
                      then " <arg " +:+ pretty (aidx + 1)%nat +:+ ">" else EmptyString in
                    when (bool_decide (arg_size (fun_ tgt) <= aidx)%nat ||
                          negb (isCalleeSafeArg cprotect (fun_ tgt) aidx))
                      (info (MSG_PFX +:+ "calling allocating function " +:+ calledName tgt +:+
                             " with a fresh pointer (" +:+ varName ir var +:+ nameSuffix +:+ ")")
                            (Some in_);;
                       modify incr_refinableInfos);;
                    call (issueConditionalMessage in_ var
                      ("allocating function " +:+ calledName tgt +:+
                       " may destroy its unprotected argument (" +:+ varName ir var +:+
                       nameSuffix +:+ "), which is later used."))
              | _ => abort
              end
        end
    end.

Definition handleLoad (in_ : Value) (sexpGuards : option SEXPGuardsTy) : Chk unit :=
  fv ← gets freshVars;
  if QUIET_WHEN_CONFUSED && confused fv then return_
  else
    match in_ with
    | LoadInst _ ptr =>
        match asAlloca ptr with
        | None => return_
        | Some var =>
            flushConditionalMessages var;;
            fv ← gets freshVars;
            match vars fv !! var with
            | None => return_
            | Some nProtects => handleLoadOfFresh in_ var nProtects sexpGuards
            end
        end
    | _ => return_
    end.

(** The loop [while(checkAliases)]: one round for every alias on the
    chain.  The loop of the code has no bound; [fuel] rounds are given
    here, and a walk that has not ended when they are used up is cut off
    with [abort], which then stands for a loop that does not end (a
    cyclic chain of aliases), not for a failed assertion. *)
Fixpoint followAliases (fuel : nat) (origVar : AllocaInst) : Chk unit :=
  match fuel with
  | O => abort
  | S fuel' =>
      match findOnlyStoreTo ir origVar with
      | Some (StoreInst _ valueOp _) =>
          match loadedVar valueOp with
          | Some v => modify (on_freshVars (set_vars (delete v)));; followAliases fuel' v
          | None => ret tt
          end
      | _ => ret tt
      end
  end.

Definition unfreshAliasedVars (useInst : Value) (useVar : AllocaInst) : Chk unit :=
  match aliasesVariable ir useInst useVar with
  | Some origVar =>
      modify (on_freshVars (set_vars (delete origVar)));;
      followAliases (S aliasChainBound) origVar
  | None => ret tt
  end.

(** [R_PPStackTop = var]: the restore of a saved stack top, or a direct
    manipulation of the pointer protection stack. *)
Definition handleStoreToStackTop (in_ : Value) (storeValueOp : Value)
    (balance : option BalanceStateTy) : Chk unit :=
  let restored :=
    match loadedVar storeValueOp, balance with
    | Some saveVar, Some b =>
        if bool_decide (topSaveVar b = Some saveVar) then Some (savedDepth b) else None
    | _, _ => None
    end in
  match restored with
  | Some newDepth =>
      myassert (bool_decide (0 <= newDepth));;
      fv ← gets freshVars;
      let curDepth := to_int (Z.of_nat (length (pstack fv))) in
      if bool_decide (curDepth < newDepth) then
        info (MSG_PFX +:+ "attempt to restore protection stack to higher depth than it has now, "
              +:+ CONFUSION_DISCLAIMER) (Some in_);;
        when QUIET_WHEN_CONFUSED (modify (on_freshVars (set_confused true)));;
        return_
      else if bool_decide (newDepth = curDepth) then return_
      else
        repeat_n (Z.to_nat (curDepth - newDepth)) (call (unprotectOne in_));;
        return_
  | None =>
      info (MSG_PFX +:+ "manipulates PPStackTop directly, " +:+ CONFUSION_DISCLAIMER) (Some in_);;
      when QUIET_WHEN_CONFUSED (modify (on_freshVars (set_confused true)));;
      return_
  end.

Inductive StoreScan := ScanProtected | ScanSetter | ScanNone.

(** The other users of a stored allocator result: a protecting call ends
    the handling, a setter call makes the variable non-fresh. *)
Fixpoint scanStoreUsers (vs : gmap AllocaInst Z) (storeValueOp : Value) (us : list Value)
    : StoreScan :=
  match us with
  | [] => ScanNone
  | CallInst _ (Some otherFun) args2 :: us' =>
      if bool_decide (fname otherFun = "Rf_protect") ||
         bool_decide (fname otherFun = "Rf_protectWithIndex") ||
         bool_decide (fname otherFun = "R_Reprotect") then ScanProtected
      else if bool_decide (1 < length args2)%nat && isSetterFunction ir otherFun &&
              match args2 !! 0%nat with
              | Some a0 =>
                  match loadedVar a0 with
                  | Some firstArg => notFresh vs firstArg
                  | None => false
                  end
              | None => false
              end &&
              match args2 !! 1%nat with
              | Some protArg => negb (sameValue protArg storeValueOp)
              | None => false
              end then ScanSetter
      else scanStoreUsers vs storeValueOp us'
  | _ :: us' => scanStoreUsers vs storeValueOp us'
  end.

(** [var = ATTRIB(var1)]: a load through an in-bounds projection of a
    loaded local slot. *)
Definition derivedFrom (storeValueOp : Value) : option AllocaInst :=
  match storeValueOp with
  | LoadInst _ (GetElementPtrInst _ true (LoadInst _ (Alloca dvars))) => Some dvars
  | _ => None
  end.

Definition handleStoreToVar (in_ : Value) (var : AllocaInst) (storeValueOp : Value)
    (sexpGuards : option SEXPGuardsTy) : Chk unit :=
  modify (on_freshVars (set_condMsgs (cm_erase var)));;
  fv ← gets freshVars;
  match
    match getCalledFunction cm storeValueOp sexpGuards with
    | Some srcFun =>
        let sf := fun_ srcFun in
        if bool_decide (fname sf = "Rf_protect") ||
           bool_decide (fname sf = "Rf_protectWithIndex") ||
           bool_decide (fname sf = "Rf_Reprotect") then Some return_
        else if isPossibleCAllocator cm srcFun then
          Some
            match scanStoreUsers (vars fv) storeValueOp (users ir storeValueOp) with
            | ScanProtected => return_
            | ScanSetter => modify (on_freshVars (set_vars (delete var)));; return_
            | ScanNone => modify (on_freshVars (set_vars <[var := 0]>));; return_
            end
        else None
    | None => None
    end
  with
  | Some done => done
  | None =>
      derived ← match derivedFrom storeValueOp with
                | Some dvars =>
                    b ← isVarCheckedFresh dvars;
                    fv ← gets freshVars;
                    ret (b && bool_decide (vars fv !! dvars = Some 0))
                | None => ret false
                end;
      if derived then
        modify (on_freshVars (set_vars <[var := 0]>));; return_
      else
        modify (on_freshVars (set_vars (delete var)))
  end.

Definition handleStore (in_ : Value) (sexpGuards : option SEXPGuardsTy)
    (balance : option BalanceStateTy) : Chk unit :=
  fv ← gets freshVars;
  if QUIET_WHEN_CONFUSED && confused fv then return_
  else
    match isStoreToStructureElement ir in_ with
    | Some protectedVar =>
        modify (on_freshVars (set_vars (delete protectedVar)));;
        call (unfreshAliasedVars in_ protectedVar);;
        return_
    | None =>
        match in_ with
        | StoreInst _ storeValueOp storePointerOp =>
            if bool_decide (addressOf storePointerOp = AtGlobal (ppStackTopVariable cm)) then
              handleStoreToStackTop in_ storeValueOp balance
            else
              match asAlloca storePointerOp with
              | None => return_
              | Some var =>
                  b ← isVarCheckedFresh var;
                  if negb b then return_
                  else handleStoreToVar in_ var storeValueOp sexpGuards
              end
        | _ => return_
        end
    end.

Definition handleFreshVarsForNonTerminator (in_ : Value) (sexpGuards : option SEXPGuardsTy)
    (balance : option BalanceStateTy) : Chk unit :=
  call (handleCall in_ sexpGuards balance);;
  call (handleLoad in_ sexpGuards);;
  call (handleStore in_ sexpGuards balance).

(** "does nothing anyway" *)
Definition handleFreshVarsForTerminator (t : Value) (fv : FreshVarsTy) : FreshVarsTy := fv.

End Transfer.
End FreshVars.

(* ================================================================== *)
(** * The fresh-variables transfer in the words of the specification *)
(* ================================================================== *)

(** "pop top element t; if t is a slot and in vars, decrement
    protectCount (clamp >= 0)" *)
Definition popProtected (fv : FreshVarsTy) : FreshVarsTy :=
  match back (pstack fv) with
  | Some (Some v) =>
      match vars fv !! v with
      | Some n => set_vars <[v := Z.max 0 (n - 1)]> (set_pstack pop_back fv)
      | None => set_pstack pop_back fv
      end
  | _ => set_pstack pop_back fv
  end.

(** The pop clamps: the top of the protect stack is a slot in [vars]
    whose protect count is not positive. *)
Definition clampsAtZero (fv : FreshVarsTy) : bool :=
  match back (pstack fv) with
  | Some (Some v) =>
      match vars fv !! v with
      | Some n => bool_decide (n - 1 < 0)
      | None => false
      end
  | _ => false
  end.

(** The number of pops that clamp among [k] pops in a row. *)
Fixpoint clampsIn (k : nat) (fv : FreshVarsTy) : nat :=
  match k with
  | O => O
  | S k' => ((if clampsAtZero fv then 1 else 0) + clampsIn k' (popProtected fv))%nat
  end.

(** The chain of aliases that starts at [origVar] ends after at most
    [bound] links: the only store to the variable, if there is one, stores
    a load of a variable whose chain ends after at most [bound - 1]. *)
Fixpoint aliasChainEnds (ir : IRInfo) (bound : nat) (origVar : AllocaInst) {struct bound}
    : bool :=
  match findOnlyStoreTo ir origVar with
  | Some (StoreInst _ valueOp _) =>
      match loadedVar valueOp with
      | Some v =>
          match bound with
          | O => false
          | S bound' => aliasChainEnds ir bound' v
          end
      | None => true
      end
  | _ => true
  end.

(** What a transfer on a confused trace may still do: report allocating
    arguments of the call [in_], and nothing else. *)
Definition onlyAllocatingArguments (in_ : Value) (r r' : Refs) : Prop :=
  freshVars r' = freshVars r /\
  checkedVarsCache r' = checkedVarsCache r /\
  forall li, li ∈ lineBuffer (msg r') ->
    li ∈ lineBuffer (msg r) \/
    exists tgt src, li = mkLineInfo (allocatingArgumentText tgt src) (Some (addressOf in_)).


(** What [isVarCheckedFresh] answers for a variable: it holds an SEXP and,
    by the cache or by its uses, only loads and stores use it. *)
Definition checkedFresh (ir : IRInfo) (cache : VarBoolCacheTy) (var : AllocaInst) : bool :=
  isSEXP ir var && default (FreshVars.onlyLoadStoreUses ir var) (cache !! var).

(** The records in the buffer of [m'] are those in the buffer of [m] and
    records that satisfy [P]. *)
Definition emitsOnly (P : LineInfoTy -> Prop) (m m' : LineMessenger) : Prop :=
  forall li, li ∈ lineBuffer m' -> li ∈ lineBuffer m \/ P li.

(** The notice that a variable is not tracked. *)
Definition isIgnoringNotice (ir : IRInfo) (li : LineInfoTy) : Prop :=
  exists w, li = mkLineInfo (ignoringVariableText (varName ir w)) None.

(** The records a variable has pending. *)
Definition pendingOf (var : AllocaInst) (fv : FreshVarsTy) : DelayedLineMessenger :=
  default [] (cm_find var (condMsgs fv)).

(* ================================================================== *)
(** * Fresh variables: the older copy of freshvars.cpp *)
(* ================================================================== *)

(** The older copy of the transfer functions keeps no [confused] flag and
    takes neither the balance state nor the cache of checked variables.
    Of its [handleCall], the handling of the protection primitives is
    embedded; a call of any other function falls through to the part that
    deals with allocating calls. *)
Module Legacy.

Record FreshVarsTy := mkFreshVars {
  vars : gmap AllocaInst Z;
  condMsgs : ConditionalMessagesTy;
  pstack : list (option AllocaInst)
}.

Record Refs := mkRefs {
  freshVars : FreshVarsTy;
  msg : LineMessenger;
  refinableInfos : N
}.

Definition set_vars (f : gmap AllocaInst Z -> gmap AllocaInst Z) (r : Refs) : Refs :=
  mkRefs (mkFreshVars (f (vars (freshVars r))) (condMsgs (freshVars r)) (pstack (freshVars r)))
         (msg r) (refinableInfos r).
Definition set_pstack (f : list (option AllocaInst) -> list (option AllocaInst)) (r : Refs) : Refs :=
  mkRefs (mkFreshVars (vars (freshVars r)) (condMsgs (freshVars r)) (f (pstack (freshVars r))))
         (msg r) (refinableInfos r).
Definition info (text : string) (at_ : option Value) (r : Refs) : Refs :=
  mkRefs (freshVars r) (msg_info text at_ (msg r)) (refinableInfos r).
Definition incr_refinableInfos (r : Refs) : Refs :=
  mkRefs (freshVars r) (msg r) (uint_incr (refinableInfos r)).

(** The older texts carry neither the prefix nor the disclaimer. *)
Definition tooDeepText : string := "protect stack is too deep, unprotecting all variables".

Definition beyondStackText (k : N) (size : nat) : string :=
  "attempt to unprotect more items (" +:+ pretty k +:+ ") than protected (" +:+
  pretty size +:+ "), results will be incorrect".

Definition wentNegativeText (name : string) : string :=
  "protect count of variable " +:+ name +:+ " went negative, set to zero (error?)".

Section Transfer.

Variable ir : IRInfo.
Variable cm : CalledModuleTy.
Variable MAX_PSTACK_SIZE : nat.

Definition unprotectAll (r : Refs) : Refs :=
  set_vars (fmap (fun _ => 0)) (set_pstack (fun _ => []) r).

Definition protectedVarOf (in_ arg : Value) : option AllocaInst :=
  let var := loadedVar arg in
  let var := match var with Some _ => var | None => firstStoreTarget (users ir arg) end in
  match var with Some _ => var | None => firstStoreTarget (users ir in_) end.

(** One round of the loop [while(val-- > 0)] of [UNPROTECT(const)]: an
    anonymous top takes the [continue] that precedes [pop_back]. *)
Definition unprotectRound (in_ : Value) : St Refs unit :=
  r ← gets (fun r => r);
  match back (pstack (freshVars r)) with
  | None => abort
  | Some None => ret tt
  | Some (Some var) =>
      match vars (freshVars r) !! var with
      | Some nProtects =>
          let nProtects := nProtects - 1 in
          if bool_decide (nProtects < 0) then
            modify (info (wentNegativeText (varName ir var)) (Some in_));;
            modify incr_refinableInfos;;
            modify (set_vars <[var := 0]>)
          else modify (set_vars <[var := nProtects]>)
      | None => ret tt
      end;;
      modify (set_pstack pop_back)
  end.

Definition handleProtectionCall (in_ : Value) (sexpGuards : option SEXPGuardsTy)
    : St Refs unit :=
  match getCalledFunction cm in_ sexpGuards with
  | None => return_
  | Some tgt =>
      match in_ with
      | CallInst _ (Some _) args =>
          let f := fun_ tgt in
          if bool_decide (fname f = "R_PreserveObject") then
            match args !! 0%nat with
            | None => abort
            | Some arg =>
                match protectedVarOf in_ arg with
                | Some v => modify (set_vars (delete v))
                | None => ret tt
                end;;
                return_
            end
          else if bool_decide (fname f = "Rf_protect") ||
                  bool_decide (fname f = "R_ProtectWithIndex") then
            match args !! 0%nat with
            | None => abort
            | Some arg =>
                let var := protectedVarOf in_ arg in
                r ← gets (fun r => r);
                if bool_decide (length (pstack (freshVars r)) = MAX_PSTACK_SIZE) then
                  modify unprotectAll;;
                  modify incr_refinableInfos;;
                  modify (info tooDeepText (Some in_));;
                  return_
                else
                  match var with
                  | Some v =>
                      modify (set_pstack (push_back (Some v)));;
                      match vars (freshVars r) !! v with
                      | Some nProtects => modify (set_vars <[v := nProtects + 1]>)
                      | None => modify (set_vars <[v := 1]>)
                      end;;
                      return_
                  | None =>
                      modify (set_pstack (push_back None));;
                      return_
                  end
            end
          else if bool_decide (fname f = "Rf_unprotect") then
            match args !! 0%nat with
            | None => abort
            | Some (ConstantInt val) =>
                r ← gets (fun r => r);
                if bool_decide (N.of_nat (length (pstack (freshVars r))) < val)%N then
                  modify (info (beyondStackText val (length (pstack (freshVars r)))) (Some in_));;
                  modify incr_refinableInfos;;
                  return_
                else
                  repeat_n (N.to_nat val) (unprotectRound in_);;
                  return_
            | Some _ =>
                modify unprotectAll;;
                return_
            end
          else ret tt
      | _ => abort
      end
  end.

End Transfer.
End Legacy.

(* ================================================================== *)
(** * The checker proper (bcheck.cpp) *)
(* ================================================================== *)

Module Bcheck.

Definition FULL_COMPARISON : bool := true.

Record BcheckStateTy := mkState {
  bb : BasicBlock;
  balance : BalanceStateTy;
  intGuards : IntGuardsTy;
  sexpGuards : SEXPGuardsTy;
  freshVars : FreshVarsTy;
  hashcode : N                        (* size_t, cached by [hash] *)
}.

(** [BcheckStateTy(bb)] *)
Definition initialState (b : BasicBlock) : BcheckStateTy :=
  mkState b initialBalance ∅ ∅ initialFreshVars 0.

(** [clone(newBB)]: the hash code "indeed is not copied". *)
Definition clone (s : BcheckStateTy) (newBB : BasicBlock) : BcheckStateTy :=
  mkState newBB (balance s) (intGuards s) (sexpGuards s) (freshVars s) 0.

(** What [hash_combine] is applied to. *)
Inductive HashArg :=
| HPointer (p : N)                    (* an address; 0 is NULL *)
| HInt (z : Z)
| HSize (n : N)
| HChar (z : Z)
| HString (s : string)
| HLine (l : LineInfoTy).             (* the address of an interned record *)

Definition pointerOf (v : option positive) : N :=
  match v with Some p => Npos p | None => 0%N end.

(** The arguments of the successive calls of [hash_combine] in [hash()]. *)
Definition hashArgs (s : BcheckStateTy) : list HashArg :=
  [ HPointer (Npos (bb s));
    HInt (depth (balance s));
    HInt (count (balance s));
    HInt (savedDepth (balance s));
    HInt (CountState_value (countState (balance s)));
    HSize (N.of_nat (size (intGuards s))) ] ++
  flat_map (fun '(var, gs) =>
    [HPointer (Npos var); HChar (IntGuardState_value gs)]) (ordered (intGuards s)) ++
  [ HSize (N.of_nat (size (sexpGuards s))) ] ++
  flat_map (fun '(var, g) =>
    [HPointer (Npos var); HChar (SEXPGuardState_value (state g))] ++
    (if bool_decide (state g = SGS_SYMBOL) then [HString (symbolName g)] else []))
    (ordered (sexpGuards s)) ++
  [ HSize (N.of_nat (size (vars (freshVars s)))) ] ++
  flat_map (fun '(var, pcount) =>
    [HPointer (Npos var); HInt pcount]) (ordered (vars (freshVars s))) ++
  [ HSize (N.of_nat (length (condMsgs (freshVars s)))) ] ++
  flat_map (fun '(_, dmsg) =>
    HSize (N.of_nat (length dmsg)) :: map HLine dmsg) (condMsgs (freshVars s)) ++
  [ HSize (N.of_nat (length (pstack (freshVars s)))) ] ++
  map (fun var => HPointer (pointerOf var)) (pstack (freshVars s)).

(** [BcheckStateTy_equal], on the objects found at the two addresses. *)
Definition fields_equal (lhs rhs : BcheckStateTy) : bool :=
  bool_decide (bb lhs = bb rhs) &&
  bool_decide (depth (balance lhs) = depth (balance rhs)) &&
  bool_decide (savedDepth (balance lhs) = savedDepth (balance rhs)) &&
  bool_decide (count (balance lhs) = count (balance rhs)) &&
  bool_decide (countState (balance lhs) = countState (balance rhs)) &&
  bool_decide (counterVar (balance lhs) = counterVar (balance rhs)) &&
  bool_decide (bconfused (balance lhs) = bconfused (balance rhs)) &&
  bool_decide (topSaveVar (balance lhs) = topSaveVar (balance rhs)) &&
  bool_decide (intGuards lhs = intGuards rhs) &&
  bool_decide (sexpGuards lhs = sexpGuards rhs) &&
  bool_decide (vars (freshVars lhs) = vars (freshVars rhs)) &&
  cm_equal (condMsgs (freshVars lhs)) (condMsgs (freshVars rhs)) &&
  bool_decide (pstack (freshVars lhs) = pstack (freshVars rhs)) &&
  bool_decide (confused (freshVars lhs) = confused (freshVars rhs)).

Definition BcheckStateTy_equal (lhs rhs : positive * BcheckStateTy) : bool :=
  if negb FULL_COMPARISON then bool_decide (hashcode lhs.2 = hashcode rhs.2)
  else if bool_decide (lhs.1 = rhs.1) then true
  else fields_equal lhs.2 rhs.2.

(** The globals of bcheck.cpp with the states they point to, and the
    objects of the function checker a run updates. *)
Record Engine := mkEngine {
  heap : gmap positive BcheckStateTy;   (* the states allocated with [new] *)
  nextAddr : positive;
  doneSet : list positive;              (* std::unordered_set<BcheckStateTy*> *)
  workList : list positive;             (* std::stack, the head is the top *)
  totalStates : N;
  emsg : LineMessenger;                 (* m.msg *)
  cache : VarBoolCacheTy;               (* checkedVarsCache *)
  erefinable : N;                       (* refinableInfos *)
  visiting : list Address;              (* the instructions visited, in order *)
  errs : list string                    (* what was written to errs() *)
}.

Definition on_heap (f : gmap positive BcheckStateTy -> gmap positive BcheckStateTy) (e : Engine) :=
  mkEngine (f (heap e)) (nextAddr e) (doneSet e) (workList e) (totalStates e)
           (emsg e) (cache e) (erefinable e) (visiting e) (errs e).
Definition on_doneSet (f : list positive -> list positive) (e : Engine) :=
  mkEngine (heap e) (nextAddr e) (f (doneSet e)) (workList e) (totalStates e)
           (emsg e) (cache e) (erefinable e) (visiting e) (errs e).
Definition on_workList (f : list positive -> list positive) (e : Engine) :=
  mkEngine (heap e) (nextAddr e) (doneSet e) (f (workList e)) (totalStates e)
           (emsg e) (cache e) (erefinable e) (visiting e) (errs e).
Definition on_emsg (f : LineMessenger -> LineMessenger) (e : Engine) :=
  mkEngine (heap e) (nextAddr e) (doneSet e) (workList e) (totalStates e)
           (f (emsg e)) (cache e) (erefinable e) (visiting e) (errs e).
Definition set_erefinable (n : N) (e : Engine) :=
  mkEngine (heap e) (nextAddr e) (doneSet e) (workList e) (totalStates e)
           (emsg e) (cache e) n (visiting e) (errs e).
Definition set_refs (m : LineMessenger) (c : VarBoolCacheTy) (n : N) (e : Engine) :=
  mkEngine (heap e) (nextAddr e) (doneSet e) (workList e) (totalStates e)
           m c n (visiting e) (errs e).
Definition log_error (text : string) (e : Engine) :=
  mkEngine (heap e) (nextAddr e) (doneSet e) (workList e) (totalStates e)
           (emsg e) (cache e) (erefinable e) (visiting e) (errs e ++ [text]).
Definition log_visit (in_ : Value) (e : Engine) :=
  mkEngine (heap e) (nextAddr e) (doneSet e) (workList e) (totalStates e)
           (emsg e) (cache e) (erefinable e) (visiting e ++ [addressOf in_]) (errs e).

(** [new BcheckStateTy(...)] *)
Definition new (s : BcheckStateTy) (e : Engine) : Engine * positive :=
  (mkEngine (<[nextAddr e := s]> (heap e)) (Pos.succ (nextAddr e)) (doneSet e) (workList e)
            (totalStates e) (emsg e) (cache e) (erefinable e) (visiting e) (errs e),
   nextAddr e).

(** The function being checked, as the engine walks it. *)
Record FunctionIR := mkFunctionIR {
  funName : string;
  entryBlock : BasicBlock;
  instructions : BasicBlock -> list Value;   (* begin() .. end(), the terminator last *)
  avoidIntGuardsFor : bool;
  avoidSEXPGuardsFor : bool;
  errorBasicBlocks : BasicBlock -> bool      (* findErrorBasicBlocks *)
}.

(** What a terminator handler leaves: whether it took care of the
    successors, the state it was given (by reference), and the successor
    states it built with [clone] and handed to [add], in that order. *)
Record Handled := mkHandled {
  handled : bool;
  updated : BcheckStateTy;
  proposed : list BcheckStateTy
}.

(** Modelled from the spec: the balance and guard transfer functions
    (balance.cpp, guards.cpp) are not among the sources; the engine is
    stated for any such functions. *)
Record Domains := mkDomains {
  handleBalanceForNonTerminator :
    Value -> BalanceStateTy -> LineMessenger -> N -> BalanceStateTy * LineMessenger * N;
  handleBalanceForTerminator :
    Value -> BcheckStateTy -> LineMessenger -> N -> Handled * LineMessenger * N;
  intGuards_handleForNonTerminator : Value -> IntGuardsTy -> IntGuardsTy;
  intGuards_handleForTerminator : Value -> BcheckStateTy -> Handled;
  intGuards_isGuard : AllocaInst -> bool;
  sexpGuards_handleForNonTerminator : Value -> SEXPGuardsTy -> SEXPGuardsTy;
  sexpGuards_handleForTerminator : Value -> BcheckStateTy -> Handled;
  unprotectFunction : positive                (* g.unprotectFunction *)
}.

(** How the check of a function ends: with the engine as the last run left
    it and the guard settings of the runs made; stopped by a failed
    assertion; or not within the rounds allowed. *)
Inductive Checked :=
| Done (e : Engine) (trace : list (bool * bool))
| Crashed (e : Engine)
| Unfinished.

(** Modelled from the spec: "Absence is equivalent to UNKNOWN." *)
Definition getGuardState (g : IntGuardsTy) (var : AllocaInst) : IntGuardState :=
  default IGS_UNKNOWN (g !! var).

Section Checker.

(** [hash_combine] comes from common.h, which is not among the sources. *)
Variable hash_combine : N -> HashArg -> N.

Definition hash (s : BcheckStateTy) : BcheckStateTy :=
  mkState (bb s) (balance s) (intGuards s) (sexpGuards s) (freshVars s)
          (foldl hash_combine 0%N (hashArgs s)).

(** The element of the set that [insert] finds in the way of [this]:
    structural hash, then equality. *)
Definition found_equal (e : Engine) (this : positive) (s : BcheckStateTy) (q : positive) : bool :=
  match heap e !! q with
  | Some t => bool_decide (hashcode t = hashcode s) && BcheckStateTy_equal (this, s) (q, t)
  | None => false
  end.

Definition doneSet_find (e : Engine) (this : positive) (s : BcheckStateTy) : option positive :=
  snd <$> list_find (fun q => found_equal e this s q = true) (doneSet e).

(** [BcheckStateTy::add()] for the state at address [this]. *)
Definition add (this : positive) (e : Engine) : Engine * bool :=
  match heap e !! this with
  | None => (e, false)
  | Some s0 =>
      let s := hash s0 in
      let e := on_heap <[this := s]> e in
      match doneSet_find e this s with
      | None => (on_workList (cons this) (on_doneSet (fun ds => ds ++ [this]) e), true)
      | Some _ => (on_heap (delete this) e, false)        (* delete this *)
      end
  end.

Definition clearStates (e : Engine) : Engine :=
  mkEngine (foldr delete (heap e) (doneSet e)) (nextAddr e) [] []
           (totalStates e + N.of_nat (length (doneSet e)))%N
           (emsg e) (cache e) (erefinable e) (visiting e) (errs e).

(** [MAX_STATES] is [BCHECK_MAX_STATES], a macro of the build. *)
Variable MAX_STATES : N.
Variable MAX_PSTACK_SIZE : nat.
Variable aliasChainBound : nat.
Variable ir : IRInfo.
Variable cm : CalledModuleTy.
Variable cprotect : CProtectInfo.
Variable liveVars : LiveVarsTy.
Variable dom : Domains.
Variable fn : FunctionIR.

Definition set_balance (b : BalanceStateTy) (s : BcheckStateTy) : BcheckStateTy :=
  mkState (bb s) b (intGuards s) (sexpGuards s) (freshVars s) (hashcode s).
Definition set_intGuards (g : IntGuardsTy) (s : BcheckStateTy) : BcheckStateTy :=
  mkState (bb s) (balance s) g (sexpGuards s) (freshVars s) (hashcode s).
Definition set_sexpGuards (g : SEXPGuardsTy) (s : BcheckStateTy) : BcheckStateTy :=
  mkState (bb s) (balance s) (intGuards s) g (freshVars s) (hashcode s).
Definition set_freshVars (fv : FreshVarsTy) (s : BcheckStateTy) : BcheckStateTy :=
  mkState (bb s) (balance s) (intGuards s) (sexpGuards s) fv (hashcode s).
Definition set_depth (d : Z) (b : BalanceStateTy) : BalanceStateTy :=
  mkBalance d (count b) (savedDepth b) (countState b) (counterVar b) (topSaveVar b) (bconfused b).

(** [UNPROTECT(intguard ? 3 : 4)] *)
Definition handleUnprotectWithIntGuard (in_ : Value) (s : BcheckStateTy)
    : St Engine BcheckStateTy :=
  match in_ with
  | CallInst _ (Some targetFunc) (SelectInst _ (CmpInst _ true trueWhenEqual op0 op1)
                                    (ConstantInt trueValue) (ConstantInt falseValue) :: _) =>
      if negb (bool_decide (faddr targetFunc = unprotectFunction dom)) then ret s
      else
        match
          match op0, op1 with
          | LoadInst _ guardValue, ConstantInt constOp => Some (guardValue, constOp)
          | ConstantInt constOp, LoadInst _ guardValue => Some (guardValue, constOp)
          | _, _ => None
          end
        with
        | Some (guardValue, constOp) =>
            if negb (bool_decide (constOp = 0%N)) then ret s
            else
              match asAlloca guardValue with
              | Some var =>
                  if negb (intGuards_isGuard dom var) then ret s
                  else
                    let gs := getGuardState (intGuards s) var in
                    if bool_decide (gs = IGS_UNKNOWN) then ret s
                    else
                      let arg :=
                        if (bool_decide (gs = IGS_ZERO) && trueWhenEqual) ||
                           (bool_decide (gs = IGS_NONZERO) && negb trueWhenEqual)
                        then trueValue else falseValue in
                      let b := balance s in
                      let b := set_depth (to_int (depth b - to_int (Z.of_N arg))) b in
                      when (negb (bool_decide (countState b = CS_DIFF)) &&
                            bool_decide (depth b < 0))
                        (modify (on_emsg (msg_info "has negative depth" (Some in_)));;
                         e ← gets (fun e => e);
                         modify (set_erefinable (uint_incr (erefinable e))));;
                      ret (set_balance b s)
              | None => ret s
              end
        | None => ret s
        end
  | _ => ret s
  end.

Section Run.

Variable intGuardsEnabled sexpGuardsEnabled : bool.
Variable balanceCheckingEnabled freshVarsCheckingEnabled : bool.

Definition restartable : bool :=
  (negb intGuardsEnabled && negb (avoidIntGuardsFor fn)) ||
  (negb sexpGuardsEnabled && negb (avoidSEXPGuardsFor fn)).

(** [if (restartable && refinableInfos > 0) { clearStates(); return; }] *)
Definition restartCheck : St Engine unit :=
  e ← gets (fun e => e);
  if restartable && bool_decide (0 < erefinable e)%N then
    modify clearStates;; return_
  else ret tt.

Definition runFreshVars (in_ : Value) (s : BcheckStateTy) : St Engine BcheckStateTy :=
  e ← gets (fun e => e);
  match
    FreshVars.handleFreshVarsForNonTerminator ir cm cprotect liveVars MAX_PSTACK_SIZE
      aliasChainBound in_
      (if sexpGuardsEnabled then Some (sexpGuards s) else None)
      (if balanceCheckingEnabled then Some (balance s) else None)
      (mkRefs (freshVars s) (emsg e) (erefinable e) (cache e))
  with
  | (_, Aborted) => abort
  | (mkRefs fv m n c, _) => modify (set_refs m c n);; ret (set_freshVars fv s)
  end.

Definition runBalance (in_ : Value) (s : BcheckStateTy) : St Engine BcheckStateTy :=
  e ← gets (fun e => e);
  let '(b, m, n) := handleBalanceForNonTerminator dom in_ (balance s) (emsg e) (erefinable e) in
  modify (set_refs m (cache e) n);; ret (set_balance b s).

(** The body of the loop over the instructions of a block. *)
Definition visit (in_ : Value) (s : BcheckStateTy) : St Engine BcheckStateTy :=
  modify (log_visit in_);;
  s ← (if freshVarsCheckingEnabled then
         s ← runFreshVars in_ s; restartCheck;; ret s
       else ret s);
  s ← (if balanceCheckingEnabled then
         s ← runBalance in_ s; restartCheck;; ret s
       else ret s);
  s ← (if intGuardsEnabled then
         let s := set_intGuards (intGuards_handleForNonTerminator dom in_ (intGuards s)) s in
         restartCheck;;
         if balanceCheckingEnabled then
           s ← handleUnprotectWithIntGuard in_ s; restartCheck;; ret s
         else ret s
       else ret s);
  if sexpGuardsEnabled then
    let s := set_sexpGuards (sexpGuards_handleForNonTerminator dom in_ (sexpGuards s)) s in
    restartCheck;; ret s
  else ret s.

Fixpoint visitAll (ins : list Value) (s : BcheckStateTy) : St Engine BcheckStateTy :=
  match ins with
  | [] => ret s
  | in_ :: rest => s ← visit in_ s; visitAll rest s
  end.

(** [state = s.clone(succ); state->add()] *)
Definition addState (s : BcheckStateTy) : St Engine unit :=
  modify (fun e => let '(e, p) := new s e in (add p e).1).

Definition addSuccessors (t : Value) (s : BcheckStateTy) : St Engine unit :=
  match t with
  | TerminatorInst _ succs => forEach succs (fun succ => addState (clone s succ))
  | _ => ret tt
  end.

Definition addProposed (h : Handled) : St Engine unit :=
  forEach (proposed h) (fun s => addState (clone s (bb s))).

(** The terminator of the block: the balance, the SEXP guards and the
    integer guards may each take care of the successors; otherwise "add
    conservatively all cfg successors". *)
Definition visitTerminator (t : Value) (s : BcheckStateTy) : St Engine unit :=
  let s := if freshVarsCheckingEnabled
           then set_freshVars (FreshVars.handleFreshVarsForTerminator t (freshVars s)) s
           else s in
  hb ← (if balanceCheckingEnabled then
          e ← gets (fun e => e);
          let '(h, m, n) := handleBalanceForTerminator dom t s (emsg e) (erefinable e) in
          modify (set_refs m (cache e) n);; addProposed h;; ret h
        else ret (mkHandled false s []));
  if handled hb then ret tt
  else
    let s := updated hb in
    hs ← (if sexpGuardsEnabled then
            let h := sexpGuards_handleForTerminator dom t s in addProposed h;; ret h
          else ret (mkHandled false s []));
    if handled hs then ret tt
    else
      let s := updated hs in
      hi ← (if intGuardsEnabled then
              let h := intGuards_handleForTerminator dom t s in addProposed h;; ret h
            else ret (mkHandled false s []));
      if handled hi then ret tt
      else addSuccessors t (updated hi).

(** One round of [while(!workList.empty())]: [Next] goes on with the
    loop, [Returned] leaves [checkFunction]. *)
Definition iteration : St Engine unit :=
  restartCheck;;
  e ← gets (fun e => e);
  match workList e with
  | [] => ret tt
  | top :: rest =>
      match heap e !! top with
      | None => abort
      | Some s =>
          modify (on_workList (fun _ => rest));;
          if errorBasicBlocks fn (bb s) then ret tt
          else if bool_decide (MAX_STATES < N.of_nat (length (doneSet e)))%N then
            modify (log_error ("ERROR: too many states (abstraction error?) in function "
                               +:+ funName fn));;
            modify clearStates;;
            return_
          else
            s ← visitAll (instructions fn (bb s)) s;
            match last (instructions fn (bb s)) with
            | Some t => visitTerminator t s
            | None => abort
            end
      end
  end.

(** The loop, for at most [fuel] rounds; [None] when they do not suffice. *)
Fixpoint workLoop (fuel : nat) (e : Engine) : option (Engine * Outcome unit) :=
  match workList e with
  | [] => Some (e, Next tt)
  | _ :: _ =>
      match fuel with
      | O => None
      | S fuel' =>
          match iteration e with
          | (e', Next _) => workLoop fuel' e'
          | res => Some res
          end
      end
  end.

(** [checkFunction(intGuardsEnabled, sexpGuardsEnabled, balanceCheckingEnabled,
    freshVarsCheckingEnabled, refinableInfos)] *)
Definition checkFunction_run (fuel : nat) (e : Engine) : option (Engine * Outcome unit) :=
  let e := set_erefinable 0 e in
  let e := clearStates e in
  let '(e, initState) := new (initialState (entryBlock fn)) e in
  let e := (add initState e).1 in
  workLoop fuel e.

End Run.

(** "handles restarts": [checkFunction(balanceCheckingEnabled,
    freshVarsCheckingEnabled, checksName)].  The loop [for(;;)] is given
    [runs] rounds and every run [fuel] rounds of its own loop; the guard
    settings of the runs made are recorded, the first run first. *)
Fixpoint restartLoop (runs fuel : nat) (balanceCheckingEnabled freshVarsCheckingEnabled : bool)
    (intGuardsEnabled sexpGuardsEnabled : bool) (e : Engine) : Checked :=
  match runs with
  | O => Unfinished
  | S runs' =>
      match checkFunction_run intGuardsEnabled sexpGuardsEnabled balanceCheckingEnabled
              freshVarsCheckingEnabled fuel e with
      | None => Unfinished
      | Some (e, Aborted) => Crashed e
      | Some (e, _) =>
          if restartable intGuardsEnabled sexpGuardsEnabled && bool_decide (0 < erefinable e)%N then
            (* retry with more precise checking *)
            let e := on_emsg msg_clear e in
            let '(ig, sg) :=
              if negb intGuardsEnabled && negb (avoidIntGuardsFor fn)
              then (true, sexpGuardsEnabled)
              else if negb sexpGuardsEnabled && negb (avoidSEXPGuardsFor fn)
              then (intGuardsEnabled, true)
              else (intGuardsEnabled, sexpGuardsEnabled) in
            match restartLoop runs' fuel balanceCheckingEnabled freshVarsCheckingEnabled ig sg e with
            | Done e' trace => Done e' ((intGuardsEnabled, sexpGuardsEnabled) :: trace)
            | other => other
            end
          else Done e [(intGuardsEnabled, sexpGuardsEnabled)]
      end
  end.

Definition checkFunction (runs fuel : nat) (balanceCheckingEnabled freshVarsCheckingEnabled : bool)
    (e : Engine) : Checked :=
  restartLoop runs fuel balanceCheckingEnabled freshVarsCheckingEnabled false false
    (on_emsg msg_newFunction e).

(** The escalation in the words of the specification, "(baseline) ->
    enable integer guards -> enable SEXP guards", a function on an avoid
    list skipping the corresponding step: the settings of the runs that
    can follow a run made with the given ones, that run first. *)
Definition nextPrecision (intGuardsEnabled sexpGuardsEnabled : bool) : bool * bool :=
  if negb intGuardsEnabled && negb (avoidIntGuardsFor fn) then (true, sexpGuardsEnabled)
  else (intGuardsEnabled, true).

Definition escalationFrom (intGuardsEnabled sexpGuardsEnabled : bool) : list (bool * bool) :=
  (intGuardsEnabled, sexpGuardsEnabled) ::
  if negb intGuardsEnabled && negb (avoidIntGuardsFor fn) then
    (true, sexpGuardsEnabled) ::
    (if negb sexpGuardsEnabled && negb (avoidSEXPGuardsFor fn) then [(true, true)] else [])
  else if negb sexpGuardsEnabled && negb (avoidSEXPGuardsFor fn) then [(intGuardsEnabled, true)]
  else [].

Definition escalation : list (bool * bool) := escalationFrom false false.

(** How the loop of the restarts goes on after a run that did not fail
    an assertion. *)
Definition afterRun (runs fuel : nat) (bal fresh ig sg : bool) (e1 : Engine) : Checked :=
  if restartable ig sg && bool_decide (0 < erefinable e1)%N then
    match restartLoop runs fuel bal fresh (nextPrecision ig sg).1 (nextPrecision ig sg).2
            (on_emsg msg_clear e1) with
    | Done e' trace => Done e' ((ig, sg) :: trace)
    | other => other
    end
  else Done e1 [(ig, sg)].

End Checker.
End Bcheck.

(* ================================================================== *)
(** * Multiple allocating arguments (maacheck.cpp) *)
(* ================================================================== *)

Module Maacheck.

Inductive ArgExpKind :=
| AK_NOALLOC        (* no allocation *)
| AK_ALLOCATING     (* allocation, but not returning a fresh object *)
| AK_FRESH.         (* allocation and possibly returning a fresh object *)

Definition kindValue (k : ArgExpKind) : nat :=
  match k with AK_NOALLOC => 0 | AK_ALLOCATING => 1 | AK_FRESH => 2 end.

(** A call of the call-graph closure: the instruction and its target. *)
#[global] Instance ArgExpKind_eq_dec : EqDecision ArgExpKind.
Proof. solve_decision. Defined.

Record CallInfo := mkCallInfo {
  instruction : Value;
  target : Function
}.

(** [getOperand(u)], [u < getNumOperands()]: the arguments of a call,
    then the called function. *)
Definition operandsOf (inst : Value) : list Value :=
  match inst with
  | CallInst _ callee args =>
      args ++ match callee with Some f => [FunctionRef f] | None => [] end
  | _ => []
  end.

Section Scanner.

(** [isAllocatingFunction(fun, functionsMap, gcFunctionIndex)] is answered
    by the call-graph closure (cgclosure.h, allocators.h). *)
Variable isAllocatingFunction : Function -> bool.
Variable possibleAllocators : gset positive.     (* FunctionsSetTy, by address *)
Variable sourceLocation : Value -> string.
Variable nameOf : Function -> string.            (* funName *)

Definition classifyArgumentExpression (arg : Value) : ArgExpKind :=
  match arg with
  | CallInst _ (Some f) _ =>
      if negb (isAllocatingFunction f) then AK_NOALLOC
      else if bool_decide (faddr f ∈ possibleAllocators) then AK_FRESH
      else AK_ALLOCATING
  | _ => AK_NOALLOC
  end.

(** The kind [k] computed for one operand in the loop of [main]. *)
Definition operandKind (o : Value) : ArgExpKind :=
  match o with
  | PHINode _ incoming =>
      foldl (fun k v =>
               let cur := classifyArgumentExpression v in
               if bool_decide (kindValue k < kindValue cur)%nat then cur else k)
            AK_NOALLOC incoming
  | _ => classifyArgumentExpression o
  end.

(** [(nFreshObjects, nAllocatingArgs)] after the loop over the operands. *)
Definition countOperands (inst : Value) : nat * nat :=
  foldl (fun '(nFreshObjects, nAllocatingArgs) o =>
           let k := operandKind o in
           let nAllocatingArgs :=
             if bool_decide (kindValue AK_ALLOCATING <= kindValue k)%nat
             then S nAllocatingArgs else nAllocatingArgs in
           let nFreshObjects :=
             if bool_decide (kindValue AK_FRESH <= kindValue k)%nat
             then S nFreshObjects else nFreshObjects in
           (nFreshObjects, nAllocatingArgs))
        (O, O) (operandsOf inst).

Definition suspicious (inst : Value) : bool :=
  let '(nFreshObjects, nAllocatingArgs) := countOperands inst in
  bool_decide (2 <= nAllocatingArgs)%nat && bool_decide (1 <= nFreshObjects)%nat.

(** The warnings written for the calls of one function of interest. *)
Definition scanCalls (caller : Function) (callInfos : list CallInfo) : list string :=
  flat_map (fun cinfo =>
    if suspicious (instruction cinfo) then
      ["WARNING Suspicious call (two or more unprotected arguments) to " +:+
       nameOf (target cinfo) +:+ " at " +:+ nameOf caller +:+ " " +:+
       sourceLocation (instruction cinfo)]
    else []) callInfos.

(** One step of the loop over the incoming values of a phi node. *)
Definition maxKind (k : ArgExpKind) (v : Value) : ArgExpKind :=
  let cur := classifyArgumentExpression v in
  if bool_decide (kindValue k < kindValue cur)%nat then cur else k.

(** The classification in the words of the specification. *)
Inductive expressionKind : Value -> ArgExpKind -> Prop :=
| kind_fresh a f args :
    isAllocatingFunction f = true -> faddr f ∈ possibleAllocators ->
    expressionKind (CallInst a (Some f) args) AK_FRESH
| kind_allocating a f args :
    isAllocatingFunction f = true -> faddr f ∉ possibleAllocators ->
    expressionKind (CallInst a (Some f) args) AK_ALLOCATING
| kind_noalloc v :
    (forall a f args, v = CallInst a (Some f) args -> isAllocatingFunction f = false) ->
    expressionKind v AK_NOALLOC.

(** An operand's class: the maximum over the incoming values at a phi
    node, the class of the expression otherwise. *)
Inductive classified : Value -> ArgExpKind -> Prop :=
| classified_phi a incoming k :
    (forall v, v ∈ incoming -> exists kv, expressionKind v kv /\ (kindValue kv <= kindValue k)%nat) ->
    (k = AK_NOALLOC \/ exists v, v ∈ incoming /\ expressionKind v k) ->
    classified (PHINode a incoming) k
| classified_other o k :
    (forall a incoming, o <> PHINode a incoming) ->
    expressionKind o k ->
    classified o k.

End Scanner.
End Maacheck.

(* ================================================================== *)
(** * Relations between the state before and after a computation *)
(* ================================================================== *)

(** The state a computation leaves is related to the one it starts from,
    however the computation ends. *)
Definition follows {S : Type} (R : S -> S -> Prop) {A} (m : St S A) (r : S) : Prop :=
  R r (m r).1.

(** The state a computation leaves when it goes on to the next statement
    is related to the one it starts from. *)
Definition followsNext {S : Type} (R : S -> S -> Prop) {A} (m : St S A) (r : S) : Prop :=
  forall r' a, m r = (r', Next a) -> R r r'.

(** The protect stack stays within its bound. *)
Definition bounded (MAX_PSTACK_SIZE : nat) (r r' : Refs) : Prop :=
  (length (pstack (freshVars r)) <= MAX_PSTACK_SIZE)%nat ->
  (length (pstack (freshVars r')) <= MAX_PSTACK_SIZE)%nat.

Definition legacy_bounded (MAX_PSTACK_SIZE : nat) (r r' : Legacy.Refs) : Prop :=
  (length (Legacy.pstack (Legacy.freshVars r)) <= MAX_PSTACK_SIZE)%nat ->
  (length (Legacy.pstack (Legacy.freshVars r')) <= MAX_PSTACK_SIZE)%nat.

(** The protect stack and the flag are left as they are. *)
Definition sameStack (r r' : Refs) : Prop :=
  pstack (freshVars r') = pstack (freshVars r) /\
  confused (freshVars r') = confused (freshVars r).

(** Records are added to the buffer, never taken from it. *)
Definition grows (r r' : Refs) : Prop :=
  forall li, li ∈ lineBuffer (msg r) -> li ∈ lineBuffer (msg r').

(** What [pruneOne] may do to the state: erase entries, and flush the
    records of variables that will be used and will not be killed. *)
Definition pruned (lv : VarsLiveness) (r r' : Refs) : Prop :=
  (forall u, cm_find u (condMsgs (freshVars r')) = None \/
             cm_find u (condMsgs (freshVars r')) = cm_find u (condMsgs (freshVars r))) /\
  (forall u, vars (freshVars r') !! u = None \/
             vars (freshVars r') !! u = vars (freshVars r) !! u) /\
  grows r r' /\
  emitsOnly (fun li => exists w, isPossiblyUsed lv w = true /\ isPossiblyKilled lv w = false /\
                                 li ∈ pendingOf w (freshVars r)) (msg r) (msg r').

(** No record becomes pending, and nothing is emitted but notices that a
    variable is ignored. *)
Definition storing (ir : IRInfo) (r r' : Refs) : Prop :=
  condMsgs (freshVars r') = condMsgs (freshVars r) /\
  emitsOnly (isIgnoringNotice ir) (msg r) (msg r').

(** The records pending for [v] are those that were, and records issued
    at the instruction [in_]. *)
Definition issuingAt (in_ : Value) (v : AllocaInst) (r r' : Refs) : Prop :=
  forall li, li ∈ pendingOf v (freshVars r') ->
    li ∈ pendingOf v (freshVars r) \/ where_ li = Some (addressOf in_).

(** The visited set, the work list and the states are as they were. *)
Definition sameStates (e e' : Bcheck.Engine) : Prop :=
  Bcheck.doneSet e' = Bcheck.doneSet e /\
  Bcheck.workList e' = Bcheck.workList e /\
  Bcheck.heap e' = Bcheck.heap e.

(** States were added: as many to the visited set as to the work list. *)
Definition added (e e' : Bcheck.Engine) : Prop :=
  exists k : nat,
    length (Bcheck.doneSet e') = (length (Bcheck.doneSet e) + k)%nat /\
    length (Bcheck.workList e') = (length (Bcheck.workList e) + k)%nat.

(** What is left to do in a run: the states the visited set may still
    take (then come the states waiting on the work list). *)
Definition room (MAX_STATES : N) (e : Bcheck.Engine) : nat :=
  N.to_nat (MAX_STATES + 1) - length (Bcheck.doneSet e).

(** The states allocated are those of the visited set, the work list
    holds states of the visited set, and the addresses in use lie below
    the next one handed out. *)
Definition owned (e : Bcheck.Engine) : Prop :=
  (forall p, is_Some (Bcheck.heap e !! p) <-> p ∈ Bcheck.doneSet e) /\
  (forall p, p ∈ Bcheck.workList e -> p ∈ Bcheck.doneSet e) /\
  (forall p, p ∈ Bcheck.doneSet e -> (p < Bcheck.nextAddr e)%positive).

Definition keepsOwned (e e' : Bcheck.Engine) : Prop := owned e -> owned e'.

(* ================================================================== *)
(** * Concrete inputs *)
(* ================================================================== *)

(** A small program and its summaries, on which the statements below are
    evaluated. *)
Module Samples.

Definition fn_protect := mkFunction "Rf_protect" 101 [true].
Definition fn_unprotect := mkFunction "Rf_unprotect" 102 [false].
Definition fn_allocVector := mkFunction "Rf_allocVector" 103 [false; false].
Definition fn_cons := mkFunction "Rf_cons" 104 [true; true].
Definition fn_length := mkFunction "Rf_length" 105 [true].

Definition x : AllocaInst := 11%positive.
Definition y : AllocaInst := 12%positive.

(** [x = allocVector(19, 2)] *)
Definition alloc_x := CallInst 1 (Some fn_allocVector) [ConstantInt 19; ConstantInt 2].
Definition store_x := StoreInst 2 alloc_x (Alloca x).
(** [y = allocVector(19, 2)] *)
Definition alloc_y := CallInst 3 (Some fn_allocVector) [ConstantInt 19; ConstantInt 2].
Definition store_y := StoreInst 4 alloc_y (Alloca y).
(** [length(x)] *)
Definition load_x := LoadInst 5 (Alloca x).
Definition length_x := CallInst 6 (Some fn_length) [load_x].
(** [PROTECT(x)], [UNPROTECT(k)] *)
Definition load_x' := LoadInst 7 (Alloca x).
Definition protect_x := CallInst 8 (Some fn_protect) [load_x'].
Definition unprotect (k : N) := CallInst 9 (Some fn_unprotect) [ConstantInt k].
(** [cons(allocVector(19, 2), allocVector(19, 2))] *)
Definition cons_allocs := CallInst 10 (Some fn_cons) [alloc_x; alloc_y].

Definition ir : IRInfo := {|
  users := fun v =>
    match addressOf v with
    | AtInst 1%positive => [store_x]
    | AtInst 3%positive => [store_y]
    | AtInst 5%positive => [length_x]
    | AtInst 7%positive => [protect_x]
    | AtAlloca 11%positive => [store_x; load_x; load_x']
    | AtAlloca 12%positive => [store_y]
    | _ => []
    end;
  isSEXP := fun _ => true;
  varName := fun v => "v" +:+ pretty (Npos v);
  hasEmptyName := fun _ => false;
  isSetterFunction := fun _ => false;
  isStoreToStructureElement := fun _ => None;
  aliasesVariable := fun _ _ => None;
  findOnlyStoreTo := fun _ => None
|}.

Definition allocates (f : Function) : bool :=
  bool_decide (fname f = "Rf_allocVector") || bool_decide (fname f = "Rf_cons").

Definition cm : CalledModuleTy := {|
  getCalledFunction := fun v _ =>
    match v with
    | CallInst _ (Some f) _ => Some (mkCalled f (fname f))
    | _ => None
    end;
  isCAllocating := fun t => allocates (fun_ t);
  isPossibleCAllocator := fun t => allocates (fun_ t);
  protectsArguments := fun _ => false;
  ppStackTopVariable := 900
|}.

Definition cprotect : CProtectInfo :=
  mkCProtect (fun _ => false) (fun _ _ => false) (fun _ => false) (fun _ _ => false).

(** Every variable may be used and may be killed after every instruction. *)
Definition liveVars : LiveVarsTy :=
  fun _ => Some (mkLiveness (fun _ => true) (fun _ => true) (fun _ => false)).

(** After every instruction, [x] is used again before it is killed. *)
Definition liveVars_used : LiveVarsTy :=
  fun _ => Some (mkLiveness (fun _ => true) (fun _ => false) (fun _ => false)).

(** After every instruction, no variable is used any more. *)
Definition liveVars_dead : LiveVarsTy :=
  fun _ => Some (mkLiveness (fun _ => false) (fun _ => true) (fun _ => false)).

Definition noMessages : LineMessenger := mkLineMessenger [] [].

Definition pending_x : LineInfoTy :=
  mkLineInfo "[UP] unprotected variable v11 while calling allocating function Rf_allocVector"
             (Some (AtInst 3)).

Definition pending_y : LineInfoTy :=
  mkLineInfo "[UP] unprotected variable v12 while calling allocating function Rf_allocVector"
             (Some (AtInst 1)).

(** The state at function entry. *)
Definition refs0 : Refs := mkRefs initialFreshVars noMessages 0 ∅.

(** [x] fresh and pushed once on a protect stack of two elements; a
    diagnostic pending for it. *)
Definition tracking (isConfused : bool) : Refs :=
  mkRefs (mkFreshVars {[x := 1]} [(x, [pending_x])] [None; Some x] isConfused)
         noMessages 0 ∅.

(** The same in the older copy, which has no [confused] flag. *)
Definition legacy_tracking : Legacy.Refs :=
  Legacy.mkRefs (Legacy.mkFreshVars {[x := 1]} [] [Some x; None]) noMessages 0.

(** ** The engine *)

(** The combiner of common.h is not among the sources.  What is proved
    about hash codes is proved for any combiner; where a hash code is
    computed, it is computed with the combiner of Boost on 64-bit words,
    [seed ^= hash(v) + 0x9e3779b9 + (seed << 6) + (seed >> 2)], the scalar
    hash being the identity on integers and addresses, the interned
    records lying at the addresses of [internTable]. *)
Definition internTable : list (LineInfoTy * N) :=
  [(pending_x, 4096%N); (pending_y, 4160%N)].

Definition scalar_hash (a : Bcheck.HashArg) : N :=
  match a with
  | Bcheck.HPointer p => p
  | Bcheck.HInt z => to_uint64 z
  | Bcheck.HSize n => n
  | Bcheck.HChar z => to_uint64 z
  | Bcheck.HString s => N.of_nat (String.length s)
  | Bcheck.HLine l =>
      match list_find (fun e => bool_decide (e.1 = l) = true) internTable with
      | Some (_, (_, address)) => address
      | None => 0%N
      end
  end.

Definition hash_combine (seed : N) (a : Bcheck.HashArg) : N :=
  N.lxor seed
    ((scalar_hash a + 2654435769 + N.shiftl seed 6 + N.shiftr seed 2) mod 2 ^ 64)%N.

(** Transfer functions that leave the balance and the guards alone and
    never take care of the successors. *)
Definition dom : Bcheck.Domains := {|
  Bcheck.handleBalanceForNonTerminator := fun _ b m n => (b, m, n);
  Bcheck.handleBalanceForTerminator := fun _ s m n => (Bcheck.mkHandled false s [], m, n);
  Bcheck.intGuards_handleForNonTerminator := fun _ g => g;
  Bcheck.intGuards_handleForTerminator := fun _ s => Bcheck.mkHandled false s [];
  Bcheck.intGuards_isGuard := fun _ => false;
  Bcheck.sexpGuards_handleForNonTerminator := fun _ g => g;
  Bcheck.sexpGuards_handleForTerminator := fun _ s => Bcheck.mkHandled false s [];
  Bcheck.unprotectFunction := 102%positive
|}.

(** A function of three blocks in a row,
    [x = allocVector(..); y = allocVector(..)], then [length(x)], then a
    block that [isError] puts on an error path. *)
Definition chain (isError : BasicBlock -> bool) : Bcheck.FunctionIR := {|
  Bcheck.funName := "chain";
  Bcheck.entryBlock := 1%positive;
  Bcheck.instructions := fun b =>
    match b with
    | 1%positive => [alloc_x; store_x; alloc_y; store_y; TerminatorInst 20 [2%positive]]
    | 2%positive => [load_x; length_x; TerminatorInst 21 [3%positive]]
    | _ => [TerminatorInst 22 []]
    end;
  Bcheck.avoidIntGuardsFor := false;
  Bcheck.avoidSEXPGuardsFor := false;
  Bcheck.errorBasicBlocks := isError
|}.

Definition engine0 : Bcheck.Engine :=
  Bcheck.mkEngine ∅ 1%positive [] [] 0%N noMessages ∅ 0%N [] [].

(** A state at the second block of [chain], and the same state on a
    confused trace. *)
Definition state_at (b : BasicBlock) (fv : FreshVarsTy) : Bcheck.BcheckStateTy :=
  Bcheck.mkState b initialBalance ∅ ∅ fv 0.

(** Two fresh-variable states with the same pending messages, recorded
    for [x] first and for [y] first. *)
Definition pending_xy : FreshVarsTy :=
  mkFreshVars {[x := 0; y := 0]} (cm_insert y [pending_y] (cm_insert x [pending_x] [])) [] false.
Definition pending_yx : FreshVarsTy :=
  mkFreshVars {[x := 0; y := 0]} (cm_insert x [pending_x] (cm_insert y [pending_y] [])) [] false.

(** The engine after [s] was added to the empty visited set, and after a
    state was allocated for a proposed successor (at address 2). *)
Definition visited (s : Bcheck.BcheckStateTy) : Bcheck.Engine :=
  (Bcheck.addState hash_combine s engine0).1.
Definition proposedIn (e : Bcheck.Engine) (s : Bcheck.BcheckStateTy) : Bcheck.Engine :=
  (Bcheck.new s e).1.

(** The engine when the check of [chain] enters its loop, and one round
    of the loop with neither guards nor checks enabled. *)
Definition entered : Bcheck.Engine := visited (Bcheck.initialState 1%positive).

Definition round (MAX_STATES : N) (isError : BasicBlock -> bool) (e : Bcheck.Engine)
    : Bcheck.Engine :=
  (Bcheck.iteration hash_combine MAX_STATES 4 7 ir cm cprotect liveVars dom (chain isError)
     false false false false e).1.

Definition isThird (b : BasicBlock) : bool := bool_decide (b = 3%positive).

End Samples.

(* ================================================================== *)
(** * What every transfer of the fresh variables keeps *)
(* ================================================================== *)

(** Every protect count is at least zero. *)
Definition nonnegative (vs : gmap AllocaInst Z) : Prop :=
  forall v n, vs !! v = Some n -> 0 <= n.

(** The findings that are emitted where the confused flag is set. *)
Definition restoreHigherText : string :=
  MSG_PFX +:+ "attempt to restore protection stack to higher depth than it has now, "
  +:+ CONFUSION_DISCLAIMER.

Definition manipulatesStackTopText : string :=
  MSG_PFX +:+ "manipulates PPStackTop directly, " +:+ CONFUSION_DISCLAIMER.

Definition confusionNotice (li : LineInfoTy) : Prop :=
  message li = tooDeepText \/
  (exists k size, message li = beyondStackText k size) \/
  message li = unsupportedUnprotectText \/
  message li = restoreHigherText \/
  message li = manipulatesStackTopText.

(** The buffer of messages only grows, protect counts stay non-negative,
    the confused flag is never reset and is not set without one of the
    notices being in the buffer, and the cache of checked variables keeps
    its answers. *)
Definition steady (r r' : Refs) : Prop :=
  grows r r' /\
  (nonnegative (vars (freshVars r)) -> nonnegative (vars (freshVars r'))) /\
  (confused (freshVars r) = true -> confused (freshVars r') = true) /\
  (confused (freshVars r') = true ->
     confused (freshVars r) = true \/
     exists li, li ∈ lineBuffer (msg r') /\ confusionNotice li) /\
  (forall v b, checkedVarsCache r !! v = Some b -> checkedVarsCache r' !! v = Some b).

(** A transfer that leaves the protect stack, the flag and the cache as
    they are, and the fresh variables too but for [var], which it may
    drop. *)
Definition dropping (var : AllocaInst) (r r' : Refs) : Prop :=
  pstack (freshVars r') = pstack (freshVars r) /\
  confused (freshVars r') = confused (freshVars r) /\
  checkedVarsCache r' = checkedVarsCache r /\
  forall u, vars (freshVars r') !! u = vars (freshVars r) !! u \/
            (vars (freshVars r') !! u = None /\ u = var).

(** A transfer that leaves the protect stack and the flag as they are,
    and of the fresh variables and their pending messages changes only
    what belongs to [var], which it may drop from the fresh variables or
    make fresh with the protect count zero. *)
Definition overwriting (var : AllocaInst) (r r' : Refs) : Prop :=
  pstack (freshVars r') = pstack (freshVars r) /\
  confused (freshVars r') = confused (freshVars r) /\
  (forall u, u <> var ->
     vars (freshVars r') !! u = vars (freshVars r) !! u /\
     cm_find u (condMsgs (freshVars r')) = cm_find u (condMsgs (freshVars r))) /\
  (vars (freshVars r') !! var = None \/
   vars (freshVars r') !! var = Some 0 \/
   vars (freshVars r') !! var = vars (freshVars r) !! var).

(** Messages and pending messages are added, none is taken away. *)
Definition accumulating (r r' : Refs) : Prop :=
  grows r r' /\
  forall v li, li ∈ pendingOf v (freshVars r) -> li ∈ pendingOf v (freshVars r').

(** The finding about a fresh variable at the call of an allocating
    function. *)
Definition unprotectedVariableText (name tgt : string) : string :=
  MSG_PFX +:+ "unprotected variable " +:+ name +:+
  " while calling allocating function " +:+ tgt.

(** The visited set holds no address twice and only addresses handed
    out already; every state in it carries the hash code of its contents;
    and no state of the set has the hash code of an earlier one and
    compares equal to it. *)
Definition interned (hash_combine : N -> Bcheck.HashArg -> N) (e : Bcheck.Engine) : Prop :=
  NoDup (Bcheck.doneSet e) /\
  (forall p, p ∈ Bcheck.doneSet e -> (p < Bcheck.nextAddr e)%positive) /\
  (forall p s, p ∈ Bcheck.doneSet e -> Bcheck.heap e !! p = Some s ->
     Bcheck.hashcode s = foldl hash_combine 0%N (Bcheck.hashArgs s)) /\
  (forall (i j : nat) p q s t, (i < j)%nat ->
     Bcheck.doneSet e !! i = Some p -> Bcheck.doneSet e !! j = Some q ->
     Bcheck.heap e !! p = Some s -> Bcheck.heap e !! q = Some t ->
     Bcheck.hashcode t = Bcheck.hashcode s -> Bcheck.fields_equal t s = false).

Definition keepsInterned (hash_combine : N -> Bcheck.HashArg -> N) (e e' : Bcheck.Engine) : Prop :=
  interned hash_combine e -> interned hash_combine e'.

(** An instruction of a basic block that is not an error block. *)
Definition ofCheckedBlocks (fn : Bcheck.FunctionIR) (a : Address) : Prop :=
  exists b in_, Bcheck.errorBasicBlocks fn b = false /\
                in_ ∈ Bcheck.instructions fn b /\ a = addressOf in_.

(** The instructions visited since are instructions of basic blocks that
    are not error blocks. *)
Definition visitsChecked (fn : Bcheck.FunctionIR) (e e' : Bcheck.Engine) : Prop :=
  forall a, a ∈ Bcheck.visiting e' -> a ∈ Bcheck.visiting e \/ ofCheckedBlocks fn a.

(** The fresh variables and their protect counts are as they were. *)
Definition keepsVars (r r' : Refs) : Prop :=
  vars (freshVars r') = vars (freshVars r).

(** The sample program with [x] stored into a global variable:
    [global = x]. *)
Definition store_global : Value := StoreInst 40 Samples.load_x (GlobalVariable 901).

Definition ir_store_global : IRInfo := {|
  users := fun v =>
    match addressOf v with
    | AtInst 5%positive => [store_global]
    | _ => users Samples.ir v
    end;
  isSEXP := isSEXP Samples.ir;
  varName := varName Samples.ir;
  hasEmptyName := hasEmptyName Samples.ir;
  isSetterFunction := isSetterFunction Samples.ir;
  isStoreToStructureElement := isStoreToStructureElement Samples.ir;
  aliasesVariable := aliasesVariable Samples.ir;
  findOnlyStoreTo := findOnlyStoreTo Samples.ir
|}.

(* ================================================================== *)
(** * The older copy of freshvars.cpp: calls, loads and stores *)
(* ================================================================== *)

(** The rest of the older copy: the part of [handleCall] that deals with
    the call of an allocating function, [handleLoad], [handleStore] and
    the transfer function made of the three.  The live variables of an
    instruction are a set of variables here. *)
Module LegacyTransfer.

Definition REPORT_FRESH_ARGUMENTS : bool := true.

Abbreviation LiveVarsTy := (Value -> option (gset AllocaInst)).   (* liveVars.find(in) *)

Definition set_condMsgs (f : ConditionalMessagesTy -> ConditionalMessagesTy)
    (r : Legacy.Refs) : Legacy.Refs :=
  Legacy.mkRefs
    (Legacy.mkFreshVars (Legacy.vars (Legacy.freshVars r)) (f (Legacy.condMsgs (Legacy.freshVars r)))
       (Legacy.pstack (Legacy.freshVars r)))
    (Legacy.msg r) (Legacy.refinableInfos r).

Definition on_msg (f : LineMessenger -> LineMessenger) (r : Legacy.Refs) : Legacy.Refs :=
  Legacy.mkRefs (Legacy.freshVars r) (f (Legacy.msg r)) (Legacy.refinableInfos r).

(** The records a variable has pending. *)
Definition pendingOf (var : AllocaInst) (r : Legacy.Refs) : DelayedLineMessenger :=
  default [] (cm_find var (Legacy.condMsgs (Legacy.freshVars r))).

Definition allocatingArgumentText (tgt src : string) : string :=
  "calling allocating function " +:+ tgt +:+ " with argument allocated using " +:+ src.

Definition unprotectedVariableText (name tgt : string) : string :=
  "unprotected variable " +:+ name +:+ " while calling allocating function " +:+ tgt.

Definition freshPointerText (tgt name nameSuffix : string) : string :=
  "calling allocating function " +:+ tgt +:+ " with a fresh pointer (" +:+ name +:+
  nameSuffix +:+ ")".

(** The loop over the users of a loaded fresh variable: a call of a setter
    function whose first argument is a variable that is not in [vars] ends
    the loop; a store whose value operand is (as written) the store itself,
    into something that is not a local slot, ends it and makes the variable
    non-fresh. *)
Fixpoint loadUsersErase (ir : IRInfo) (vs : gmap AllocaInst Z) (us : list Value) : bool :=
  match us with
  | [] => false
  | u :: us' =>
      match u with
      | CallInst _ callee args =>
          if match callee with
             | Some tgt =>
                 bool_decide (1 < length args)%nat && isSetterFunction ir tgt &&
                 match args !! 0%nat with
                 | Some a0 =>
                     match loadedVar a0 with
                     | Some firstArg => bool_decide (vs !! firstArg = None)
                     | None => false
                     end
                 | None => false
                 end
             | None => false
             end
          then false
          else loadUsersErase ir vs us'
      | StoreInst _ valueOp ptrOp =>
          if sameValue valueOp u && negb (bool_decide (is_Some (asAlloca ptrOp))) then true
          else loadUsersErase ir vs us'
      | _ => loadUsersErase ir vs us'
      end
  end.

(** The users of a stored allocator result: a call of a protect function
    or of [R_Reprotect] among them ends the handling of the store. *)
Definition storedValueProtected (us : list Value) : bool :=
  existsb (fun u =>
    match u with
    | CallInst _ (Some otherFun) _ =>
        bool_decide (fname otherFun = "Rf_protect") ||
        bool_decide (fname otherFun = "Rf_protectWithIndex") ||
        bool_decide (fname otherFun = "R_Reprotect")
    | _ => false
    end) us.

Section Transfer.

Variable ir : IRInfo.
Variable cm : CalledModuleTy.
Variable MAX_PSTACK_SIZE : nat.
Variable liveVars : LiveVarsTy.

Definition pruneOne (in_ : Value) (var : AllocaInst) : St Legacy.Refs unit :=
  match liveVars in_ with
  | None => abort
  | Some lvars =>
      if bool_decide (var ∉ lvars) then
        modify (Legacy.set_vars (delete var));;
        modify (set_condMsgs (cm_erase var))
      else ret tt
  end.

(** "remove entries and conditional messages for dead variables" *)
Definition pruneFreshVars (in_ : Value) : St Legacy.Refs unit :=
  r ← gets (fun r => r);
  forEach (ordered (Legacy.vars (Legacy.freshVars r))).*1 (pruneOne in_).

Definition checkAllocatingArguments (in_ : Value) (tgt : CalledFunctionTy)
    (args : list Value) (sexpGuards : option SEXPGuardsTy) : St Legacy.Refs unit :=
  when (REPORT_FRESH_ARGUMENTS && negb (protectsArguments cm tgt))
    (forEach args (fun arg =>
       match getCalledFunction cm arg sexpGuards with
       | None => ret tt
       | Some src =>
           if negb (isPossibleCAllocator cm src) then ret tt
           else
             modify (Legacy.info (allocatingArgumentText (calledName tgt) (calledName src))
                       (Some in_));;
             modify Legacy.incr_refinableInfos
       end)).

(** "prepare a conditional message" *)
Definition addConditionalMessage (in_ : Value) (var : AllocaInst) (message : string)
    : St Legacy.Refs unit :=
  r ← gets (fun r => r);
  match cm_find var (Legacy.condMsgs (Legacy.freshVars r)) with
  | None => modify (set_condMsgs (cm_insert var (delayed_info message (Some in_) [])))
  | Some dmsg => modify (set_condMsgs (cm_set var (delayed_info message (Some in_) dmsg)))
  end.

(** The loop over the fresh variables at the call of an allocating
    function: a variable with a positive protect count ends it with
    [return]. *)
Definition checkFreshVarsAtCall (in_ : Value) (tgt : CalledFunctionTy) (f : Function)
    (args : list Value) : St Legacy.Refs unit :=
  r ← gets (fun r => r);
  when (bool_decide (0 < size (Legacy.vars (Legacy.freshVars r)))%nat)
    (let passedVars := FreshVars.passedVarsOf ir f args in
     forEach (ordered (Legacy.vars (Legacy.freshVars r))) (fun '(var, nProtects) =>
       if bool_decide (0 < nProtects) then return_
       else if bool_decide (var ∈ passedVars) then ret tt
       else
         addConditionalMessage in_ var
           (unprotectedVariableText (varName ir var) (calledName tgt)))).

(** [handleCall]: the protection primitives, then the call of an
    allocating function. *)
Definition handleCall (in_ : Value) (sexpGuards : option SEXPGuardsTy) : St Legacy.Refs unit :=
  Legacy.handleProtectionCall ir cm MAX_PSTACK_SIZE in_ sexpGuards;;
  match getCalledFunction cm in_ sexpGuards, in_ with
  | Some tgt, CallInst _ (Some _) args =>
      if negb (isCAllocating cm tgt) then return_
      else
        checkAllocatingArguments in_ tgt args sexpGuards;;
        call (pruneFreshVars in_);;
        checkFreshVarsAtCall in_ tgt (fun_ tgt) args
  | _, _ => return_
  end.

Definition flushConditionalMessages (var : AllocaInst) : St Legacy.Refs unit :=
  r ← gets (fun r => r);
  match cm_find var (Legacy.condMsgs (Legacy.freshVars r)) with
  | Some d =>
      modify (on_msg (delayed_flush d));;
      modify Legacy.incr_refinableInfos;;
      modify (set_condMsgs (cm_erase var))
  | None => ret tt
  end.

Definition handleLoad (in_ : Value) (sexpGuards : option SEXPGuardsTy) : St Legacy.Refs unit :=
  match in_ with
  | LoadInst _ ptr =>
      match asAlloca ptr with
      | None => return_
      | Some var =>
          flushConditionalMessages var;;
          r ← gets (fun r => r);
          match Legacy.vars (Legacy.freshVars r) !! var with
          | None => return_
          | Some nProtects =>
              when (loadUsersErase ir (Legacy.vars (Legacy.freshVars r)) (users ir in_))
                (modify (Legacy.set_vars (delete var)));;
              if negb REPORT_FRESH_ARGUMENTS then ret tt
              else if negb (hasOneUse ir in_) then return_
              else
                match user_back ir in_ with
                | None => abort
                | Some user =>
                    match getCalledFunction cm user sexpGuards with
                    | None => return_
                    | Some tgt =>
                        if negb (isCAllocating cm tgt) || protectsArguments cm tgt then return_
                        else if bool_decide (0 < nProtects) then return_
                        else
                          nameSuffix ←
                            (if hasEmptyName ir var then
                               match user with
                               | CallInst _ _ args =>
                                   match list_find (fun a => sameValue a in_ = true) args with
                                   | Some (i, _) => ret (" <arg " +:+ pretty (i + 1)%nat +:+ ">")
                                   | None => ret EmptyString
                                   end
                               | _ => abort
                               end
                             else ret EmptyString);
                          modify (Legacy.info
                                    (freshPointerText (calledName tgt) (varName ir var) nameSuffix)
                                    (Some in_));;
                          modify Legacy.incr_refinableInfos
                    end
                end
          end
      end
  | _ => return_
  end.

Definition handleStore (in_ : Value) (sexpGuards : option SEXPGuardsTy) : St Legacy.Refs unit :=
  match in_ with
  | StoreInst _ storeValueOp storePointerOp =>
      match asAlloca storePointerOp with
      | None => return_
      | Some var =>
          modify (set_condMsgs (cm_erase var));;
          match
            match getCalledFunction cm storeValueOp sexpGuards with
            | Some srcFun =>
                let sf := fun_ srcFun in
                if bool_decide (fname sf = "Rf_protect") ||
                   bool_decide (fname sf = "Rf_protectWithIndex") then Some return_
                else if isPossibleCAllocator cm srcFun then
                  Some
                    (if storedValueProtected (users ir storeValueOp) then return_
                     else modify (Legacy.set_vars <[var := 0]>);; return_)
                else None
            | None => None
            end
          with
          | Some done => done
          | None => modify (Legacy.set_vars (delete var))
          end
      end
  | _ => return_
  end.

Definition handleFreshVarsForNonTerminator (in_ : Value) (sexpGuards : option SEXPGuardsTy)
    : St Legacy.Refs unit :=
  call (handleCall in_ sexpGuards);;
  call (handleLoad in_ sexpGuards);;
  call (handleStore in_ sexpGuards).

End Transfer.
End LegacyTransfer.

(** The older copy: the protect stack stays within its bound and the
    protect counts stay non-negative. *)
Definition legacy_kept (MAX_PSTACK_SIZE : nat) (r r' : Legacy.Refs) : Prop :=
  ((length (Legacy.pstack (Legacy.freshVars r)) <= MAX_PSTACK_SIZE)%nat ->
   (length (Legacy.pstack (Legacy.freshVars r')) <= MAX_PSTACK_SIZE)%nat) /\
  (nonnegative (Legacy.vars (Legacy.freshVars r)) ->
   nonnegative (Legacy.vars (Legacy.freshVars r'))).

(** The older copy: the fresh variables, their protect counts and the
    protect stack are as they were. *)
Definition legacy_keepsVars (r r' : Legacy.Refs) : Prop :=
  Legacy.vars (Legacy.freshVars r') = Legacy.vars (Legacy.freshVars r) /\
  Legacy.pstack (Legacy.freshVars r') = Legacy.pstack (Legacy.freshVars r).

(** The older copy: nothing is reported, the protect stack is as it was,
    and what is held about a variable other than [var] is as it was. *)
Definition legacy_overwriting (var : option AllocaInst) (r r' : Legacy.Refs) : Prop :=
  Legacy.msg r' = Legacy.msg r /\
  Legacy.refinableInfos r' = Legacy.refinableInfos r /\
  Legacy.pstack (Legacy.freshVars r') = Legacy.pstack (Legacy.freshVars r) /\
  forall u, var <> Some u ->
    Legacy.vars (Legacy.freshVars r') !! u = Legacy.vars (Legacy.freshVars r) !! u /\
    cm_find u (Legacy.condMsgs (Legacy.freshVars r')) =
      cm_find u (Legacy.condMsgs (Legacy.freshVars r)).

(** The older copy on the sample program: [x] protected once, [y] fresh
    and unprotected. *)
Definition legacy_protected_x : Legacy.Refs :=
  Legacy.mkRefs (Legacy.mkFreshVars {[Samples.x := 1; Samples.y := 0]} [] [Some Samples.x])
                Samples.noMessages 0.

(* ================================================================== *)
(** * The checker proper: [main] (bcheck.cpp) *)
(* ================================================================== *)

Module BcheckMain.

Definition SEPARATE_CHECKING : bool := false.
Definition EXCLUDE_PROTECTION_FUNCTIONS : bool := true.

(** The functions of [GlobalsTy] that [main] compares with; [None] is
    NULL. *)
Record GlobalsTy := mkGlobals {
  protectFunction : option positive;
  protectWithIndexFunction : option positive;
  unprotectFunction : option positive;
  unprotectPtrFunction : option positive
}.

(** A function of interest with what the constructor of
    [FunctionChecker] computes for it. *)
Record FunctionOfInterest := mkFunctionOfInterest {
  fun_addr : positive;                   (* fun *)
  fun_size : nat;                        (* fun->size() *)
  fun_ir : Bcheck.FunctionIR;            (* the blocks, findErrorBasicBlocks *)
  fun_liveVars : LiveVarsTy;             (* findLiveVariables(fun) *)
  fun_slots : nat                        (* the number of local slots *)
}.

(** How [main] ends: it returns, with the number of functions analysed;
    an assertion fails; or the rounds given do not suffice. *)
Inductive Ended :=
| Returns (e : Bcheck.Engine) (nAnalyzedFunctions : N)
| Fails (e : Bcheck.Engine)
| Unfinished.

Definition isProtectionFunction (gl : GlobalsTy) (f : positive) : bool :=
  bool_decide (Some f = protectFunction gl) ||
  bool_decide (Some f = protectWithIndexFunction gl) ||
  bool_decide (Some f = unprotectFunction gl) ||
  bool_decide (Some f = unprotectPtrFunction gl).

(** The functions the loop does not [continue] over. *)
Definition analyzed (gl : GlobalsTy) (f : option FunctionOfInterest) : bool :=
  match f with
  | None => false
  | Some f =>
      negb (bool_decide (fun_size f = 0%nat)) &&
      negb (EXCLUDE_PROTECTION_FUNCTIONS && isProtectionFunction gl (fun_addr f))
  end.

(** [FunctionChecker fchk(fun, mstate)]: the caches are those of the
    new checker. *)
Definition newChecker (e : Bcheck.Engine) : Bcheck.Engine :=
  Bcheck.mkEngine (Bcheck.heap e) (Bcheck.nextAddr e) (Bcheck.doneSet e) (Bcheck.workList e)
    (Bcheck.totalStates e) (Bcheck.emsg e) ∅ (Bcheck.erefinable e) (Bcheck.visiting e)
    (Bcheck.errs e).

Definition analyzedText (nAnalyzedFunctions totalStates : N) : string :=
  "Analyzed " +:+ pretty nAnalyzedFunctions +:+ " functions, traversed " +:+
  pretty totalStates +:+ " states." +:+ String (Ascii.ascii_of_nat 10) EmptyString.

(** The globals when [main] is entered. *)
Definition initialEngine : Bcheck.Engine :=
  Bcheck.mkEngine ∅ 1%positive [] [] 0%N (mkLineMessenger [] []) ∅ 0%N [] [].

Section Main.

Variable hash_combine : N -> Bcheck.HashArg -> N.
Variable MAX_STATES : N.
Variable MAX_PSTACK_SIZE : nat.
Variable ir : IRInfo.
Variable cm : CalledModuleTy.
Variable cprotect : CProtectInfo.
Variable dom : Bcheck.Domains.
Variable gl : GlobalsTy.
(** The rounds given to the loop of the restarts and to the work loop. *)
Variable runs fuel : nat.

(** The loop over [functionsOfInterestVector]. *)
Fixpoint checkFunctions (funs : list (option FunctionOfInterest)) (e : Bcheck.Engine)
    (nAnalyzedFunctions : N) : Ended :=
  match funs with
  | [] => Returns e nAnalyzedFunctions
  | None :: rest => checkFunctions rest e nAnalyzedFunctions
  | Some f :: rest =>
      if bool_decide (fun_size f = 0%nat) then checkFunctions rest e nAnalyzedFunctions
      else if EXCLUDE_PROTECTION_FUNCTIONS && isProtectionFunction gl (fun_addr f) then
        checkFunctions rest e nAnalyzedFunctions
      else
        let nAnalyzedFunctions := uint_incr nAnalyzedFunctions in
        let e := newChecker e in
        if SEPARATE_CHECKING then
          match Bcheck.checkFunction hash_combine MAX_STATES MAX_PSTACK_SIZE (fun_slots f) ir cm
                  cprotect (fun_liveVars f) dom (fun_ir f) runs fuel true false e with
          | Bcheck.Done e _ =>
              match Bcheck.checkFunction hash_combine MAX_STATES MAX_PSTACK_SIZE (fun_slots f) ir
                      cm cprotect (fun_liveVars f) dom (fun_ir f) runs fuel false true e with
              | Bcheck.Done e _ => checkFunctions rest e nAnalyzedFunctions
              | Bcheck.Crashed e => Fails e
              | Bcheck.Unfinished => Unfinished
              end
          | Bcheck.Crashed e => Fails e
          | Bcheck.Unfinished => Unfinished
          end
        else
          match Bcheck.checkFunction hash_combine MAX_STATES MAX_PSTACK_SIZE (fun_slots f) ir cm
                  cprotect (fun_liveVars f) dom (fun_ir f) runs fuel true true e with
          | Bcheck.Done e _ => checkFunctions rest e nAnalyzedFunctions
          | Bcheck.Crashed e => Fails e
          | Bcheck.Unfinished => Unfinished
          end
  end.

Definition main (funs : list (option FunctionOfInterest)) : Ended :=
  match checkFunctions funs initialEngine 0%N with
  | Returns e nAnalyzedFunctions =>
      let e := Bcheck.on_emsg msg_flush e in
      let e := Bcheck.clearStates e in
      Returns (Bcheck.log_error (analyzedText nAnalyzedFunctions (Bcheck.totalStates e)) e)
              nAnalyzedFunctions
  | other => other
  end.

End Main.
End BcheckMain.




(** The addresses of the visited set were handed out by [new]. *)
Definition handedOut (e : Bcheck.Engine) : Prop :=
  forall p, p ∈ Bcheck.doneSet e -> (p < Bcheck.nextAddr e)%positive.

(** The visited set holds the state [s], or a state with its hash code
    that compares equal to it. *)
Definition represented (s : Bcheck.BcheckStateTy) (e : Bcheck.Engine) : Prop :=
  exists q t,
    q ∈ Bcheck.doneSet e /\ Bcheck.heap e !! q = Some t /\
    Bcheck.bb t = Bcheck.bb s /\
    (t = s \/ (Bcheck.hashcode t = Bcheck.hashcode s /\ Bcheck.fields_equal s t = true)).

(** Variables are only removed from the fresh variables, [var] staying
    out once it is; nothing else changes. *)
Definition unfreshing (var : AllocaInst) (r r' : Refs) : Prop :=
  (vars (freshVars r) !! var = None -> vars (freshVars r') !! var = None) /\
  (forall u, vars (freshVars r') !! u = None \/
             vars (freshVars r') !! u = vars (freshVars r) !! u) /\
  pstack (freshVars r') = pstack (freshVars r) /\
  condMsgs (freshVars r') = condMsgs (freshVars r) /\
  confused (freshVars r') = confused (freshVars r) /\
  msg r' = msg r /\
  refinableInfos r' = refinableInfos r /\
  checkedVarsCache r' = checkedVarsCache r.

(** The sample program with [x] saved to the node stack. *)
Definition store_node_stack : Value := StoreInst 41 Samples.load_x (OtherValue 42).

Definition ir_node_stack : IRInfo := {|
  users := users Samples.ir;
  isSEXP := isSEXP Samples.ir;
  varName := varName Samples.ir;
  hasEmptyName := hasEmptyName Samples.ir;
  isSetterFunction := isSetterFunction Samples.ir;
  isStoreToStructureElement := fun v =>
    match addressOf v with
    | AtInst 41%positive => Some Samples.x
    | _ => None
    end;
  aliasesVariable := aliasesVariable Samples.ir;
  findOnlyStoreTo := findOnlyStoreTo Samples.ir
|}.

(* ================================================================== *)
(** * Running a computation *)
(* ================================================================== *)

Ltac run :=
  unfold bind, ret, when, modify, gets, return_, abort, call, info, myassert; simpl.

Lemma elem_of_emit li li' m :
  li ∈ lineBuffer (emit li' m) <-> li ∈ lineBuffer m \/ li = li'.
Proof.
  unfold emit. case_bool_decide; simpl.
  - split; [by left | by intros [?| ->]].
  - rewrite elem_of_app, list_elem_of_singleton. done.
Qed.

Lemma emit_emitted li m : li ∈ lineBuffer (emit li m).
Proof. apply elem_of_emit. by right. Qed.

Lemma msg_info_emitted text at_ m :
  mkLineInfo text (addressOf <$> at_) ∈ lineBuffer (msg_info text at_ m).
Proof. apply emit_emitted. Qed.

Lemma elem_of_delayed_flush li d m :
  li ∈ lineBuffer (delayed_flush d m) <-> li ∈ lineBuffer m \/ li ∈ d.
Proof.
  unfold delayed_flush. revert m. induction d as [|x d IH]; intros m; simpl.
  - rewrite elem_of_nil. tauto.
  - rewrite IH, elem_of_emit, elem_of_cons. tauto.
Qed.

Lemma forEach_app {S A} (l1 l2 : list A) (body : A -> St S unit) r :
  forEach (l1 ++ l2) body r = bind (forEach l1 body) (fun _ => forEach l2 body) r.
Proof.
  revert r. induction l1 as [|x l1 IH]; intros r; simpl.
  - done.
  - unfold bind. destruct (body x r) as [r1 [[]| |]]; [|done|done].
    specialize (IH r1). unfold bind in IH. exact IH.
Qed.

(* ================================================================== *)
(** * The protection primitives (freshvars.cpp) *)
(* ================================================================== *)

Section Protection.

Variable ir : IRInfo.
Variable cm : CalledModuleTy.
Variable cprotect : CProtectInfo.
Variable liveVars : LiveVarsTy.
Variable MAX_PSTACK_SIZE : nat.

Lemma protection_unprotect in_ f args balance r :
  fname f = "Rf_unprotect" ->
  FreshVars.handleProtectionCalls ir MAX_PSTACK_SIZE in_ f args balance r =
  FreshVars.handleUnprotect in_ args balance r.
Proof.
  intros Hf. unfold FreshVars.handleProtectionCalls. rewrite Hf. run.
  by destruct (FreshVars.handleUnprotect in_ args balance r) as [? []].
Qed.

Lemma protection_protect in_ f args balance r :
  fname f = "Rf_protect" \/ fname f = "R_ProtectWithIndex" ->
  FreshVars.handleProtectionCalls ir MAX_PSTACK_SIZE in_ f args balance r =
  FreshVars.handleProtect ir MAX_PSTACK_SIZE in_ f args r.
Proof.
  intros Hf. unfold FreshVars.handleProtectionCalls.
  destruct Hf as [Hf|Hf]; rewrite Hf; run;
    by destruct (FreshVars.handleProtect _ _ in_ f args r) as [? [[]| |]].
Qed.

(** A call whose target is resolved, on a trace that is not confused:
    the protection primitives are handled, then the allocating call. *)
Lemma handleCall_resolved a f0 args g balance tgt r :
  getCalledFunction cm (CallInst a (Some f0) args) g = Some tgt ->
  FreshVars.handleCall ir cm cprotect liveVars MAX_PSTACK_SIZE (CallInst a (Some f0) args) g balance r =
  bind (when (negb (confused (freshVars r)))
          (FreshVars.handleProtectionCalls ir MAX_PSTACK_SIZE (CallInst a (Some f0) args)
             (fun_ tgt) args balance))
       (fun _ => FreshVars.handleAllocatingCall ir cm cprotect liveVars
                   (CallInst a (Some f0) args) tgt args g (confused (freshVars r))) r.
Proof. intros Ht. unfold FreshVars.handleCall. unfold bind at 1, gets. simpl. by rewrite Ht. Qed.

Lemma unprotectOne_pops in_ r :
  pstack (freshVars r) <> [] ->
  exists r',
    FreshVars.unprotectOne in_ r = (r', Next tt) /\
    freshVars r' = popProtected (freshVars r) /\
    msg r' = msg r /\ checkedVarsCache r' = checkedVarsCache r.
Proof.
  intros Hne. unfold FreshVars.unprotectOne, popProtected. run.
  destruct (back (pstack (freshVars r))) as [[var|]|] eqn:Hb.
  - destruct (vars (freshVars r) !! var) as [n|] eqn:Hv; simpl.
    + case_bool_decide; simpl; eexists; (split; [done|]); simpl; repeat split;
        unfold set_vars, set_pstack; simpl; do 2 f_equal; lia.
    + eexists. by split.
  - eexists. by split.
  - exfalso. unfold back in Hb. apply last_None in Hb. done.
Qed.

Lemma length_pop_back {A} (l : list A) : length (pop_back l) = pred (length l).
Proof.
  unfold pop_back. destruct l as [|x l] using rev_ind; [done|].
  rewrite removelast_last, length_app. simpl. lia.
Qed.

Lemma pop_back_take {A} (l : list A) : pop_back l = take (length l - 1) l.
Proof.
  unfold pop_back. destruct l as [|x l _] using rev_ind; [done|].
  rewrite removelast_last, length_app. simpl.
  replace (length l + 1 - 1)%nat with (length l) by lia.
  by rewrite take_app_length.
Qed.

Lemma pstack_popProtected fv : pstack (popProtected fv) = pop_back (pstack fv).
Proof.
  unfold popProtected.
  destruct (back (pstack fv)) as [[v|]|]; try done.
  by destruct (vars fv !! v).
Qed.

Lemma pstack_iter_popProtected n fv :
  pstack (Nat.iter n popProtected fv) = take (length (pstack fv) - n) (pstack fv).
Proof.
  induction n as [|n IH]; simpl.
  - rewrite Nat.sub_0_r. by rewrite firstn_all.
  - rewrite pstack_popProtected, IH, pop_back_take, length_take, take_take.
    f_equal. lia.
Qed.

Lemma repeat_unprotectOne in_ n r :
  (n <= length (pstack (freshVars r)))%nat ->
  exists r',
    repeat_n n (call (FreshVars.unprotectOne in_)) r = (r', Next tt) /\
    freshVars r' = Nat.iter n popProtected (freshVars r) /\
    msg r' = msg r /\ checkedVarsCache r' = checkedVarsCache r.
Proof.
  revert r. induction n as [|n IH]; intros r Hn.
  - exists r. by split.
  - destruct (unprotectOne_pops in_ r) as (r1 & H1 & Hfv & Hm & Hc).
    { intros Hnil. rewrite Hnil in Hn. simpl in Hn. lia. }
    destruct (IH r1) as (r2 & H2 & Hfv2 & Hm2 & Hc2).
    { rewrite Hfv, pstack_popProtected, length_pop_back. lia. }
    exists r2. split; [|split; [|split; congruence]].
    + simpl. unfold bind at 1. unfold call at 1. rewrite H1. exact H2.
    + rewrite Hfv2, Hfv. by rewrite Nat.iter_succ_r.
Qed.

End Protection.

(* ================================================================== *)
(** * Relating the state before and after a computation *)
(* ================================================================== *)

Section Follows.

Context {S : Type} (R : S -> S -> Prop) `{!PreOrder R}.

Local Abbreviation follows := (follows R).

Lemma follows_ret {A} (a : A) r : follows (ret a) r.
Proof. unfold follows. simpl. reflexivity. Qed.

Lemma follows_return {A} r : follows (@return_ S A) r.
Proof. unfold follows. simpl. reflexivity. Qed.

Lemma follows_abort {A} r : follows (@abort S A) r.
Proof. unfold follows. simpl. reflexivity. Qed.

Lemma follows_myassert b r : follows (myassert b) r.
Proof. destruct b; [apply follows_ret | apply follows_abort]. Qed.

Lemma follows_gets {A} (f : S -> A) r : follows (gets f) r.
Proof. unfold follows. simpl. reflexivity. Qed.

Lemma follows_modify (f : S -> S) r : R r (f r) -> follows (modify f) r.
Proof. done. Qed.

Lemma follows_bind {A B} (m : St S A) (k : A -> St S B) r :
  follows m r ->
  (forall a r1, m r = (r1, Next a) -> follows (k a) r1) ->
  follows (bind m k) r.
Proof.
  unfold follows, bind. intros Hm Hk.
  destruct (m r) as [r1 [a| |]] eqn:E; simpl in *; try done.
  etransitivity; [exact Hm | by apply Hk].
Qed.

Lemma follows_when b (m : St S unit) r : (b = true -> follows m r) -> follows (when b m) r.
Proof. destruct b; simpl; [auto | intros; apply follows_ret]. Qed.

Lemma follows_call (m : St S unit) r : follows m r -> follows (call m) r.
Proof. unfold follows, call. by destruct (m r) as [r1 [[]| |]]. Qed.

Lemma follows_forEach {A} (l : list A) (body : A -> St S unit) r :
  (forall x r1, x ∈ l -> follows (body x) r1) -> follows (forEach l body) r.
Proof.
  revert r. induction l as [|x l IH]; intros r Hb; simpl.
  - apply follows_ret.
  - apply follows_bind.
    + apply Hb. by left.
    + intros _ r1 _. apply IH. intros y r2 Hy. apply Hb. by right.
Qed.

Lemma follows_repeat_n n (body : St S unit) r :
  (forall r1, follows body r1) -> follows (repeat_n n body) r.
Proof.
  intros Hb. revert r. induction n as [|n IH]; intros r; simpl.
  - apply follows_ret.
  - apply follows_bind; [apply Hb | intros; apply IH].
Qed.

End Follows.

(** Symbolic execution of a computation, one construct at a time. *)
Ltac use_follows L := apply L; try (solve [apply _]).

Ltac follow_step :=
  match goal with
  | |- follows _ (ret _) _ => use_follows @follows_ret
  | |- follows _ return_ _ => use_follows @follows_return
  | |- follows _ abort _ => use_follows @follows_abort
  | |- follows _ (myassert _) _ => use_follows @follows_myassert
  | |- follows _ (gets _) _ => use_follows @follows_gets
  | |- follows _ (modify _) _ => use_follows @follows_modify
  | |- follows _ (info _ _) _ => use_follows @follows_modify
  | |- follows _ (bind _ _) _ => use_follows @follows_bind; [|intros ? ? ?]
  | |- follows _ (when _ _) _ => use_follows @follows_when; intros ?
  | |- follows _ (call _) _ => use_follows @follows_call
  | |- follows _ (forEach _ _) _ => use_follows @follows_forEach; intros ? ? ?
  | |- follows _ (repeat_n _ _) _ => use_follows @follows_repeat_n; intros ?
  | |- follows _ (match ?x with _ => _ end) _ => destruct x eqn:?
  | |- follows _ (let '(_, _) := ?x in _) _ => destruct x eqn:?
  end.

Ltac follow := repeat follow_step.

Ltac gets_inv :=
  repeat match goal with
  | H : gets _ _ = (_, Next _) |- _ => unfold gets in H; injection H as ? ?; subst
  | H : bool_decide _ = true |- _ => apply bool_decide_eq_true in H
  | H : bool_decide _ = false |- _ => apply bool_decide_eq_false in H
  end.

(* ================================================================== *)
(** * The bound on the protect stack *)
(* ================================================================== *)

Section Bound.

Variable ir : IRInfo.
Variable cm : CalledModuleTy.
Variable cprotect : CProtectInfo.
Variable liveVars : LiveVarsTy.
Variable MAX_PSTACK_SIZE : nat.
Variable aliasChainBound : nat.

Local Abbreviation bounded := (bounded MAX_PSTACK_SIZE).

#[local] Instance bounded_preorder : PreOrder bounded.
Proof. split; unfold bounded; [by intros r | intros r1 r2 r3 H1 H2 H; auto]. Qed.



















End Bound.

(* ================================================================== *)
(** * What a transfer leaves alone *)
(* ================================================================== *)

Section Frames.

Variable ir : IRInfo.
Variable cm : CalledModuleTy.
Variable cprotect : CProtectInfo.
Variable liveVars : LiveVarsTy.
Variable MAX_PSTACK_SIZE : nat.
Variable aliasChainBound : nat.

#[local] Instance sameStack_preorder : PreOrder sameStack.
Proof.
  split; unfold sameStack; [by intros r | intros r1 r2 r3 [? ?] [? ?]; split; congruence].
Qed.



#[local] Instance onlyAllocatingArguments_preorder in_ : PreOrder (onlyAllocatingArguments in_).
Proof.
  split; unfold onlyAllocatingArguments.
  - intros r. repeat split. intros li Hli. by left.
  - intros r1 r2 r3 (Hf1 & Hc1 & Hm1) (Hf2 & Hc2 & Hm2).
    split; [congruence|]. split; [congruence|].
    intros li Hli. destruct (Hm2 li Hli) as [H|H]; [by apply Hm1 | by right].
Qed.

Lemma checkAllocatingArguments_only in_ tgt args g r :
  follows (onlyAllocatingArguments in_)
    (FreshVars.checkAllocatingArguments cm cprotect in_ tgt args g) r.
Proof.
  unfold FreshVars.checkAllocatingArguments. follow.
  - unfold onlyAllocatingArguments, on_msg, msg_info. simpl. repeat split.
    intros li [Hold| ->]%elem_of_emit; [by left|]. right. eauto.
  - unfold onlyAllocatingArguments. simpl. repeat split. intros li Hli. by left.
Qed.

Lemma handleCall_confused in_ g balance r :
  confused (freshVars r) = true ->
  follows (onlyAllocatingArguments in_)
    (FreshVars.handleCall ir cm cprotect liveVars MAX_PSTACK_SIZE in_ g balance) r.
Proof.
  intros Hc. unfold FreshVars.handleCall, FreshVars.handleAllocatingCall.
  use_follows @follows_bind; [follow|]. intros fv r1 Hg. gets_inv. rewrite Hc. simpl.
  follow; apply checkAllocatingArguments_only.
Qed.

Lemma handleLoad_confused in_ g r :
  confused (freshVars r) = true ->
  FreshVars.handleLoad ir cm cprotect liveVars in_ g r = (r, Returned).
Proof. intros Hc. unfold FreshVars.handleLoad. run. by rewrite Hc. Qed.

Lemma handleStore_confused in_ g balance r :
  confused (freshVars r) = true ->
  FreshVars.handleStore ir cm aliasChainBound in_ g balance r = (r, Returned).
Proof. intros Hc. unfold FreshVars.handleStore. run. by rewrite Hc. Qed.

Lemma handleFreshVars_confused in_ g balance r :
  confused (freshVars r) = true ->
  follows (onlyAllocatingArguments in_)
    (FreshVars.handleFreshVarsForNonTerminator ir cm cprotect liveVars MAX_PSTACK_SIZE
       aliasChainBound in_ g balance) r.
Proof.
  intros Hc. unfold FreshVars.handleFreshVarsForNonTerminator.
  pose proof (handleCall_confused in_ g balance r Hc) as H. unfold follows in *.
  unfold bind at 1. unfold call at 1.
  destruct (FreshVars.handleCall _ _ _ _ _ in_ g balance r) as [r1 [[]| |]]; simpl in *; try done.
  all: assert (Hc1 : confused (freshVars r1) = true) by (destruct H as (-> & _); done).
  all: unfold bind, call; rewrite (handleLoad_confused _ _ _ Hc1);
       rewrite (handleStore_confused _ _ _ _ Hc1); done.
Qed.

End Frames.

(* ================================================================== *)
(** * The older copy: bound and findings *)
(* ================================================================== *)

Section LegacyBound.

Variable ir : IRInfo.
Variable cm : CalledModuleTy.
Variable MAX_PSTACK_SIZE : nat.

Local Abbreviation legacy_bounded := (legacy_bounded MAX_PSTACK_SIZE).

#[local] Instance legacy_bounded_preorder : PreOrder legacy_bounded.
Proof. split; unfold legacy_bounded; [by intros r | intros r1 r2 r3 H1 H2 H; auto]. Qed.


End LegacyBound.

(* ================================================================== *)
(** * Unprotect, protect and the confused flag *)
(* ================================================================== *)

Section Primitives.

Variable ir : IRInfo.
Variable cm : CalledModuleTy.
Variable cprotect : CProtectInfo.
Variable liveVars : LiveVarsTy.
Variable MAX_PSTACK_SIZE : nat.
Variable aliasChainBound : nat.

(** One pop: the count of refinable findings goes up when the pop clamps,
    and nothing is emitted. *)
Lemma unprotectOne_counts in_ r :
  pstack (freshVars r) <> [] ->
  exists r',
    FreshVars.unprotectOne in_ r = (r', Next tt) /\
    freshVars r' = popProtected (freshVars r) /\
    msg r' = msg r /\
    refinableInfos r' =
      (if clampsAtZero (freshVars r) then uint_incr (refinableInfos r) else refinableInfos r).
Proof.
  intros Hne. unfold FreshVars.unprotectOne, popProtected, clampsAtZero. run.
  destruct (back (pstack (freshVars r))) as [[var|]|] eqn:Hb.
  - destruct (vars (freshVars r) !! var) as [n|] eqn:Hv; simpl.
    + case_bool_decide; simpl; eexists; (split; [done|]); simpl; repeat split;
        unfold set_vars, set_pstack; simpl; do 2 f_equal; lia.
    + eexists. by split.
  - eexists. by split.
  - exfalso. unfold back in Hb. apply last_None in Hb. done.
Qed.

Lemma iter_uint_incr_succ n x : Nat.iter n uint_incr (uint_incr x) = uint_incr (Nat.iter n uint_incr x).
Proof. induction n as [|n IH]; simpl; [done | by rewrite IH]. Qed.

Lemma repeat_unprotectOne_counts in_ n r :
  (n <= length (pstack (freshVars r)))%nat ->
  exists r',
    repeat_n n (call (FreshVars.unprotectOne in_)) r = (r', Next tt) /\
    freshVars r' = Nat.iter n popProtected (freshVars r) /\
    msg r' = msg r /\
    refinableInfos r' = Nat.iter (clampsIn n (freshVars r)) uint_incr (refinableInfos r).
Proof.
  revert r. induction n as [|n IH]; intros r Hn.
  - exists r. by split.
  - destruct (unprotectOne_counts in_ r) as (r1 & H1 & Hfv & Hm & Hr).
    { intros Hnil. rewrite Hnil in Hn. simpl in Hn. lia. }
    destruct (IH r1) as (r2 & H2 & Hfv2 & Hm2 & Hr2).
    { rewrite Hfv, pstack_popProtected, length_pop_back. lia. }
    exists r2. split; [|split; [|split; [congruence|]]].
    + simpl. unfold bind at 1. unfold call at 1. rewrite H1. exact H2.
    + rewrite Hfv2, Hfv. by rewrite Nat.iter_succ_r.
    + rewrite Hr2, Hr, Hfv. simpl clampsIn.
      destruct (clampsAtZero (freshVars r)); simpl; [|done].
      apply iter_uint_incr_succ.
Qed.

(** C3 (as amended).  On a trace that is not confused, an unprotect call
    of the current transfer whose count [k] is known (a constant, or a
    load of the recognized counter variable in exact state) and does not
    exceed the size of the protect stack is handled by [k] iterations, each
    popping the top of the stack and, when that is a slot in [vars],
    decrementing its protect count with a clamp at zero; no message is
    emitted, the count of refinable findings goes up by one for every pop
    that clamps and by nothing else, and the call is then handled as any
    call of its target.  On a confused trace a call leaves the fresh
    variables, the protect stack with them, as they are. *)
Theorem unprotect_known_count_pops :
  (forall a f0 args g balance tgt arg k r,
     getCalledFunction cm (CallInst a (Some f0) args) g = Some tgt ->
     fname (fun_ tgt) = "Rf_unprotect" ->
     args !! 0%nat = Some arg ->
     FreshVars.unprotectCount arg balance = Some k ->
     (k <= N.of_nat (length (pstack (freshVars r))))%N ->
     confused (freshVars r) = false ->
     exists r1,
       FreshVars.handleProtectionCalls ir MAX_PSTACK_SIZE (CallInst a (Some f0) args)
         (fun_ tgt) args balance r = (r1, Next tt) /\
       FreshVars.handleCall ir cm cprotect liveVars MAX_PSTACK_SIZE
         (CallInst a (Some f0) args) g balance r =
       FreshVars.handleAllocatingCall ir cm cprotect liveVars
         (CallInst a (Some f0) args) tgt args g false r1 /\
       freshVars r1 = Nat.iter (N.to_nat k) popProtected (freshVars r) /\
       pstack (freshVars r1) =
         take (length (pstack (freshVars r)) - N.to_nat k) (pstack (freshVars r)) /\
       msg r1 = msg r /\
       refinableInfos r1 =
         Nat.iter (clampsIn (N.to_nat k) (freshVars r)) uint_incr (refinableInfos r)) /\
  (forall in_ g balance r,
     confused (freshVars r) = true ->
     freshVars (FreshVars.handleCall ir cm cprotect liveVars MAX_PSTACK_SIZE
                  in_ g balance r).1 = freshVars r).
Proof.
  split.
  - intros a f0 args g balance tgt arg k r Ht Hf Ha Hk Hle Hc.
    destruct (repeat_unprotectOne_counts (CallInst a (Some f0) args) (N.to_nat k) r)
      as (r1 & Hrun & Hfv & Hm & Hr); [lia|].
    assert (Hp : FreshVars.handleProtectionCalls ir MAX_PSTACK_SIZE (CallInst a (Some f0) args)
                   (fun_ tgt) args balance r = (r1, Next tt)).
    { rewrite protection_unprotect by done. unfold FreshVars.handleUnprotect.
      rewrite Ha, Hk. run. rewrite bool_decide_eq_false_2 by lia. exact Hrun. }
    exists r1. split; [exact Hp|]. split; [|split; [done|split; [|done]]].
    + rewrite handleCall_resolved with (tgt := tgt) by done.
      rewrite Hc. simpl. unfold bind. by rewrite Hp.
    + rewrite Hfv. apply pstack_iter_popProtected.
  - intros in_ g balance r Hc.
    by destruct (handleCall_confused ir cm cprotect liveVars MAX_PSTACK_SIZE in_ g balance r Hc)
      as (Hfv & _).
Qed.

Lemma allocatingArgumentText_not_beyondStack tgt src k size :
  allocatingArgumentText tgt src <> beyondStackText k size.
Proof. unfold allocatingArgumentText, beyondStackText, MSG_PFX. simpl. discriminate. Qed.


(** A call on a confused trace whose target is not an allocating function
    changes nothing and emits nothing. *)
Lemma handleCall_confused_not_allocating a f0 args g balance tgt r :
  getCalledFunction cm (CallInst a (Some f0) args) g = Some tgt ->
  confused (freshVars r) = true ->
  isCAllocating cm tgt = false ->
  FreshVars.handleCall ir cm cprotect liveVars MAX_PSTACK_SIZE
    (CallInst a (Some f0) args) g balance r = (r, Returned).
Proof.
  intros Ht Hc Ha. rewrite handleCall_resolved with (tgt := tgt) by done.
  rewrite Hc. simpl. unfold bind, ret. unfold FreshVars.handleAllocatingCall.
  by rewrite Ha.
Qed.

(** C4 (as amended).  On a trace that is not already confused, an
    unprotect with known count [k] greater than the size of the protect
    stack emits the finding, counts it as refinable, sets the confused flag
    and returns; [vars], [condMsgs] and the protect stack are unchanged.
    On a trace that is already confused the unprotect is not examined: the
    fresh variables and the cache stay as they are and the finding is not
    emitted; the call is still handled as a call of its target, which can
    add findings about arguments allocated by another function and nothing
    else, and adds nothing when the target is not an allocating function.
    The older copy, which has no confused flag, emits its finding for a
    constant [k], counts it and returns with the state unchanged. *)
Theorem unprotect_beyond_stack_confuses :
  (forall a f0 args g balance tgt arg k r,
     getCalledFunction cm (CallInst a (Some f0) args) g = Some tgt ->
     fname (fun_ tgt) = "Rf_unprotect" ->
     args !! 0%nat = Some arg ->
     FreshVars.unprotectCount arg balance = Some k ->
     (N.of_nat (length (pstack (freshVars r))) < k)%N ->
     confused (freshVars r) = false ->
     let finding := beyondStackText k (length (pstack (freshVars r))) in
     FreshVars.handleCall ir cm cprotect liveVars MAX_PSTACK_SIZE
       (CallInst a (Some f0) args) g balance r =
     (mkRefs (set_confused true (freshVars r))
             (msg_info finding (Some (CallInst a (Some f0) args)) (msg r))
             (uint_incr (refinableInfos r)) (checkedVarsCache r), Returned) /\
     mkLineInfo finding (Some (AtInst a)) ∈
       lineBuffer (msg_info finding (Some (CallInst a (Some f0) args)) (msg r))) /\
  (forall a f0 args g balance tgt arg k r,
     getCalledFunction cm (CallInst a (Some f0) args) g = Some tgt ->
     fname (fun_ tgt) = "Rf_unprotect" ->
     args !! 0%nat = Some arg ->
     FreshVars.unprotectCount arg balance = Some k ->
     (N.of_nat (length (pstack (freshVars r))) < k)%N ->
     confused (freshVars r) = true ->
     onlyAllocatingArguments (CallInst a (Some f0) args) r
       (FreshVars.handleCall ir cm cprotect liveVars MAX_PSTACK_SIZE
          (CallInst a (Some f0) args) g balance r).1 /\
     (forall at_,
        mkLineInfo (beyondStackText k (length (pstack (freshVars r)))) at_ ∈
          lineBuffer (msg (FreshVars.handleCall ir cm cprotect liveVars MAX_PSTACK_SIZE
                             (CallInst a (Some f0) args) g balance r).1) ->
        mkLineInfo (beyondStackText k (length (pstack (freshVars r)))) at_ ∈
          lineBuffer (msg r)) /\
     (isCAllocating cm tgt = false ->
      FreshVars.handleCall ir cm cprotect liveVars MAX_PSTACK_SIZE
        (CallInst a (Some f0) args) g balance r = (r, Returned))) /\
  (forall a f0 k rest g tgt r,
     getCalledFunction cm (CallInst a (Some f0) (ConstantInt k :: rest)) g = Some tgt ->
     fname (fun_ tgt) = "Rf_unprotect" ->
     (N.of_nat (length (Legacy.pstack (Legacy.freshVars r))) < k)%N ->
     let finding := Legacy.beyondStackText k (length (Legacy.pstack (Legacy.freshVars r))) in
     Legacy.handleProtectionCall ir cm MAX_PSTACK_SIZE
       (CallInst a (Some f0) (ConstantInt k :: rest)) g r =
     (Legacy.mkRefs (Legacy.freshVars r)
        (msg_info finding (Some (CallInst a (Some f0) (ConstantInt k :: rest))) (Legacy.msg r))
        (uint_incr (Legacy.refinableInfos r)), Returned)).
Proof.
  split; [|split].
  - intros a f0 args g balance tgt arg k r Ht Hf Ha Hk Hlt Hc finding. split.
    + rewrite handleCall_resolved with (tgt := tgt) by done.
      rewrite Hc. simpl. unfold bind.
      rewrite protection_unprotect by done.
      unfold FreshVars.handleUnprotect. rewrite Ha, Hk. run.
      by rewrite bool_decide_eq_true_2 by done.
    + apply (msg_info_emitted finding (Some (CallInst a (Some f0) args))).
  - intros a f0 args g balance tgt arg k r Ht Hf Ha Hk Hlt Hc.
    pose proof (handleCall_confused ir cm cprotect liveVars MAX_PSTACK_SIZE
                  (CallInst a (Some f0) args) g balance r Hc) as Ho.
    unfold follows in Ho. split; [exact Ho|]. split.
    + intros at_ Hin. destruct Ho as (_ & _ & Ho).
      destruct (Ho _ Hin) as [?|(t & src & Heq)]; [done|].
      apply (f_equal message) in Heq. simpl in Heq. symmetry in Heq.
      by apply allocatingArgumentText_not_beyondStack in Heq.
    + by apply handleCall_confused_not_allocating.
  - intros a f0 k rest g tgt r Ht Hf Hlt finding.
    unfold Legacy.handleProtectionCall. rewrite Ht, Hf. run.
    by rewrite bool_decide_eq_true_2 by done.
Qed.


(** C7 (as amended).  Once the confused flag of the fresh variables is
    set, the handling of loads and of stores returns at once, and the
    handling of a call leaves the fresh-variables state as it is and emits
    nothing but the finding that an allocating function is called with an
    argument allocated by another function, which is reported also on a
    confused trace. *)
Theorem confused_trace_reports_only_allocating_arguments in_ g balance r :
  confused (freshVars r) = true ->
  FreshVars.handleLoad ir cm cprotect liveVars in_ g r = (r, Returned) /\
  FreshVars.handleStore ir cm aliasChainBound in_ g balance r = (r, Returned) /\
  onlyAllocatingArguments in_ r
    (FreshVars.handleCall ir cm cprotect liveVars MAX_PSTACK_SIZE in_ g balance r).1 /\
  onlyAllocatingArguments in_ r
    (FreshVars.handleFreshVarsForNonTerminator ir cm cprotect liveVars MAX_PSTACK_SIZE
       aliasChainBound in_ g balance r).1.
Proof.
  intros Hc. split; [by apply handleLoad_confused|]. split; [by apply handleStore_confused|].
  split; [by apply handleCall_confused | by apply handleFreshVars_confused].
Qed.

(** In the older copy a round of the unprotect loop that finds an
    anonymous value on top of the protect stack takes [continue] and pops
    nothing. *)
Lemma legacy_round_anonymous in_ r :
  back (Legacy.pstack (Legacy.freshVars r)) = Some None ->
  Legacy.unprotectRound ir in_ r = (r, Next tt).
Proof. intros Hb. unfold Legacy.unprotectRound. run. by rewrite Hb. Qed.

Lemma legacy_rounds_anonymous in_ n r :
  back (Legacy.pstack (Legacy.freshVars r)) = Some None ->
  repeat_n n (Legacy.unprotectRound ir in_) r = (r, Next tt).
Proof.
  intros Hb. induction n as [|n IH]; [done|].
  simpl. unfold bind. by rewrite legacy_round_anonymous.
Qed.

(** In the older copy the top of the protect stack stays when it is
    anonymous: an unprotect with a constant count [k] within the stack
    makes its [k] rounds, every one of them finds the anonymous top and
    takes [continue] before [pop_back], and the call returns with the
    state as it was; nothing is popped and no protect count changes. *)
Theorem legacy_unprotect_keeps_anonymous_top a f0 k rest g tgt r :
  getCalledFunction cm (CallInst a (Some f0) (ConstantInt k :: rest)) g = Some tgt ->
  fname (fun_ tgt) = "Rf_unprotect" ->
  (k <= N.of_nat (length (Legacy.pstack (Legacy.freshVars r))))%N ->
  back (Legacy.pstack (Legacy.freshVars r)) = Some None ->
  Legacy.handleProtectionCall ir cm MAX_PSTACK_SIZE
    (CallInst a (Some f0) (ConstantInt k :: rest)) g r = (r, Returned).
Proof.
  intros Ht Hf Hk Hb.
  unfold Legacy.handleProtectionCall. rewrite Ht, Hf. run.
  rewrite bool_decide_eq_false_2 by lia.
  by rewrite legacy_rounds_anonymous.
Qed.

End Primitives.

(* ================================================================== *)
(** * The protection primitives on a protect stack of two *)
(* ================================================================== *)

(** [UNPROTECT(1)] with [x] on top of a protect stack of two, on a trace
    that is not confused. *)
Lemma unprotect_known_count_pops_witness :
  exists r1,
    FreshVars.handleCall Samples.ir Samples.cm Samples.cprotect Samples.liveVars 4
      (Samples.unprotect 1) None None (Samples.tracking false) =
    FreshVars.handleAllocatingCall Samples.ir Samples.cm Samples.cprotect Samples.liveVars
      (Samples.unprotect 1) (mkCalled Samples.fn_unprotect "Rf_unprotect") [ConstantInt 1]
      None false r1 /\
    pstack (freshVars r1) = [None] /\
    vars (freshVars r1) = {[Samples.x := 0]} /\
    msg r1 = Samples.noMessages /\
    refinableInfos r1 = 0%N.
Proof.
  destruct (unprotect_known_count_pops Samples.ir Samples.cm Samples.cprotect
              Samples.liveVars 4) as [Hpops _].
  destruct (Hpops 9%positive Samples.fn_unprotect [ConstantInt 1] None None
              (mkCalled Samples.fn_unprotect "Rf_unprotect") (ConstantInt 1) 1%N
              (Samples.tracking false))
    as (r1 & _ & Hcall & Hfv & Hstack & Hmsg & Hr);
    [reflexivity | reflexivity | reflexivity | reflexivity | simpl; lia | reflexivity |].
  exists r1. split; [exact Hcall|]. split; [exact Hstack|]. split; [|split; [exact Hmsg|]].
  - rewrite Hfv. vm_compute. reflexivity.
  - rewrite Hr. vm_compute. reflexivity.
Defined.

(** On a confused trace the same [UNPROTECT(1)], whose count is known and
    within the stack, pops nothing. *)
Lemma confused_unprotect_pops_nothing :
  confused (freshVars (Samples.tracking true)) = true /\
  FreshVars.unprotectCount (ConstantInt 1) None = Some 1%N /\
  pstack (freshVars (Samples.tracking true)) = [None; Some Samples.x] /\
  pstack (freshVars
    (FreshVars.handleCall Samples.ir Samples.cm Samples.cprotect Samples.liveVars 4
       (Samples.unprotect 1) None None (Samples.tracking true)).1) = [None; Some Samples.x].
Proof. repeat split. Qed.

(** [UNPROTECT(1)] of the older copy on a protect stack of two with an
    anonymous value on top. *)
Lemma legacy_unprotect_keeps_anonymous_top_witness :
  Legacy.pstack (Legacy.freshVars Samples.legacy_tracking) = [Some Samples.x; None] /\
  Legacy.handleProtectionCall Samples.ir Samples.cm 4 (Samples.unprotect 1) None
    Samples.legacy_tracking = (Samples.legacy_tracking, Returned).
Proof.
  split; [reflexivity|].
  apply (legacy_unprotect_keeps_anonymous_top Samples.ir Samples.cm 4 9%positive
           Samples.fn_unprotect 1%N [] None (mkCalled Samples.fn_unprotect "Rf_unprotect")
           Samples.legacy_tracking);
    [reflexivity | reflexivity | simpl; lia | reflexivity].
Defined.

Lemma unprotect_beyond_stack_confuses_witness :
  FreshVars.handleCall Samples.ir Samples.cm Samples.cprotect Samples.liveVars 4
    (Samples.unprotect 3) None None (Samples.tracking false) =
  (mkRefs (set_confused true (freshVars (Samples.tracking false)))
     (mkLineMessenger
        [mkLineInfo "[UP] attempt to unprotect more items (3) than protected (2), results will be incomplete"
           (Some (AtInst 9))] [])
     1 ∅, Returned).
Proof.
  destruct (unprotect_beyond_stack_confuses Samples.ir Samples.cm Samples.cprotect
              Samples.liveVars 4) as (Hcurrent & _ & _).
  destruct (Hcurrent 9%positive Samples.fn_unprotect [ConstantInt 3] None None
              (mkCalled Samples.fn_unprotect "Rf_unprotect") (ConstantInt 3) 3%N
              (Samples.tracking false)) as [Hrun _];
    [reflexivity | reflexivity | reflexivity | reflexivity | simpl; lia | reflexivity |].
  exact Hrun.
Defined.

(** On a confused trace an [UNPROTECT(3)] of a stack of two emits nothing. *)
Lemma confused_unprotect_beyond_stack_is_silent :
  confused (freshVars (Samples.tracking true)) = true /\
  length (pstack (freshVars (Samples.tracking true))) = 2%nat /\
  FreshVars.handleCall Samples.ir Samples.cm Samples.cprotect Samples.liveVars 4
    (Samples.unprotect 3) None None (Samples.tracking true) =
  (Samples.tracking true, Returned) /\
  lineBuffer (msg (Samples.tracking true)) = [].
Proof. repeat split. Qed.



Lemma confused_trace_reports_only_allocating_arguments_witness :
  onlyAllocatingArguments Samples.cons_allocs (Samples.tracking true)
    (FreshVars.handleFreshVarsForNonTerminator Samples.ir Samples.cm Samples.cprotect
       Samples.liveVars 4 7 Samples.cons_allocs None None (Samples.tracking true)).1.
Proof.
  apply (confused_trace_reports_only_allocating_arguments Samples.ir Samples.cm
           Samples.cprotect Samples.liveVars 4 7 Samples.cons_allocs None None
           (Samples.tracking true)).
  reflexivity.
Defined.

(** A finding of the fresh variables emitted on a confused trace:
    [cons(allocVector(..), allocVector(..))]. *)
Lemma confused_trace_still_reports :
  confused (freshVars (Samples.tracking true)) = true /\
  lineBuffer (msg (Samples.tracking true)) = [] /\
  lineBuffer (msg
    (FreshVars.handleFreshVarsForNonTerminator Samples.ir Samples.cm Samples.cprotect
       Samples.liveVars 4 7 Samples.cons_allocs None None (Samples.tracking true)).1) =
  [mkLineInfo "[UP] calling allocating function Rf_cons with argument allocated using Rf_allocVector"
     (Some (AtInst 10))].
Proof. repeat split. Qed.

(* ================================================================== *)
(** * Conditional messages *)
(* ================================================================== *)

Lemma cm_find_erase u w m :
  cm_find u (cm_erase w m) = if bool_decide (u = w) then None else cm_find u m.
Proof.
  unfold cm_erase. induction m as [|[k d] m IH].
  - simpl. by case_bool_decide.
  - rewrite filter_cons. simpl. destruct (decide (k ≠ w)) as [Hne|Heq]; simpl.
    + rewrite IH. repeat case_bool_decide; simplify_eq; done.
    + apply dec_stable in Heq. subst k. rewrite IH.
      repeat case_bool_decide; simplify_eq; done.
Qed.

Lemma cm_find_erase_eq w m : cm_find w (cm_erase w m) = None.
Proof. rewrite cm_find_erase. by rewrite bool_decide_eq_true_2. Qed.

Lemma elem_of_ordered_keys {V} (m : gmap positive V) v :
  v ∈ (ordered m).*1 <-> is_Some (m !! v).
Proof.
  unfold ordered. rewrite list_elem_of_fmap. split.
  - intros ([k x] & -> & Hin). simpl.
    rewrite merge_sort_Permutation in Hin. apply elem_of_map_to_list in Hin. eauto.
  - intros [x Hx]. exists (v, x). split; [done|].
    rewrite merge_sort_Permutation. by apply elem_of_map_to_list.
Qed.

Section Conditional.

Variable ir : IRInfo.
Variable cm : CalledModuleTy.
Variable cprotect : CProtectInfo.
Variable liveVars : LiveVarsTy.
Variable MAX_PSTACK_SIZE : nat.
Variable aliasChainBound : nat.

#[local] Instance grows_preorder : PreOrder grows.
Proof. split; unfold grows; [by intros r | intros r1 r2 r3 H1 H2 li Hli; auto]. Qed.

Lemma grows_info text at_ r : grows r (on_msg (msg_info text at_) r).
Proof. intros li Hli. apply elem_of_emit. by left. Qed.

Lemma grows_flush d r : grows r (on_msg (delayed_flush d) r).
Proof. intros li Hli. apply elem_of_delayed_flush. by left. Qed.

Ltac grows_modify :=
  try apply grows_info; try apply grows_flush; try (by unfold grows).

Lemma issueConditionalMessage_grows in_ var text r :
  follows grows (FreshVars.issueConditionalMessage liveVars in_ var text) r.
Proof. unfold FreshVars.issueConditionalMessage. follow; grows_modify. Qed.

Lemma handleLoadOfFresh_grows in_ var n g r :
  follows grows (FreshVars.handleLoadOfFresh ir cm cprotect liveVars in_ var n g) r.
Proof.
  unfold FreshVars.handleLoadOfFresh.
  follow; try apply issueConditionalMessage_grows; grows_modify.
Qed.

(** ** Pruning at an allocating call *)

#[local] Instance pruned_preorder lv : PreOrder (pruned lv).
Proof.
  split.
  - intros r. unfold pruned, emitsOnly. repeat split; auto. by intros li Hli.
  - intros r1 r2 r3 (Hc1 & Hv1 & Hg1 & He1) (Hc2 & Hv2 & Hg2 & He2).
    split; [|split; [|split]].
    + intros u. destruct (Hc2 u) as [->| ->]; auto.
    + intros u. destruct (Hv2 u) as [->| ->]; auto.
    + by etransitivity.
    + intros li Hli. destruct (He2 li Hli) as [H|(w & Hu & Hk & Hw)]; [by apply He1|].
      right. exists w. split; [done|]. split; [done|].
      unfold pendingOf in *. destruct (Hc1 w) as [Hn|Hs]; rewrite ?Hn, ?Hs in Hw; [|done].
      by apply elem_of_nil in Hw.
Qed.

Lemma pruneOne_pruned in_ lv w r :
  liveVars in_ = Some lv ->
  exists r',
    FreshVars.pruneOne liveVars in_ w r = (r', Next tt) /\
    pruned lv r r' /\
    (forall u, u <> w -> cm_find u (condMsgs (freshVars r')) = cm_find u (condMsgs (freshVars r))) /\
    (isPossiblyUsed lv w = false ->
       vars (freshVars r') !! w = None /\ cm_find w (condMsgs (freshVars r')) = None) /\
    (isPossiblyUsed lv w = true -> isPossiblyKilled lv w = false ->
       cm_find w (condMsgs (freshVars r')) = None /\
       forall li, li ∈ pendingOf w (freshVars r) -> li ∈ lineBuffer (msg r')).
Proof.
  intros Hlv. unfold FreshVars.pruneOne. rewrite Hlv.
  destruct (isPossiblyUsed lv w) eqn:Hu; simpl.
  - destruct (isPossiblyKilled lv w) eqn:Hk; simpl.
    + exists r. split; [done|]. split; [reflexivity|]. split; [done|]. split; done.
    + run. destruct (cm_find w (condMsgs (freshVars r))) as [d|] eqn:Hd; simpl.
      * eexists. split; [done|]. split; [|split; [|split]].
        -- unfold pruned, emitsOnly; simpl. split; [|split; [|split]].
           ++ intros u. rewrite cm_find_erase. case_bool_decide; auto.
           ++ auto.
           ++ apply grows_flush.
           ++ intros li [H|H]%elem_of_delayed_flush; [by left|]. right. exists w.
              unfold pendingOf. by rewrite Hd.
        -- intros u Hne. simpl. rewrite cm_find_erase. by rewrite bool_decide_eq_false_2.
        -- done.
        -- intros _ _. simpl. split; [apply cm_find_erase_eq|].
           intros li Hli. apply elem_of_delayed_flush. right.
           unfold pendingOf in Hli. by rewrite Hd in Hli.
      * exists r. split; [done|]. split; [reflexivity|]. split; [done|]. split; [done|].
        intros _ _. split; [done|]. intros li Hli. unfold pendingOf in Hli.
        rewrite Hd in Hli. by apply elem_of_nil in Hli.
  - run. eexists. split; [done|]. split; [|split; [|split]].
    + unfold pruned, emitsOnly; simpl. split; [|split; [|split]].
      * intros u. rewrite cm_find_erase. case_bool_decide; auto.
      * intros u. destruct (decide (u = w)) as [->|Hne].
        -- left. apply lookup_delete_eq.
        -- right. by apply lookup_delete_ne.
      * by intros li Hli.
      * intros li Hli. by left.
    + intros u Hne. simpl. rewrite cm_find_erase. by rewrite bool_decide_eq_false_2.
    + intros _. simpl. split; [apply lookup_delete_eq | apply cm_find_erase_eq].
    + done.
Qed.

Lemma forEach_pruneOne in_ lv l r :
  liveVars in_ = Some lv ->
  exists r',
    forEach l (FreshVars.pruneOne liveVars in_) r = (r', Next tt) /\
    pruned lv r r' /\
    (forall v, v ∈ l -> isPossiblyUsed lv v = false ->
       vars (freshVars r') !! v = None /\ cm_find v (condMsgs (freshVars r')) = None) /\
    (forall v, v ∈ l -> isPossiblyUsed lv v = true -> isPossiblyKilled lv v = false ->
       cm_find v (condMsgs (freshVars r')) = None /\
       forall li, li ∈ pendingOf v (freshVars r) -> li ∈ lineBuffer (msg r')).
Proof.
  intros Hlv. revert r. induction l as [|w l IH]; intros r.
  - exists r. split; [done|]. split; [reflexivity|].
    split; intros v Hv; by apply elem_of_nil in Hv.
  - destruct (pruneOne_pruned in_ lv w r Hlv) as (r1 & H1 & Hp1 & Ho1 & Hd1 & Hf1).
    destruct (IH r1) as (r2 & H2 & Hp2 & Hd2 & Hf2).
    exists r2. split; [|split; [|split]].
    + simpl. unfold bind. by rewrite H1.
    + by etransitivity.
    + intros v Hv Hu. destruct (decide (v = w)) as [->|Hne].
      * destruct (Hd1 Hu) as [Hv1 Hc1]. destruct Hp2 as (Hc & Hvv & _ & _). split.
        -- destruct (Hvv w) as [->| ->]; done.
        -- destruct (Hc w) as [->| ->]; done.
      * apply Hd2; [|done]. apply elem_of_cons in Hv. by destruct Hv.
    + intros v Hv Hu Hk. destruct (decide (v = w)) as [->|Hne].
      * destruct (Hf1 Hu Hk) as [Hc1 He1]. destruct Hp2 as (Hc & _ & Hg & _). split.
        -- destruct (Hc w) as [->| ->]; done.
        -- intros li Hli. apply Hg. by apply He1.
      * apply elem_of_cons in Hv. destruct Hv as [?|Hv]; [done|].
        destruct (Hf2 v Hv Hu Hk) as [Hc2 He2]. split; [done|].
        intros li Hli. apply He2. unfold pendingOf in *. by rewrite Ho1.
Qed.

Lemma pruneFreshVars_pruned in_ lv r :
  liveVars in_ = Some lv ->
  exists r',
    FreshVars.pruneFreshVars liveVars in_ r = (r', Next tt) /\
    pruned lv r r' /\
    (forall v, is_Some (vars (freshVars r) !! v) -> isPossiblyUsed lv v = false ->
       vars (freshVars r') !! v = None /\ cm_find v (condMsgs (freshVars r')) = None) /\
    (forall v, is_Some (vars (freshVars r) !! v) ->
       isPossiblyUsed lv v = true -> isPossiblyKilled lv v = false ->
       cm_find v (condMsgs (freshVars r')) = None /\
       forall li, li ∈ pendingOf v (freshVars r) -> li ∈ lineBuffer (msg r')).
Proof.
  intros Hlv.
  destruct (forEach_pruneOne in_ lv (ordered (vars (freshVars r))).*1 r Hlv)
    as (r' & H & Hp & Hd & Hf).
  exists r'. split; [|split; [done|split]].
  - unfold FreshVars.pruneFreshVars. by run.
  - intros v Hv. apply Hd. by apply elem_of_ordered_keys.
  - intros v Hv. apply Hf. by apply elem_of_ordered_keys.
Qed.

(** ** Stores *)

Local Abbreviation storing := (storing ir).

#[local] Instance storing_preorder : PreOrder storing.
Proof.
  split; unfold storing, emitsOnly.
  - intros r. split; [done|]. by left.
  - intros r1 r2 r3 [Hc1 He1] [Hc2 He2]. split; [congruence|].
    intros li Hli. destruct (He2 li Hli); auto.
Qed.

Ltac storing_modify :=
  try (unfold storing, emitsOnly; simpl; split; [done | by left]).

Lemma isVarCheckedFresh_storing var r :
  follows storing (FreshVars.isVarCheckedFresh ir var) r.
Proof.
  unfold FreshVars.isVarCheckedFresh. follow; storing_modify.
  unfold storing, emitsOnly, on_msg, msg_info. simpl. split; [done|].
  intros li [Hold| ->]%elem_of_emit; [by left|]. right. by exists var.
Qed.

Lemma isVarCheckedFresh_value var r :
  exists r',
    FreshVars.isVarCheckedFresh ir var r = (r', Next (checkedFresh ir (checkedVarsCache r) var)) /\
    freshVars r' = freshVars r /\
    (checkedFresh ir (checkedVarsCache r) var = true -> msg r' = msg r).
Proof.
  unfold FreshVars.isVarCheckedFresh, checkedFresh.
  destruct (isSEXP ir var); simpl; [|by eexists].
  run. destruct (checkedVarsCache r !! var) as [b|]; simpl; [by eexists|].
  destruct (FreshVars.onlyLoadStoreUses ir var); simpl; eexists; (split; [done|]); by split.
Qed.

Lemma handleStoreToVar_storing in_ var val g r :
  let r' := (FreshVars.handleStoreToVar ir cm in_ var val g r).1 in
  cm_find var (condMsgs (freshVars r')) = None /\ emitsOnly (isIgnoringNotice ir) (msg r) (msg r').
Proof.
  unfold FreshVars.handleStoreToVar. unfold bind at 1. unfold modify at 1.
  set (r1 := on_freshVars (set_condMsgs (cm_erase var)) r).
  assert (H : follows storing
    (bind (gets freshVars) (fun fv =>
       match
         match getCalledFunction cm val g with
         | Some srcFun =>
             if bool_decide (fname (fun_ srcFun) = "Rf_protect") ||
                bool_decide (fname (fun_ srcFun) = "Rf_protectWithIndex") ||
                bool_decide (fname (fun_ srcFun) = "Rf_Reprotect") then Some return_
             else if isPossibleCAllocator cm srcFun then
               Some
                 match FreshVars.scanStoreUsers ir (vars fv) val (users ir val) with
                 | FreshVars.ScanProtected => return_
                 | FreshVars.ScanSetter => bind (modify (on_freshVars (set_vars (delete var)))) (fun _ => return_)
                 | FreshVars.ScanNone => bind (modify (on_freshVars (set_vars <[var := 0]>))) (fun _ => return_)
                 end
             else None
         | None => None
         end
       with
       | Some done => done
       | None =>
           bind match FreshVars.derivedFrom val with
                | Some dvars =>
                    bind (FreshVars.isVarCheckedFresh ir dvars) (fun b =>
                    bind (gets freshVars) (fun fv =>
                    ret (b && bool_decide (vars fv !! dvars = Some 0))))
                | None => ret false
                end
             (fun derived =>
                if derived then bind (modify (on_freshVars (set_vars <[var := 0]>))) (fun _ => return_)
                else modify (on_freshVars (set_vars (delete var))))
       end)) r1).
  { follow; try apply isVarCheckedFresh_storing; storing_modify.
    repeat (case_match; simplify_eq/=); follow; storing_modify. }
  unfold follows, storing in H. destruct H as [Hc He]. simpl.
  split; [|exact He].
  rewrite Hc. unfold r1. simpl. apply cm_find_erase_eq.
Qed.

End Conditional.

(* ================================================================== *)
(** * Loads, stores and pending messages *)
(* ================================================================== *)

Lemma cm_find_insert u w d m :
  cm_find w m = None ->
  cm_find u (cm_insert w d m) = if bool_decide (u = w) then Some d else cm_find u m.
Proof.
  intros Hw. unfold cm_insert. rewrite Hw. simpl.
  repeat case_bool_decide; simplify_eq; done.
Qed.

Lemma cm_find_set u w d m :
  is_Some (cm_find w m) ->
  cm_find u (cm_set w d m) = if bool_decide (u = w) then Some d else cm_find u m.
Proof.
  induction m as [|[k d'] m IH]; simpl.
  - by intros [? ?].
  - intros H.
    repeat case_bool_decide; simplify_eq; simpl; try done;
      repeat case_bool_decide; simplify_eq; try done;
      rewrite IH by done; by repeat case_bool_decide.
Qed.

Section Loads.

Variable ir : IRInfo.
Variable cm : CalledModuleTy.
Variable cprotect : CProtectInfo.
Variable liveVars : LiveVarsTy.
Variable MAX_PSTACK_SIZE : nat.
Variable aliasChainBound : nat.

#[local] Instance issuingAt_preorder in_ v : PreOrder (issuingAt in_ v).
Proof.
  split; unfold issuingAt.
  - intros r li Hli. by left.
  - intros r1 r2 r3 H1 H2 li Hli. destruct (H2 li Hli); auto.
Qed.

Lemma issueConditionalMessage_issuingAt in_ v w text r :
  follows (issuingAt in_ v) (FreshVars.issueConditionalMessage liveVars in_ w text) r.
Proof.
  unfold FreshVars.issueConditionalMessage. follow; gets_inv.
  - intros li Hli. by left.
  - intros li Hli. by left.
  - intros li. unfold pendingOf. simpl. rewrite cm_find_set by (by eexists).
    case_bool_decide; [|by left]. subst. simpl. unfold delayed_info.
    intros [Hli| ->%list_elem_of_singleton]%elem_of_app; [|by right].
    left. by rewrite Heqo.
  - intros li. unfold pendingOf. simpl. rewrite cm_find_insert by done.
    case_bool_decide; [|by left]. simpl. unfold delayed_info. simpl.
    intros ->%list_elem_of_singleton. by right.
Qed.

Lemma handleLoadOfFresh_issuingAt in_ v n g r :
  follows (issuingAt in_ v) (FreshVars.handleLoadOfFresh ir cm cprotect liveVars in_ v n g) r.
Proof.
  unfold FreshVars.handleLoadOfFresh.
  follow; try apply issueConditionalMessage_issuingAt; by (intros li Hli; left).
Qed.

Lemma flushConditionalMessages_flushes v r :
  exists r1,
    FreshVars.flushConditionalMessages v r = (r1, Next tt) /\
    cm_find v (condMsgs (freshVars r1)) = None /\
    vars (freshVars r1) = vars (freshVars r) /\
    (forall li, li ∈ pendingOf v (freshVars r) -> li ∈ lineBuffer (msg r1)).
Proof.
  unfold FreshVars.flushConditionalMessages, pendingOf. run.
  destruct (cm_find v (condMsgs (freshVars r))) as [d|] eqn:Hd; simpl.
  - eexists. split; [done|]. simpl. split; [apply cm_find_erase_eq|]. split; [done|].
    intros li Hli. apply elem_of_delayed_flush. by right.
  - exists r. split; [done|]. split; [done|]. split; [done|].
    intros li Hli. by apply elem_of_nil in Hli.
Qed.

Lemma handleLoad_unfold a v g r :
  confused (freshVars r) = false ->
  exists r1,
    FreshVars.flushConditionalMessages v r = (r1, Next tt) /\
    FreshVars.handleLoad ir cm cprotect liveVars (LoadInst a (Alloca v)) g r =
    match vars (freshVars r1) !! v with
    | None => (r1, Returned)
    | Some n => FreshVars.handleLoadOfFresh ir cm cprotect liveVars (LoadInst a (Alloca v)) v n g r1
    end.
Proof.
  intros Hc.
  destruct (flushConditionalMessages_flushes v r) as (r1 & Hf & _).
  exists r1. split; [done|].
  unfold FreshVars.handleLoad. unfold bind at 1. unfold gets at 1. rewrite Hc. simpl.
  unfold bind at 1. rewrite Hf. unfold bind at 1. unfold gets at 1.
  by destruct (vars (freshVars r1) !! v).
Qed.

Lemma handleLoad_flushes a v g r :
  confused (freshVars r) = false ->
  let r' := (FreshVars.handleLoad ir cm cprotect liveVars (LoadInst a (Alloca v)) g r).1 in
  (forall li, li ∈ pendingOf v (freshVars r) -> li ∈ lineBuffer (msg r')) /\
  (forall li, li ∈ pendingOf v (freshVars r') -> where_ li = Some (AtInst a)).
Proof.
  intros Hc r'. subst r'.
  destruct (handleLoad_unfold a v g r Hc) as (r1 & Hf & ->).
  destruct (flushConditionalMessages_flushes v r) as (r1' & Hf' & Hn & Hv & He).
  rewrite Hf in Hf'. simplify_eq.
  destruct (vars (freshVars r1') !! v) as [n|] eqn:Hn1; simpl.
  - pose proof (handleLoadOfFresh_grows ir cm cprotect liveVars (LoadInst a (Alloca v)) v n g r1') as Hg.
    pose proof (handleLoadOfFresh_issuingAt (LoadInst a (Alloca v)) v n g r1') as Hi.
    unfold follows in *. split.
    + intros li Hli. apply Hg. by apply He.
    + intros li Hli. destruct (Hi li Hli) as [Hold|Hat]; [|done].
      unfold pendingOf in Hold. rewrite Hn in Hold. by apply elem_of_nil in Hold.
  - split; [done|]. intros li Hli. unfold pendingOf in Hli. rewrite Hn in Hli.
    by apply elem_of_nil in Hli.
Qed.

Lemma handleStore_discards a val v g balance r :
  confused (freshVars r) = false ->
  isStoreToStructureElement ir (StoreInst a val (Alloca v)) = None ->
  checkedFresh ir (checkedVarsCache r) v = true ->
  let r' := (FreshVars.handleStore ir cm aliasChainBound (StoreInst a val (Alloca v)) g balance r).1 in
  cm_find v (condMsgs (freshVars r')) = None /\
  emitsOnly (isIgnoringNotice ir) (msg r) (msg r').
Proof.
  intros Hc Hs Hf r'. subst r'.
  destruct (isVarCheckedFresh_value ir v r) as (r1 & H1 & Hfv & Hm).
  rewrite Hf in H1. specialize (Hm Hf).
  assert (FreshVars.handleStore ir cm aliasChainBound (StoreInst a val (Alloca v)) g balance r =
          FreshVars.handleStoreToVar ir cm (StoreInst a val (Alloca v)) v val g r1) as ->.
  { unfold FreshVars.handleStore. unfold bind at 1. unfold gets at 1. rewrite Hc. simpl.
    rewrite Hs. simpl. unfold bind at 1. by rewrite H1. }
  pose proof (handleStoreToVar_storing ir cm (StoreInst a val (Alloca v)) v val g r1) as [Hn He].
  split; [exact Hn|]. by rewrite <- Hm.
Qed.

End Loads.

Section PendingMessages.

Variable ir : IRInfo.
Variable cm : CalledModuleTy.
Variable cprotect : CProtectInfo.
Variable liveVars : LiveVarsTy.
Variable aliasChainBound : nat.

(** C6 (as amended).  On a trace that is not confused, the records
    pending for a tracked variable [v] are (a) erased, none of them being
    emitted, by a store into [v]; (b) erased, none of them being emitted,
    when liveness at an allocating call shows that [v], a variable in
    [vars], is not possibly used any more; (c) all emitted, and erased, by
    the next load of [v], and at an allocating call when liveness shows
    that [v], a variable in [vars], is possibly used but not possibly
    killed.  A load may leave for [v] a record that it issues itself. *)
Theorem conditional_messages_discarded_or_flushed :
  (forall a val v g balance r,
     confused (freshVars r) = false ->
     isStoreToStructureElement ir (StoreInst a val (Alloca v)) = None ->
     checkedFresh ir (checkedVarsCache r) v = true ->
     let r' := (FreshVars.handleStore ir cm aliasChainBound
                  (StoreInst a val (Alloca v)) g balance r).1 in
     cm_find v (condMsgs (freshVars r')) = None /\
     emitsOnly (isIgnoringNotice ir) (msg r) (msg r')) /\
  (forall in_ lv v r,
     liveVars in_ = Some lv ->
     is_Some (vars (freshVars r) !! v) ->
     isPossiblyUsed lv v = false ->
     let r' := (FreshVars.pruneFreshVars liveVars in_ r).1 in
     cm_find v (condMsgs (freshVars r')) = None /\
     vars (freshVars r') !! v = None /\
     emitsOnly (fun li => exists w, w <> v /\ li ∈ pendingOf w (freshVars r)) (msg r) (msg r')) /\
  (forall a v g r,
     confused (freshVars r) = false ->
     let r' := (FreshVars.handleLoad ir cm cprotect liveVars (LoadInst a (Alloca v)) g r).1 in
     (forall li, li ∈ pendingOf v (freshVars r) -> li ∈ lineBuffer (msg r')) /\
     (forall li, li ∈ pendingOf v (freshVars r') -> where_ li = Some (AtInst a))) /\
  (forall in_ lv v r,
     liveVars in_ = Some lv ->
     is_Some (vars (freshVars r) !! v) ->
     isPossiblyUsed lv v = true ->
     isPossiblyKilled lv v = false ->
     let r' := (FreshVars.pruneFreshVars liveVars in_ r).1 in
     cm_find v (condMsgs (freshVars r')) = None /\
     (forall li, li ∈ pendingOf v (freshVars r) -> li ∈ lineBuffer (msg r'))) /\
  (forall in_ tgt args g,
     isCAllocating cm tgt = true ->
     FreshVars.handleAllocatingCall ir cm cprotect liveVars in_ tgt args g false =
     bind (FreshVars.checkAllocatingArguments cm cprotect in_ tgt args g) (fun _ =>
       bind (call (FreshVars.pruneFreshVars liveVars in_)) (fun _ =>
         FreshVars.checkFreshVarsAtCall ir liveVars in_ tgt (fun_ tgt) args))).
Proof.
  split; [|split; [|split; [|split]]].
  - intros. by apply handleStore_discards.
  - intros in_ lv v r Hlv Hv Hu r'.
    destruct (pruneFreshVars_pruned liveVars in_ lv r Hlv) as (r1 & H1 & Hp & Hd & _).
    subst r'. rewrite H1. simpl. destruct (Hd v Hv Hu) as [Hvn Hcn].
    split; [done|]. split; [done|].
    destruct Hp as (_ & _ & _ & He). intros li Hli.
    destruct (He li Hli) as [?|(w & Hw & _ & Hin)]; [by left|].
    right. exists w. split; [|done]. intros ->. congruence.
  - intros. by apply handleLoad_flushes.
  - intros in_ lv v r Hlv Hv Hu Hk r'.
    destruct (pruneFreshVars_pruned liveVars in_ lv r Hlv) as (r1 & H1 & _ & _ & Hf).
    subst r'. rewrite H1. simpl. by apply Hf.
  - intros in_ tgt args g Ha. unfold FreshVars.handleAllocatingCall. by rewrite Ha.
Qed.

End PendingMessages.

Lemma conditional_messages_discarded_or_flushed_witness :
  (cm_find Samples.x (condMsgs (freshVars
     (FreshVars.handleStore Samples.ir Samples.cm 7 Samples.store_x None None
        (Samples.tracking false)).1)) = None) /\
  (cm_find Samples.x (condMsgs (freshVars
     (FreshVars.pruneFreshVars Samples.liveVars_dead Samples.alloc_y
        (Samples.tracking false)).1)) = None) /\
  (Samples.pending_x ∈ lineBuffer (msg
     (FreshVars.handleLoad Samples.ir Samples.cm Samples.cprotect Samples.liveVars
        Samples.load_x None (Samples.tracking false)).1)) /\
  (Samples.pending_x ∈ lineBuffer (msg
     (FreshVars.pruneFreshVars Samples.liveVars_used Samples.alloc_y
        (Samples.tracking false)).1)).
Proof.
  split; [|split; [|split]].
  - destruct (conditional_messages_discarded_or_flushed Samples.ir Samples.cm
                Samples.cprotect Samples.liveVars 7) as (Hstore & _).
    apply (Hstore 2%positive Samples.alloc_x Samples.x None None (Samples.tracking false));
      reflexivity.
  - destruct (conditional_messages_discarded_or_flushed Samples.ir Samples.cm
                Samples.cprotect Samples.liveVars_dead 7) as (_ & Hdead & _).
    apply (Hdead Samples.alloc_y (mkLiveness (fun _ => false) (fun _ => true) (fun _ => false))
             Samples.x (Samples.tracking false)); [reflexivity | by eexists | reflexivity].
  - destruct (conditional_messages_discarded_or_flushed Samples.ir Samples.cm
                Samples.cprotect Samples.liveVars 7) as (_ & _ & Hload & _).
    apply (Hload 5%positive Samples.x None (Samples.tracking false)); [reflexivity|].
    vm_compute. by left.
  - destruct (conditional_messages_discarded_or_flushed Samples.ir Samples.cm
                Samples.cprotect Samples.liveVars_used 7) as (_ & _ & _ & Hused & _).
    apply (Hused Samples.alloc_y (mkLiveness (fun _ => true) (fun _ => false) (fun _ => false))
             Samples.x (Samples.tracking false));
      [reflexivity | by eexists | reflexivity | reflexivity |].
    vm_compute. by left.
Defined.

(** On a confused trace a store into [x] leaves the record pending for
    [x], and a load of [x] does not emit it. *)
Lemma confused_trace_keeps_pending_messages :
  confused (freshVars (Samples.tracking true)) = true /\
  cm_find Samples.x (condMsgs (freshVars (Samples.tracking true))) = Some [Samples.pending_x] /\
  cm_find Samples.x (condMsgs (freshVars
    (FreshVars.handleStore Samples.ir Samples.cm 7 Samples.store_x None None
       (Samples.tracking true)).1)) = Some [Samples.pending_x] /\
  FreshVars.handleLoad Samples.ir Samples.cm Samples.cprotect Samples.liveVars
    Samples.load_x None (Samples.tracking true) = (Samples.tracking true, Returned) /\
  lineBuffer (msg (Samples.tracking true)) = [].
Proof. repeat split. Qed.

(* ================================================================== *)
(** * The scanner of allocating arguments (maacheck.cpp) *)
(* ================================================================== *)

Module MaacheckProofs.
Import Maacheck.
Section Scanner.
Variable isAllocatingFunction : Function -> bool.
Variable possibleAllocators : gset positive.

Local Abbreviation classify := (classifyArgumentExpression isAllocatingFunction possibleAllocators).
Local Abbreviation opKind := (operandKind isAllocatingFunction possibleAllocators).
Local Abbreviation exprKind := (expressionKind isAllocatingFunction possibleAllocators).
Local Abbreviation classified_ := (classified isAllocatingFunction possibleAllocators).

Lemma kindValue_inj k1 k2 : kindValue k1 = kindValue k2 -> k1 = k2.
Proof. by destruct k1, k2. Qed.

Lemma expressionKind_classify v : exprKind v (classify v).
Proof.
  destruct v; simpl; try (apply kind_noalloc; intros; discriminate).
  destruct calledFunction as [f|]; [|apply kind_noalloc; intros; discriminate].
  destruct (isAllocatingFunction f) eqn:Ha; simpl.
  - case_bool_decide; [by apply kind_fresh | by apply kind_allocating].
  - apply kind_noalloc. intros ? ? ? [= _ <- _]. done.
Qed.

Lemma expressionKind_unique v k : exprKind v k -> k = classify v.
Proof.
  destruct 1 as [a f args Ha Hp|a f args Ha Hp|v Hv]; simpl.
  - rewrite Ha. simpl. by rewrite bool_decide_eq_true_2.
  - rewrite Ha. simpl. by rewrite bool_decide_eq_false_2.
  - destruct v; try done. destruct calledFunction as [f|]; [|done].
    simpl. by rewrite (Hv _ _ _ eq_refl).
Qed.

Local Abbreviation maxKind := (maxKind isAllocatingFunction possibleAllocators).

Lemma foldl_maxKind_spec incoming k0 :
  let k := foldl maxKind k0 incoming in
  (kindValue k0 <= kindValue k)%nat /\
  (forall v, v ∈ incoming -> (kindValue (classify v) <= kindValue k)%nat) /\
  (k = k0 \/ exists v, v ∈ incoming /\ classify v = k).
Proof.
  revert k0. induction incoming as [|v l IH]; intros k0; simpl.
  - split; [lia|]. split; [|by left]. intros v Hv. by apply elem_of_nil in Hv.
  - destruct (IH (maxKind k0 v)) as (H1 & H2 & H3).
    assert (Hm : (kindValue k0 <= kindValue (maxKind k0 v))%nat /\
                 (kindValue (classify v) <= kindValue (maxKind k0 v))%nat /\
                 (maxKind k0 v = k0 \/ maxKind k0 v = classify v)).
    { unfold maxKind. case_bool_decide; repeat split; try lia; auto. }
    destruct Hm as (Hm1 & Hm2 & Hm3).
    split; [lia|]. split.
    + intros w [->|Hw]%elem_of_cons; [lia | by apply H2].
    + destruct H3 as [H3|(w & Hw & Hk)].
      * rewrite H3. destruct Hm3 as [->|Hc]; [by left|].
        right. exists v. split; [by left | done].
      * right. exists w. split; [by right | done].
Qed.

Lemma classified_operandKind o : classified_ o (opKind o).
Proof.
  destruct o; try (apply classified_other; [intros; discriminate | apply expressionKind_classify]).
  simpl. fold maxKind.
  destruct (foldl_maxKind_spec incoming AK_NOALLOC) as (_ & H2 & H3).
  apply classified_phi.
  - intros v Hv. exists (classify v). split; [apply expressionKind_classify | by apply H2].
  - destruct H3 as [H3|(v & Hv & Hk)]; [by left|].
    right. exists v. split; [done|]. rewrite <- Hk. apply expressionKind_classify.
Qed.

Lemma classified_unique o k : classified_ o k -> k = opKind o.
Proof.
  destruct 1 as [a incoming k Hle Hmax|o k Hn Hk].
  - simpl. fold maxKind.
    destruct (foldl_maxKind_spec incoming AK_NOALLOC) as (_ & H2 & H3).
    apply kindValue_inj. apply Nat.le_antisymm.
    + destruct Hmax as [->|(v & Hv & Hk)]; [simpl; lia|].
      apply expressionKind_unique in Hk. rewrite Hk. by apply H2.
    + destruct H3 as [->|(v & Hv & <-)]; [simpl; lia|].
      destruct (Hle v Hv) as (kv & Hkv & Hl).
      apply expressionKind_unique in Hkv. by rewrite <- Hkv.
  - apply expressionKind_unique in Hk. rewrite Hk.
    destruct o; try done. by destruct (Hn addr incoming).
Qed.

Lemma Forall2_classified os ks : Forall2 classified_ os ks <-> ks = map opKind os.
Proof.
  split.
  - induction 1 as [|o k os ks Hk _ IH]; [done|]. simpl.
    by rewrite (classified_unique _ _ Hk), IH.
  - intros ->. induction os; constructor; [apply classified_operandKind | done].
Qed.

Lemma countOperands_spec inst :
  countOperands isAllocatingFunction possibleAllocators inst =
  (length (filter (fun k => (kindValue AK_FRESH <= kindValue k)%nat) (map opKind (operandsOf inst))),
   length (filter (fun k => (kindValue AK_ALLOCATING <= kindValue k)%nat) (map opKind (operandsOf inst)))).
Proof.
  unfold countOperands.
  assert (G : forall os nf na,
    foldl (fun '(nFreshObjects, nAllocatingArgs) o =>
             let k := opKind o in
             let nAllocatingArgs :=
               if bool_decide (kindValue AK_ALLOCATING <= kindValue k)%nat
               then S nAllocatingArgs else nAllocatingArgs in
             let nFreshObjects :=
               if bool_decide (kindValue AK_FRESH <= kindValue k)%nat
               then S nFreshObjects else nFreshObjects in
             (nFreshObjects, nAllocatingArgs)) (nf, na) os =
    ((nf + length (filter (fun k => (kindValue AK_FRESH <= kindValue k)%nat) (map opKind os)))%nat,
     (na + length (filter (fun k => (kindValue AK_ALLOCATING <= kindValue k)%nat) (map opKind os)))%nat)).
  { induction os as [|o os IH]; intros nf na; simpl.
    - f_equal; lia.
    - rewrite IH. rewrite !filter_cons.
      destruct (opKind o); simpl;
        repeat case_bool_decide; repeat case_decide; simpl; f_equal; lia. }
  by rewrite G.
Qed.

Variable sourceLocation : Value -> string.
Variable nameOf : Function -> string.

(** C8.  The scanner writes a warning for a call exactly when, the
    operands being classified as the specification says ([classified]: a
    direct call of an allocating function is ALLOCATING, FRESH when the
    callee is a possible allocator, a phi node takes the maximum over its
    incoming values, anything else is NOALLOC), at least two operands are
    ALLOCATING or stronger and at least one is FRESH; the warnings written
    for a function are those of its calls that satisfy this, in order. *)
Theorem scanner_reports_iff_two_allocating_one_fresh :
  (forall inst,
     suspicious isAllocatingFunction possibleAllocators inst = true <->
     exists ks,
       Forall2 classified_ (operandsOf inst) ks /\
       (2 <= length (filter (fun k => (kindValue AK_ALLOCATING <= kindValue k)%nat) ks))%nat /\
       (1 <= length (filter (fun k => (kindValue AK_FRESH <= kindValue k)%nat) ks))%nat) /\
  (forall caller callInfos,
     length (scanCalls isAllocatingFunction possibleAllocators sourceLocation nameOf
               caller callInfos) =
     length (filter (fun cinfo =>
               suspicious isAllocatingFunction possibleAllocators (instruction cinfo) = true)
               callInfos)) /\
  (forall caller cinfo,
     scanCalls isAllocatingFunction possibleAllocators sourceLocation nameOf caller [cinfo] <> [] <->
     suspicious isAllocatingFunction possibleAllocators (instruction cinfo) = true).
Proof.
  split; [|split].
  - intros inst. unfold suspicious. rewrite countOperands_spec.
    rewrite andb_true_iff, !bool_decide_eq_true. split.
    + intros [Ha Hf]. exists (map opKind (operandsOf inst)).
      split; [by apply Forall2_classified | done].
    + intros (ks & ->%Forall2_classified & Ha & Hf). done.
  - intros caller callInfos. unfold scanCalls.
    induction callInfos as [|c l IH]; [done|]. simpl.
    rewrite filter_cons.
    destruct (suspicious isAllocatingFunction possibleAllocators (instruction c)); simpl.
    + by rewrite IH.
    + done.
  - intros caller cinfo. unfold scanCalls. simpl.
    by destruct (suspicious isAllocatingFunction possibleAllocators (instruction cinfo)).
Qed.

End Scanner.
End MaacheckProofs.

(* ================================================================== *)
(** * The visited set *)
(* ================================================================== *)

Section Interning.

Variable hash_combine : N -> Bcheck.HashArg -> N.

Lemma hash_fields s :
  Bcheck.bb (Bcheck.hash hash_combine s) = Bcheck.bb s /\
  Bcheck.balance (Bcheck.hash hash_combine s) = Bcheck.balance s /\
  Bcheck.intGuards (Bcheck.hash hash_combine s) = Bcheck.intGuards s /\
  Bcheck.sexpGuards (Bcheck.hash hash_combine s) = Bcheck.sexpGuards s /\
  Bcheck.freshVars (Bcheck.hash hash_combine s) = Bcheck.freshVars s.
Proof. done. Qed.

Lemma hashArgs_hash s : Bcheck.hashArgs (Bcheck.hash hash_combine s) = Bcheck.hashArgs s.
Proof. done. Qed.

(** States that agree on what [hash()] reads, the conditional messages
    in the same iteration order, have the same hash code. *)
Lemma hash_of_equal_fields s t :
  Bcheck.fields_equal s t = true ->
  condMsgs (Bcheck.freshVars s) = condMsgs (Bcheck.freshVars t) ->
  Bcheck.hashcode (Bcheck.hash hash_combine s) = Bcheck.hashcode (Bcheck.hash hash_combine t).
Proof.
  unfold Bcheck.fields_equal. rewrite !andb_true_iff, !bool_decide_eq_true.
  intros [[[[[[[[[[[[[Hbb Hd] Hsd] Hc] Hcs] _] _] _] Hig] Hsg] Hv] _] Hp] _] Hm.
  simpl. unfold Bcheck.hashArgs.
  by rewrite Hbb, Hd, Hsd, Hc, Hcs, Hig, Hsg, Hv, Hp, Hm.
Qed.

(** [add] when the set holds a state with the same hash code that compares
    equal: [delete this]. *)
Lemma add_rejected this s0 q t e :
  Bcheck.heap e !! this = Some s0 ->
  q ∈ Bcheck.doneSet e ->
  q <> this ->
  Bcheck.heap e !! q = Some t ->
  Bcheck.hashcode t = Bcheck.hashcode (Bcheck.hash hash_combine s0) ->
  Bcheck.fields_equal (Bcheck.hash hash_combine s0) t = true ->
  Bcheck.add hash_combine this e = (Bcheck.on_heap (delete this) e, false).
Proof.
  intros Hthis Hq Hne Hqt Hh He. unfold Bcheck.add. rewrite Hthis.
  set (s := Bcheck.hash hash_combine s0) in *.
  set (e1 := Bcheck.on_heap <[this := s]> e).
  assert (Hf : Bcheck.found_equal e1 this s q = true).
  { unfold Bcheck.found_equal, e1. simpl. rewrite lookup_insert_ne by done. rewrite Hqt.
    rewrite Hh, bool_decide_eq_true_2 by done. simpl.
    unfold Bcheck.BcheckStateTy_equal. simpl. by case_bool_decide. }
  unfold Bcheck.doneSet_find.
  destruct (list_find_elem_of (fun q => Bcheck.found_equal e1 this s q = true)
              (Bcheck.doneSet e1) q Hq Hf) as [[i x] ->].
  simpl. unfold Bcheck.on_heap, e1. simpl. by rewrite delete_insert_eq.
Qed.

(** [add] when no state of the set has the hash code of the new one. *)
Lemma add_accepted this s0 e :
  Bcheck.heap e !! this = Some s0 ->
  (forall q t, q ∈ Bcheck.doneSet e -> <[this := Bcheck.hash hash_combine s0]> (Bcheck.heap e) !! q = Some t ->
     Bcheck.hashcode t <> Bcheck.hashcode (Bcheck.hash hash_combine s0) \/
     Bcheck.BcheckStateTy_equal (this, Bcheck.hash hash_combine s0) (q, t) = false) ->
  Bcheck.add hash_combine this e =
  (Bcheck.on_workList (cons this)
     (Bcheck.on_doneSet (fun ds => ds ++ [this])
        (Bcheck.on_heap <[this := Bcheck.hash hash_combine s0]> e)), true).
Proof.
  intros Hthis Hno. unfold Bcheck.add. rewrite Hthis.
  set (s := Bcheck.hash hash_combine s0) in *.
  set (e1 := Bcheck.on_heap <[this := s]> e).
  unfold Bcheck.doneSet_find.
  destruct (list_find _ _) as [[i q]|] eqn:Hfind; [|done].
  apply list_find_Some in Hfind as (Hq%list_elem_of_lookup_2 & Hf & _).
  unfold Bcheck.found_equal in Hf. simpl in *.
  destruct (<[this:=s]> (Bcheck.heap e) !! q) as [t|] eqn:Ht; [|done].
  apply andb_true_iff in Hf as [Hh%bool_decide_eq_true Heq].
  destruct (Hno q t Hq Ht) as [?|?]; [done | congruence].
Qed.

End Interning.

(* ================================================================== *)
(** * Interning: hash codes and equality *)
(* ================================================================== *)

(** States that agree on every field [BcheckStateTy_equal] compares and
    hold their conditional messages in the same iteration order have the
    same hash code, whatever the combiner. *)
Theorem equal_states_in_the_same_order_hash_equally
    (hash_combine : N -> Bcheck.HashArg -> N) s t :
  Bcheck.fields_equal s t = true ->
  condMsgs (Bcheck.freshVars s) = condMsgs (Bcheck.freshVars t) ->
  Bcheck.hashcode (Bcheck.hash hash_combine s) = Bcheck.hashcode (Bcheck.hash hash_combine t).
Proof. apply hash_of_equal_fields. Qed.

Lemma equal_states_in_the_same_order_hash_equally_witness :
  Bcheck.hashcode (Bcheck.hash Samples.hash_combine (Samples.state_at 2%positive Samples.pending_xy)) =
  Bcheck.hashcode (Bcheck.hash Samples.hash_combine
    (Bcheck.mkState 2%positive initialBalance ∅ ∅ Samples.pending_xy 77%N)).
Proof.
  apply (equal_states_in_the_same_order_hash_equally Samples.hash_combine
           (Samples.state_at 2%positive Samples.pending_xy)
           (Bcheck.mkState 2%positive initialBalance ∅ ∅ Samples.pending_xy 77%N)).
  - vm_compute. reflexivity.
  - reflexivity.
Defined.

(** C2 (as amended).  When the visited set holds a state with the hash
    code of the new one that is equal to it -- the same block, balance
    fields, integer guards, SEXP guards, fresh-variables map, conditional
    messages, protect stack and fresh-variables confused flag -- [add] is a
    no-op: it answers false, the visited set and the work list are as they
    were, and the new state is deleted. *)
Theorem add_of_present_state_is_noop (hash_combine : N -> Bcheck.HashArg -> N)
    this s0 q t e :
  Bcheck.heap e !! this = Some s0 ->
  q ∈ Bcheck.doneSet e ->
  q <> this ->
  Bcheck.heap e !! q = Some t ->
  Bcheck.hashcode t = Bcheck.hashcode (Bcheck.hash hash_combine s0) ->
  Bcheck.fields_equal (Bcheck.hash hash_combine s0) t = true ->
  (Bcheck.add hash_combine this e).2 = false /\
  Bcheck.doneSet (Bcheck.add hash_combine this e).1 = Bcheck.doneSet e /\
  Bcheck.workList (Bcheck.add hash_combine this e).1 = Bcheck.workList e /\
  Bcheck.heap (Bcheck.add hash_combine this e).1 = delete this (Bcheck.heap e) /\
  Bcheck.heap (Bcheck.add hash_combine this e).1 !! this = None /\
  Bcheck.heap (Bcheck.add hash_combine this e).1 !! q = Some t.
Proof.
  intros Hthis Hq Hne Hqt Hh He.
  rewrite (add_rejected hash_combine this s0 q t e) by done. simpl.
  repeat split; [apply lookup_delete_eq | by rewrite lookup_delete_ne].
Qed.

Lemma add_of_present_state_is_noop_witness :
  Bcheck.doneSet
    (Samples.proposedIn (Samples.visited (Samples.state_at 2%positive (freshVars (Samples.tracking false))))
       (Samples.state_at 2%positive (freshVars (Samples.tracking false)))) = [1%positive] /\
  (Bcheck.add Samples.hash_combine 2%positive
    (Samples.proposedIn (Samples.visited (Samples.state_at 2%positive (freshVars (Samples.tracking false))))
       (Samples.state_at 2%positive (freshVars (Samples.tracking false))))).2 = false /\
  Bcheck.doneSet (Bcheck.add Samples.hash_combine 2%positive
    (Samples.proposedIn (Samples.visited (Samples.state_at 2%positive (freshVars (Samples.tracking false))))
       (Samples.state_at 2%positive (freshVars (Samples.tracking false))))).1 = [1%positive] /\
  Bcheck.workList (Bcheck.add Samples.hash_combine 2%positive
    (Samples.proposedIn (Samples.visited (Samples.state_at 2%positive (freshVars (Samples.tracking false))))
       (Samples.state_at 2%positive (freshVars (Samples.tracking false))))).1 = [1%positive] /\
  Bcheck.heap (Bcheck.add Samples.hash_combine 2%positive
    (Samples.proposedIn (Samples.visited (Samples.state_at 2%positive (freshVars (Samples.tracking false))))
       (Samples.state_at 2%positive (freshVars (Samples.tracking false))))).1 !! 2%positive = None.
Proof.
  destruct (add_of_present_state_is_noop Samples.hash_combine 2%positive
              (Samples.state_at 2%positive (freshVars (Samples.tracking false))) 1%positive
              (Bcheck.hash Samples.hash_combine
                 (Samples.state_at 2%positive (freshVars (Samples.tracking false))))
              (Samples.proposedIn (Samples.visited (Samples.state_at 2%positive (freshVars (Samples.tracking false))))
       (Samples.state_at 2%positive (freshVars (Samples.tracking false)))))
    as (H1 & H2 & H3 & _ & H4 & _);
    [reflexivity | by left | done | reflexivity | reflexivity | reflexivity |].
  split; [reflexivity|]. split; [exact H1|]. split; [exact H2|]. split; [exact H3 | exact H4].
Defined.

(** A proposed state that agrees with a visited one on the block, the
    balance, both guard maps, the fresh-variables map, the conditional
    messages and the protect stack, and has the fresh-variables confused
    flag set where the visited one has not, is added and enqueued. *)
Lemma state_differing_in_confused_flag_is_added :
  Bcheck.bb (Samples.state_at 2%positive (freshVars (Samples.tracking true))) =
    Bcheck.bb (Samples.state_at 2%positive (freshVars (Samples.tracking false))) /\
  Bcheck.balance (Samples.state_at 2%positive (freshVars (Samples.tracking true))) =
    Bcheck.balance (Samples.state_at 2%positive (freshVars (Samples.tracking false))) /\
  Bcheck.intGuards (Samples.state_at 2%positive (freshVars (Samples.tracking true))) =
    Bcheck.intGuards (Samples.state_at 2%positive (freshVars (Samples.tracking false))) /\
  Bcheck.sexpGuards (Samples.state_at 2%positive (freshVars (Samples.tracking true))) =
    Bcheck.sexpGuards (Samples.state_at 2%positive (freshVars (Samples.tracking false))) /\
  vars (freshVars (Samples.tracking true)) = vars (freshVars (Samples.tracking false)) /\
  condMsgs (freshVars (Samples.tracking true)) = condMsgs (freshVars (Samples.tracking false)) /\
  pstack (freshVars (Samples.tracking true)) = pstack (freshVars (Samples.tracking false)) /\
  Bcheck.doneSet (Samples.visited (Samples.state_at 2%positive (freshVars (Samples.tracking false)))) =
    [1%positive] /\
  Bcheck.add Samples.hash_combine 2%positive
    (Samples.proposedIn
       (Samples.visited (Samples.state_at 2%positive (freshVars (Samples.tracking false))))
       (Samples.state_at 2%positive (freshVars (Samples.tracking true)))) =
  (Bcheck.on_workList (cons 2%positive)
     (Bcheck.on_doneSet (fun ds => ds ++ [2%positive])
        (Bcheck.on_heap
           <[2%positive := Bcheck.hash Samples.hash_combine
                             (Samples.state_at 2%positive (freshVars (Samples.tracking true)))]>
           (Samples.proposedIn
              (Samples.visited (Samples.state_at 2%positive (freshVars (Samples.tracking false))))
              (Samples.state_at 2%positive (freshVars (Samples.tracking true)))))), true).
Proof. repeat split. Qed.

(** C10 (the failing input).  Two states that [BcheckStateTy_equal]
    finds equal, whose conditional messages were recorded in a different
    order: [hash()] feeds the combiner different sequences, the hash codes
    differ, and the second state is added to the visited set that holds
    the first. *)
Lemma equal_states_with_different_hash_codes :
  Bcheck.hashArgs (Samples.state_at 2%positive Samples.pending_xy) <>
  Bcheck.hashArgs (Samples.state_at 2%positive Samples.pending_yx) /\
  Bcheck.BcheckStateTy_equal
    (1%positive, Bcheck.hash Samples.hash_combine (Samples.state_at 2%positive Samples.pending_xy))
    (2%positive, Bcheck.hash Samples.hash_combine (Samples.state_at 2%positive Samples.pending_yx)) = true /\
  Bcheck.hashcode (Bcheck.hash Samples.hash_combine (Samples.state_at 2%positive Samples.pending_xy)) <>
  Bcheck.hashcode (Bcheck.hash Samples.hash_combine (Samples.state_at 2%positive Samples.pending_yx)) /\
  (Bcheck.add Samples.hash_combine 2%positive
     (Samples.proposedIn (Samples.visited (Samples.state_at 2%positive Samples.pending_xy))
        (Samples.state_at 2%positive Samples.pending_yx))).2 = true /\
  Bcheck.doneSet (Bcheck.add Samples.hash_combine 2%positive
     (Samples.proposedIn (Samples.visited (Samples.state_at 2%positive Samples.pending_xy))
        (Samples.state_at 2%positive Samples.pending_yx))).1 = [1%positive; 2%positive].
Proof.
  split; [vm_compute; discriminate|].
  split; [vm_compute; reflexivity|].
  split; [vm_compute; discriminate|].
  split; vm_compute; reflexivity.
Qed.

(* ================================================================== *)
(** * The bound on the visited set *)
(* ================================================================== *)

Lemma lookup_foldr_delete {A} (m : gmap positive A) (l : list positive) q :
  q ∈ l -> foldr delete m l !! q = None.
Proof.
  induction l as [|p l IH]; simpl.
  - by intros ?%elem_of_nil.
  - intros [->|Hq]%elem_of_cons; [apply lookup_delete_eq|].
    destruct (decide (q = p)) as [->|Hne]; [apply lookup_delete_eq|].
    rewrite lookup_delete_ne by done. by apply IH.
Qed.

Lemma lookup_foldr_delete_None {A} (m : gmap positive A) (l : list positive) q :
  m !! q = None -> foldr delete m l !! q = None.
Proof.
  intros Hq. induction l as [|p l IH]; simpl; [done|].
  destruct (decide (q = p)) as [->|Hne]; [apply lookup_delete_eq|].
  by rewrite lookup_delete_ne.
Qed.

(** When the visited set holds every state allocated, [clearStates]
    leaves none. *)
Lemma clearStates_frees e p :
  (forall q, is_Some (Bcheck.heap e !! q) -> q ∈ Bcheck.doneSet e) ->
  Bcheck.heap (Bcheck.clearStates e) !! p = None.
Proof.
  intros Hh. simpl.
  destruct (Bcheck.heap e !! p) as [s|] eqn:Hp.
  - apply lookup_foldr_delete, Hh. by rewrite Hp.
  - by apply lookup_foldr_delete_None.
Qed.

Lemma clearStates_releases e :
  Bcheck.doneSet (Bcheck.clearStates e) = [] /\
  Bcheck.workList (Bcheck.clearStates e) = [] /\
  (forall q, q ∈ Bcheck.doneSet e -> Bcheck.heap (Bcheck.clearStates e) !! q = None) /\
  Bcheck.visiting (Bcheck.clearStates e) = Bcheck.visiting e /\
  Bcheck.emsg (Bcheck.clearStates e) = Bcheck.emsg e /\
  Bcheck.totalStates (Bcheck.clearStates e) =
    (Bcheck.totalStates e + N.of_nat (length (Bcheck.doneSet e)))%N.
Proof.
  repeat split. intros q Hq. simpl. by apply lookup_foldr_delete.
Qed.

Section Abandon.

Variable hash_combine : N -> Bcheck.HashArg -> N.
Variable MAX_STATES : N.
Variable MAX_PSTACK_SIZE : nat.
Variable aliasChainBound : nat.
Variable ir : IRInfo.
Variable cm : CalledModuleTy.
Variable cprotect : CProtectInfo.
Variable liveVars : LiveVarsTy.
Variable dom : Bcheck.Domains.
Variable fn : Bcheck.FunctionIR.
Variable intGuardsEnabled sexpGuardsEnabled : bool.
Variable balanceCheckingEnabled freshVarsCheckingEnabled : bool.

Local Abbreviation iteration :=
  (Bcheck.iteration hash_combine MAX_STATES MAX_PSTACK_SIZE aliasChainBound ir cm cprotect
     liveVars dom fn intGuardsEnabled sexpGuardsEnabled balanceCheckingEnabled
     freshVarsCheckingEnabled).
Local Abbreviation workLoop :=
  (Bcheck.workLoop hash_combine MAX_STATES MAX_PSTACK_SIZE aliasChainBound ir cm cprotect
     liveVars dom fn intGuardsEnabled sexpGuardsEnabled balanceCheckingEnabled
     freshVarsCheckingEnabled).

Lemma restartCheck_eq e :
  Bcheck.restartCheck fn intGuardsEnabled sexpGuardsEnabled e =
  if Bcheck.restartable fn intGuardsEnabled sexpGuardsEnabled &&
     bool_decide (0 < Bcheck.erefinable e)%N
  then (Bcheck.clearStates e, Returned)
  else (e, Next tt).
Proof. unfold Bcheck.restartCheck. run. by destruct (_ && _). Qed.

(** The round that finds the set too large. *)
Lemma iteration_too_many_states e top rest s :
  Bcheck.workList e = top :: rest ->
  Bcheck.heap e !! top = Some s ->
  Bcheck.errorBasicBlocks fn (Bcheck.bb s) = false ->
  (MAX_STATES < N.of_nat (length (Bcheck.doneSet e)))%N ->
  iteration e =
  if Bcheck.restartable fn intGuardsEnabled sexpGuardsEnabled &&
     bool_decide (0 < Bcheck.erefinable e)%N
  then (Bcheck.clearStates e, Returned)
  else (Bcheck.clearStates
          (Bcheck.log_error ("ERROR: too many states (abstraction error?) in function "
                             +:+ Bcheck.funName fn)
             (Bcheck.on_workList (fun _ => rest) e)), Returned).
Proof.
  intros Hw Hh He Hm. unfold Bcheck.iteration.
  unfold bind at 1. rewrite restartCheck_eq.
  destruct (_ && _); [done|]. cbv beta iota.
  unfold bind at 1. unfold gets at 1. cbv beta iota.
  rewrite Hw, Hh. unfold bind at 1. unfold modify at 1. cbv beta iota.
  rewrite He. change (Bcheck.doneSet (Bcheck.on_workList (fun _ => rest) e)) with (Bcheck.doneSet e).
  rewrite bool_decide_eq_true_2 by done. done.
Qed.

(** The round that takes a state of an error path from the work list
    does nothing else. *)
Lemma iteration_error_block e top rest s :
  Bcheck.workList e = top :: rest ->
  Bcheck.heap e !! top = Some s ->
  Bcheck.errorBasicBlocks fn (Bcheck.bb s) = true ->
  (Bcheck.restartable fn intGuardsEnabled sexpGuardsEnabled &&
     bool_decide (0 < Bcheck.erefinable e)%N) = false ->
  iteration e = (Bcheck.on_workList (fun _ => rest) e, Next tt).
Proof.
  intros Hw Hh He Hr. unfold Bcheck.iteration.
  unfold bind at 1. rewrite restartCheck_eq, Hr. cbv beta iota.
  unfold bind at 1. unfold gets at 1. cbv beta iota.
  rewrite Hw, Hh. unfold bind at 1. unfold modify at 1. cbv beta iota.
  by rewrite He.
Qed.

(** C9 (as amended).  When a state whose block is not on an error path is
    taken from the work list and the visited set holds more than
    [MAX_STATES] states, the run of the function ends there: the visited
    set and the work list are emptied, every state of the visited set is
    deleted -- no state is left when the visited set held all of them --,
    and no instruction is visited. *)
Theorem too_many_states_abandons_function e top rest s fuel :
  Bcheck.workList e = top :: rest ->
  Bcheck.heap e !! top = Some s ->
  Bcheck.errorBasicBlocks fn (Bcheck.bb s) = false ->
  (MAX_STATES < N.of_nat (length (Bcheck.doneSet e)))%N ->
  exists e',
    iteration e = (e', Returned) /\
    workLoop (S fuel) e = Some (e', Returned) /\
    Bcheck.doneSet e' = [] /\
    Bcheck.workList e' = [] /\
    (forall q, q ∈ Bcheck.doneSet e -> Bcheck.heap e' !! q = None) /\
    (owned e -> forall q, Bcheck.heap e' !! q = None) /\
    Bcheck.visiting e' = Bcheck.visiting e /\
    Bcheck.emsg e' = Bcheck.emsg e /\
    Bcheck.totalStates e' = (Bcheck.totalStates e + N.of_nat (length (Bcheck.doneSet e)))%N.
Proof.
  intros Hw Hh He Hm.
  pose proof (iteration_too_many_states e top rest s Hw Hh He Hm) as Hi.
  destruct (_ && _); eexists; (split; [exact Hi|]);
    (split; [simpl; by rewrite Hw, Hi|]);
    (split; [done|]); (split; [done|]);
    (split; [intros q Hq; simpl; by apply lookup_foldr_delete|]);
    (split; [|done]);
    intros (Hown & _ & _) q; apply clearStates_frees; intros q' Hq'; by apply Hown.
Qed.

End Abandon.

Lemma too_many_states_abandons_function_witness :
  exists e',
    Bcheck.iteration Samples.hash_combine 2 4 7 Samples.ir Samples.cm Samples.cprotect
      Samples.liveVars Samples.dom (Samples.chain (fun _ => false)) false false false false
      (Samples.round 2 (fun _ => false) (Samples.round 2 (fun _ => false) Samples.entered)) = (e', Returned) /\
    Bcheck.doneSet e' = [] /\
    Bcheck.workList e' = [] /\
    Bcheck.visiting e' = Bcheck.visiting (Samples.round 2 (fun _ => false) (Samples.round 2 (fun _ => false) Samples.entered)).
Proof.
  destruct (too_many_states_abandons_function Samples.hash_combine 2 4 7 Samples.ir Samples.cm
              Samples.cprotect Samples.liveVars Samples.dom (Samples.chain (fun _ => false))
              false false false false
              (Samples.round 2 (fun _ => false) (Samples.round 2 (fun _ => false) Samples.entered))
              3%positive []
              (Bcheck.hash Samples.hash_combine
                 (Bcheck.clone (Bcheck.initialState 1%positive) 3%positive)) 0%nat)
    as (e' & Hi & _ & Hd & Hw & _ & _ & Hv & _);
    [vm_compute; reflexivity | vm_compute; reflexivity | vm_compute; reflexivity
    | vm_compute; reflexivity |].
  exists e'. split; [exact Hi|]. split; [exact Hd|]. split; [exact Hw | exact Hv].
Defined.

(** The third block of [chain] being on an error path and [MAX_STATES]
    being 2: when the state of the third block is taken from the work list
    the visited set holds 3 states; the round goes on to the next, the run
    ends with the three states still held, and nothing is reported. *)
Lemma error_path_state_is_skipped_before_the_bound :
  Bcheck.workList (Samples.round 2 Samples.isThird (Samples.round 2 Samples.isThird Samples.entered)) =
    [3%positive] /\
  Bcheck.doneSet (Samples.round 2 Samples.isThird (Samples.round 2 Samples.isThird Samples.entered)) =
    [1%positive; 2%positive; 3%positive] /\
  Bcheck.iteration Samples.hash_combine 2 4 7 Samples.ir Samples.cm Samples.cprotect
    Samples.liveVars Samples.dom (Samples.chain Samples.isThird) false false false false
    (Samples.round 2 Samples.isThird (Samples.round 2 Samples.isThird Samples.entered)) =
  (Bcheck.on_workList (fun _ => [])
     (Samples.round 2 Samples.isThird (Samples.round 2 Samples.isThird Samples.entered)),
   Next tt) /\
  Bcheck.checkFunction_run Samples.hash_combine 2 4 7 Samples.ir Samples.cm Samples.cprotect
    Samples.liveVars Samples.dom (Samples.chain Samples.isThird) false false false false
    5 Samples.engine0 =
  Some (Bcheck.on_workList (fun _ => [])
          (Samples.round 2 Samples.isThird (Samples.round 2 Samples.isThird Samples.entered)),
        Next tt) /\
  Bcheck.errs (Samples.round 2 Samples.isThird (Samples.round 2 Samples.isThird Samples.entered)) = [].
Proof. repeat (split; [vm_compute; reflexivity|]). vm_compute; reflexivity. Qed.

(* ================================================================== *)
(** * Termination of the check of a function *)
(* ================================================================== *)

Section FollowsNext.

Context {S : Type} (R : S -> S -> Prop) `{!PreOrder R}.

Local Abbreviation followsNext := (followsNext R).

Lemma followsNext_follows {A} (m : St S A) r : follows R m r -> followsNext m r.
Proof. unfold follows, followsNext. intros H r' a E. by rewrite E in H. Qed.

Lemma followsNext_bind {A B} (m : St S A) (k : A -> St S B) r :
  followsNext m r ->
  (forall a r1, m r = (r1, Next a) -> followsNext (k a) r1) ->
  followsNext (bind m k) r.
Proof.
  unfold followsNext, bind. intros Hm Hk r' b.
  destruct (m r) as [r1 [a| |]] eqn:E; try done.
  intros Hb. etransitivity; [by eapply Hm | by eapply Hk].
Qed.

End FollowsNext.

Section Termination.

Variable hash_combine : N -> Bcheck.HashArg -> N.
Variable MAX_STATES : N.
Variable MAX_PSTACK_SIZE : nat.
Variable aliasChainBound : nat.
Variable ir : IRInfo.
Variable cm : CalledModuleTy.
Variable cprotect : CProtectInfo.
Variable liveVars : LiveVarsTy.
Variable dom : Bcheck.Domains.
Variable fn : Bcheck.FunctionIR.
Variable intGuardsEnabled sexpGuardsEnabled : bool.
Variable balanceCheckingEnabled freshVarsCheckingEnabled : bool.

Local Abbreviation iteration :=
  (Bcheck.iteration hash_combine MAX_STATES MAX_PSTACK_SIZE aliasChainBound ir cm cprotect
     liveVars dom fn intGuardsEnabled sexpGuardsEnabled balanceCheckingEnabled
     freshVarsCheckingEnabled).
Local Abbreviation workLoop :=
  (Bcheck.workLoop hash_combine MAX_STATES MAX_PSTACK_SIZE aliasChainBound ir cm cprotect
     liveVars dom fn intGuardsEnabled sexpGuardsEnabled balanceCheckingEnabled
     freshVarsCheckingEnabled).
Local Abbreviation visit :=
  (Bcheck.visit MAX_PSTACK_SIZE aliasChainBound ir cm cprotect liveVars dom fn
     intGuardsEnabled sexpGuardsEnabled balanceCheckingEnabled freshVarsCheckingEnabled).
Local Abbreviation visitAll :=
  (Bcheck.visitAll MAX_PSTACK_SIZE aliasChainBound ir cm cprotect liveVars dom fn
     intGuardsEnabled sexpGuardsEnabled balanceCheckingEnabled freshVarsCheckingEnabled).
Local Abbreviation visitTerminator :=
  (Bcheck.visitTerminator hash_combine dom intGuardsEnabled sexpGuardsEnabled
     balanceCheckingEnabled freshVarsCheckingEnabled).

#[local] Instance sameStates_preorder : PreOrder sameStates.
Proof.
  split; unfold sameStates.
  - by intros e.
  - intros e1 e2 e3 (? & ? & ?) (? & ? & ?). repeat split; congruence.
Qed.

Lemma restartCheck_next ig sg e :
  followsNext sameStates (Bcheck.restartCheck fn ig sg) e.
Proof.
  intros e' a. rewrite (restartCheck_eq fn ig sg).
  destruct (_ && _); [done|]. by intros [= <-].
Qed.

Lemma handleUnprotectWithIntGuard_same in_ s e :
  follows sameStates (Bcheck.handleUnprotectWithIntGuard dom in_ s) e.
Proof.
  unfold Bcheck.handleUnprotectWithIntGuard.
  repeat (follow; repeat case_match; simplify_eq/=); done.
Qed.

Lemma runFreshVars_same in_ s e :
  follows sameStates
    (Bcheck.runFreshVars MAX_PSTACK_SIZE aliasChainBound ir cm cprotect liveVars
       sexpGuardsEnabled balanceCheckingEnabled in_ s) e.
Proof. unfold Bcheck.runFreshVars. follow; done. Qed.

Lemma runBalance_same in_ s e : follows sameStates (Bcheck.runBalance dom in_ s) e.
Proof. unfold Bcheck.runBalance. follow; done. Qed.

Ltac next_step :=
  lazymatch goal with
  | |- followsNext _ (Bcheck.restartCheck _ _ _) _ => apply restartCheck_next
  | |- followsNext _ (Bcheck.runFreshVars _ _ _ _ _ _ _ _ _ _) _ =>
      apply followsNext_follows, runFreshVars_same
  | |- followsNext _ (Bcheck.runBalance _ _ _) _ =>
      apply followsNext_follows, runBalance_same
  | |- followsNext _ (Bcheck.handleUnprotectWithIntGuard _ _ _) _ =>
      apply followsNext_follows, handleUnprotectWithIntGuard_same
  | |- followsNext _ (bind _ _) _ => apply followsNext_bind; [apply _| |intros ? ? ?]
  | |- followsNext _ (if ?b then _ else _) _ => destruct b
  | |- followsNext _ (let _ := _ in _) _ => cbv zeta
  | |- followsNext _ (ret _) _ => apply followsNext_follows; use_follows @follows_ret
  | |- followsNext _ (modify _) _ => apply followsNext_follows; use_follows @follows_modify
  end.

Lemma visit_next in_ s e : followsNext sameStates (visit in_ s) e.
Proof. unfold Bcheck.visit. repeat next_step; done. Qed.

Lemma visitAll_next ins s e : followsNext sameStates (visitAll ins s) e.
Proof.
  revert s e. induction ins as [|in_ ins IH]; intros s e; simpl.
  - apply followsNext_follows. use_follows @follows_ret.
  - apply followsNext_bind; [apply _ | apply visit_next | intros; apply IH].
Qed.

#[local] Instance added_preorder : PreOrder added.
Proof.
  split; unfold added.
  - intros e. exists 0%nat. lia.
  - intros e1 e2 e3 (k1 & ? & ?) (k2 & ? & ?). exists (k1 + k2)%nat. lia.
Qed.

Lemma add_added this e : added e (Bcheck.add hash_combine this e).1.
Proof.
  unfold Bcheck.add. destruct (Bcheck.heap e !! this); [|reflexivity].
  destruct (Bcheck.doneSet_find _ _ _); simpl.
  - exists 0%nat. simpl. lia.
  - exists 1%nat. simpl. rewrite length_app. simpl. lia.
Qed.

Lemma addState_added s e : follows added (Bcheck.addState hash_combine s) e.
Proof.
  unfold Bcheck.addState. use_follows @follows_modify.
  etransitivity; [|apply add_added]. exists 0%nat. simpl. lia.
Qed.

Lemma addProposed_added h e : follows added (Bcheck.addProposed hash_combine h) e.
Proof. unfold Bcheck.addProposed. follow. apply addState_added. Qed.

Lemma visitTerminator_added t s e : follows added (visitTerminator t s) e.
Proof.
  unfold Bcheck.visitTerminator, Bcheck.addSuccessors.
  follow; try apply addProposed_added; try apply addState_added;
    try reflexivity; exists 0%nat; simpl; lia.
Qed.

Local Abbreviation room := (room MAX_STATES).

Lemma iteration_progress e e' :
  Bcheck.workList e <> [] ->
  iteration e = (e', Next tt) ->
  (room e' < room e)%nat \/
  (room e' = room e /\ (length (Bcheck.workList e') < length (Bcheck.workList e))%nat).
Proof.
  intros Hne. unfold Bcheck.iteration.
  unfold bind at 1. rewrite (restartCheck_eq fn intGuardsEnabled sexpGuardsEnabled).
  destruct (_ && _); [done|]. cbv beta iota.
  unfold bind at 1. unfold gets at 1. cbv beta iota.
  destruct (Bcheck.workList e) as [|top rest] eqn:Hw; [done|].
  destruct (Bcheck.heap e !! top) as [s|]; [|done].
  unfold bind at 1. unfold modify at 1. cbv beta iota.
  destruct (Bcheck.errorBasicBlocks fn (Bcheck.bb s)).
  { intros [= <-]. right. unfold room. simpl. lia. }
  change (Bcheck.doneSet (Bcheck.on_workList (fun _ => rest) e)) with (Bcheck.doneSet e).
  case_bool_decide as Hmax; [done|].
  set (e2 := Bcheck.on_workList (fun _ => rest) e).
  unfold bind at 1.
  pose proof (visitAll_next (Bcheck.instructions fn (Bcheck.bb s)) s e2) as Hsame.
  destruct (visitAll _ s e2) as [e3 [s'| |]] eqn:Hvisit; try done.
  destruct (Hsame e3 s' Hvisit) as (Hd & Hwl & _).
  destruct (last _) as [t|]; [|done].
  intros Hterm.
  pose proof (visitTerminator_added t s' e3) as (k & Hk1 & Hk2).
  rewrite Hterm in Hk1, Hk2. simpl in Hk1, Hk2.
  rewrite Hd in Hk1. rewrite Hwl in Hk2. simpl in Hk1, Hk2.
  unfold room. simpl. rewrite Hk1, Hk2.
  destruct k as [|k]; [right; lia | left; lia].
Qed.

(** The loop of a run comes to an end. *)
Lemma workLoop_terminates e : exists fuel res, workLoop fuel e = Some res.
Proof.
  remember (room e) as m eqn:Hm.
  revert e Hm. induction (lt_wf m) as [m _ IHm]. intros e Hm.
  remember (length (Bcheck.workList e)) as w eqn:Hwl.
  revert e Hm Hwl. induction (lt_wf w) as [w _ IHw]. intros e Hm Hwl.
  destruct (Bcheck.workList e) as [|top rest] eqn:Hw.
  { exists 0%nat, (e, Next tt). simpl. by rewrite Hw. }
  destruct (iteration e) as [e' o] eqn:Hi.
  destruct o as [[]| |].
  - destruct (iteration_progress e e') as [Hlt|[Heq Hlt]]; [by rewrite Hw | done | |].
    + destruct (IHm (room e')) with (e := e') as (fuel & res & Hres); [lia | done|].
      exists (S fuel), res. simpl. by rewrite Hw, Hi.
    + rewrite Hw in Hlt.
      destruct (IHw (length (Bcheck.workList e'))) with (e := e') as (fuel & res & Hres);
        [lia | lia | done|].
      exists (S fuel), res. simpl. by rewrite Hw, Hi.
  - exists 1%nat, (e', Returned). simpl. by rewrite Hw, Hi.
  - exists 1%nat, (e', Aborted). simpl. by rewrite Hw, Hi.
Qed.

(** More rounds than needed change nothing. *)
Lemma workLoop_more fuel fuel' e res :
  workLoop fuel e = Some res -> (fuel <= fuel')%nat -> workLoop fuel' e = Some res.
Proof.
  revert fuel' e. induction fuel as [|fuel IH]; intros fuel' e; simpl.
  - destruct (Bcheck.workList e) eqn:Hw; [|done]. intros Hres _.
    destruct fuel'; simpl; by rewrite Hw.
  - destruct (Bcheck.workList e) eqn:Hw.
    + intros Hres _. destruct fuel'; simpl; by rewrite Hw.
    + intros Hres Hle. destruct fuel' as [|fuel']; [lia|]. simpl. rewrite Hw.
      destruct (iteration e) as [e' [[]| |]]; try done. apply IH; [done | lia].
Qed.

End Termination.

(* ================================================================== *)
(** * Restarts with more precise guards *)
(* ================================================================== *)

Section Restarts.

Variable hash_combine : N -> Bcheck.HashArg -> N.
Variable MAX_STATES : N.
Variable MAX_PSTACK_SIZE : nat.
Variable aliasChainBound : nat.
Variable ir : IRInfo.
Variable cm : CalledModuleTy.
Variable cprotect : CProtectInfo.
Variable liveVars : LiveVarsTy.
Variable dom : Bcheck.Domains.
Variable fn : Bcheck.FunctionIR.

Local Abbreviation checkFunction_run :=
  (Bcheck.checkFunction_run hash_combine MAX_STATES MAX_PSTACK_SIZE aliasChainBound ir cm
     cprotect liveVars dom fn).
Local Abbreviation restartLoop :=
  (Bcheck.restartLoop hash_combine MAX_STATES MAX_PSTACK_SIZE aliasChainBound ir cm
     cprotect liveVars dom fn).
Local Abbreviation checkFunction :=
  (Bcheck.checkFunction hash_combine MAX_STATES MAX_PSTACK_SIZE aliasChainBound ir cm
     cprotect liveVars dom fn).

Local Abbreviation afterRun :=
  (Bcheck.afterRun hash_combine MAX_STATES MAX_PSTACK_SIZE aliasChainBound ir cm
     cprotect liveVars dom fn).

Lemma restartLoop_step runs fuel bal fresh ig sg e :
  restartLoop (S runs) fuel bal fresh ig sg e =
  match checkFunction_run ig sg bal fresh fuel e with
  | None => Bcheck.Unfinished
  | Some (e1, Aborted) => Bcheck.Crashed e1
  | Some (e1, _) => afterRun runs fuel bal fresh ig sg e1
  end.
Proof.
  change (restartLoop (S runs) fuel bal fresh ig sg e) with
    (match checkFunction_run ig sg bal fresh fuel e with
     | None => Bcheck.Unfinished
     | Some (e, Aborted) => Bcheck.Crashed e
     | Some (e, _) =>
         if Bcheck.restartable fn ig sg && bool_decide (0 < Bcheck.erefinable e)%N then
           let e := Bcheck.on_emsg msg_clear e in
           let '(ig', sg') :=
             if negb ig && negb (Bcheck.avoidIntGuardsFor fn) then (true, sg)
             else if negb sg && negb (Bcheck.avoidSEXPGuardsFor fn) then (ig, true)
             else (ig, sg) in
           match restartLoop runs fuel bal fresh ig' sg' e with
           | Bcheck.Done e' trace => Bcheck.Done e' ((ig, sg) :: trace)
           | other => other
           end
         else Bcheck.Done e [(ig, sg)]
     end).
  destruct (checkFunction_run ig sg bal fresh fuel e) as [[e1 o]|]; [|done].
  unfold Bcheck.afterRun, Bcheck.nextPrecision, Bcheck.restartable.
  destruct o; try done;
    destruct ig, sg, (Bcheck.avoidIntGuardsFor fn), (Bcheck.avoidSEXPGuardsFor fn); simpl; done.
Qed.

Lemma escalationFrom_step ig sg :
  Bcheck.escalationFrom fn ig sg =
  (ig, sg) ::
  if Bcheck.restartable fn ig sg
  then Bcheck.escalationFrom fn (Bcheck.nextPrecision fn ig sg).1 (Bcheck.nextPrecision fn ig sg).2
  else [].
Proof.
  unfold Bcheck.escalationFrom, Bcheck.nextPrecision, Bcheck.restartable.
  by destruct ig, sg, (Bcheck.avoidIntGuardsFor fn), (Bcheck.avoidSEXPGuardsFor fn).
Qed.

Lemma escalationFrom_length ig sg : (length (Bcheck.escalationFrom fn ig sg) <= 3)%nat.
Proof.
  unfold Bcheck.escalationFrom.
  destruct ig, sg, (Bcheck.avoidIntGuardsFor fn), (Bcheck.avoidSEXPGuardsFor fn); simpl; lia.
Qed.

Lemma restartLoop_trace runs fuel bal fresh ig sg e e' trace :
  restartLoop runs fuel bal fresh ig sg e = Bcheck.Done e' trace ->
  trace `prefix_of` Bcheck.escalationFrom fn ig sg /\
  trace <> [] /\
  (Bcheck.erefinable e' = 0%N \/ trace = Bcheck.escalationFrom fn ig sg).
Proof.
  revert ig sg e e' trace. induction runs as [|runs IH]; intros ig sg e e' trace; [done|].
  rewrite restartLoop_step, (escalationFrom_step ig sg).
  destruct (checkFunction_run ig sg bal fresh fuel e) as [[e1 o]|]; [|done].
  assert (Hafter : afterRun runs fuel bal fresh ig sg e1 = Bcheck.Done e' trace ->
    trace `prefix_of`
      (ig, sg) :: (if Bcheck.restartable fn ig sg
                   then Bcheck.escalationFrom fn (Bcheck.nextPrecision fn ig sg).1
                          (Bcheck.nextPrecision fn ig sg).2
                   else []) /\
    trace <> [] /\
    (Bcheck.erefinable e' = 0%N \/
     trace = (ig, sg) :: (if Bcheck.restartable fn ig sg
                          then Bcheck.escalationFrom fn (Bcheck.nextPrecision fn ig sg).1
                                 (Bcheck.nextPrecision fn ig sg).2
                          else []))).
  { unfold Bcheck.afterRun.
    destruct (Bcheck.restartable fn ig sg) eqn:Hr; simpl.
    - case_bool_decide as Hn.
      + destruct (restartLoop runs _ _ _ _ _ _) as [e2 tr| |] eqn:Hrec; try done.
        intros [= <- <-]. destruct (IH _ _ _ _ _ Hrec) as (Hp & _ & Hs).
        split; [by apply prefix_cons|]. split; [done|].
        destruct Hs as [?| ->]; [by left | by right].
      + intros [= <- <-]. split; [by apply prefix_cons, prefix_nil|]. split; [done|].
        left. lia.
    - intros [= <- <-]. split; [done|]. split; [done|]. by right. }
  by destruct o.
Qed.

Lemma restartLoop_enough n m fuel bal fresh ig sg e :
  (length (Bcheck.escalationFrom fn ig sg) <= n)%nat -> (n <= m)%nat ->
  restartLoop m fuel bal fresh ig sg e = restartLoop n fuel bal fresh ig sg e.
Proof.
  revert m ig sg e. induction n as [|n IH]; intros m ig sg e Hl Hm.
  - rewrite escalationFrom_step in Hl. simpl in Hl. lia.
  - destruct m as [|m]; [lia|]. rewrite !restartLoop_step.
    destruct (checkFunction_run ig sg bal fresh fuel e) as [[e1 o]|]; [|done].
    assert (afterRun m fuel bal fresh ig sg e1 = afterRun n fuel bal fresh ig sg e1) as Ha.
    { unfold Bcheck.afterRun. rewrite escalationFrom_step in Hl.
      destruct (Bcheck.restartable fn ig sg); simpl in *; [|done].
      case_bool_decide; [|done]. rewrite (IH m) by lia. done. }
    destruct o; by rewrite ?Ha.
Qed.

(** A run comes to an end, and more rounds than it needs change nothing. *)
Lemma checkFunction_run_terminates ig sg bal fresh e :
  exists fuel res, checkFunction_run ig sg bal fresh fuel e = Some res.
Proof. unfold Bcheck.checkFunction_run. simpl. apply workLoop_terminates. Qed.

Lemma checkFunction_run_more ig sg bal fresh fuel fuel' e res :
  checkFunction_run ig sg bal fresh fuel e = Some res -> (fuel <= fuel')%nat ->
  checkFunction_run ig sg bal fresh fuel' e = Some res.
Proof. unfold Bcheck.checkFunction_run. simpl. apply workLoop_more. Qed.

(** The loop of the restarts comes to an end. *)
Lemma restartLoop_terminates runs bal fresh ig sg e :
  (length (Bcheck.escalationFrom fn ig sg) <= runs)%nat ->
  exists fuel0, forall fuel, (fuel0 <= fuel)%nat ->
    restartLoop runs fuel bal fresh ig sg e <> Bcheck.Unfinished.
Proof.
  revert ig sg e. induction runs as [|runs IH]; intros ig sg e Hl.
  { rewrite escalationFrom_step in Hl. simpl in Hl. lia. }
  destruct (checkFunction_run_terminates ig sg bal fresh e) as (f1 & [e1 o] & Hrun).
  assert (Hafter : exists fuel0, forall fuel, (fuel0 <= fuel)%nat ->
            afterRun runs fuel bal fresh ig sg e1 <> Bcheck.Unfinished).
  { unfold Bcheck.afterRun. rewrite escalationFrom_step in Hl.
    destruct (Bcheck.restartable fn ig sg); simpl in *; [|by exists 0%nat].
    case_bool_decide; [|by exists 0%nat].
    destruct (IH (Bcheck.nextPrecision fn ig sg).1 (Bcheck.nextPrecision fn ig sg).2
                (Bcheck.on_emsg msg_clear e1)) as (f2 & Hf2); [lia|].
    exists f2. intros fuel Hfuel. specialize (Hf2 fuel Hfuel).
    by destruct (Bcheck.restartLoop _ _ _ _ _ _ _ _ _ _ _ _ _ _ _ _ _). }
  destruct Hafter as (f2 & Hf2).
  exists (max f1 f2). intros fuel Hfuel.
  rewrite restartLoop_step.
  rewrite (checkFunction_run_more ig sg bal fresh f1 fuel e (e1, o) Hrun) by lia.
  destruct o; try done; apply Hf2; lia.
Qed.

(** C1.  After a run of the function that tallied a refinable finding
    while a guard precision was disabled and not avoided, the messages of
    the function are dropped and the function is run again with the next
    precision enabled, integer guards before SEXP guards; after any other
    run the loop stops.  Hence the settings of the runs made are a prefix
    of the escalation -- baseline, integer guards unless avoided, SEXP
    guards unless avoided --, the last run tallied nothing refinable or
    the escalation is exhausted, three runs are always enough, and the
    check of the function comes to an end. *)
Theorem restart_escalates_until_nothing_refinable :
  (forall runs fuel bal fresh ig sg e e1 o,
     checkFunction_run ig sg bal fresh fuel e = Some (e1, o) ->
     o <> Aborted ->
     Bcheck.restartable fn ig sg = true ->
     (0 < Bcheck.erefinable e1)%N ->
     restartLoop (S runs) fuel bal fresh ig sg e =
       match restartLoop runs fuel bal fresh (Bcheck.nextPrecision fn ig sg).1
               (Bcheck.nextPrecision fn ig sg).2 (Bcheck.on_emsg msg_clear e1) with
       | Bcheck.Done e' trace => Bcheck.Done e' ((ig, sg) :: trace)
       | other => other
       end /\
     lineBuffer (Bcheck.emsg (Bcheck.on_emsg msg_clear e1)) = [] /\
     printed (Bcheck.emsg (Bcheck.on_emsg msg_clear e1)) = printed (Bcheck.emsg e1) /\
     Bcheck.escalationFrom fn ig sg =
       (ig, sg) :: Bcheck.escalationFrom fn (Bcheck.nextPrecision fn ig sg).1
                     (Bcheck.nextPrecision fn ig sg).2) /\
  (forall runs fuel bal fresh ig sg e e1 o,
     checkFunction_run ig sg bal fresh fuel e = Some (e1, o) ->
     o <> Aborted ->
     Bcheck.restartable fn ig sg = false \/ Bcheck.erefinable e1 = 0%N ->
     restartLoop (S runs) fuel bal fresh ig sg e = Bcheck.Done e1 [(ig, sg)]) /\
  (forall runs fuel bal fresh e e' trace,
     checkFunction runs fuel bal fresh e = Bcheck.Done e' trace ->
     trace `prefix_of` Bcheck.escalation fn /\
     trace <> [] /\
     (length trace <= 3)%nat /\
     (Bcheck.erefinable e' = 0%N \/ trace = Bcheck.escalation fn)) /\
  (forall runs fuel bal fresh e,
     (3 <= runs)%nat ->
     checkFunction runs fuel bal fresh e = checkFunction 3 fuel bal fresh e) /\
  (forall bal fresh e,
     exists fuel0, forall runs fuel, (3 <= runs)%nat -> (fuel0 <= fuel)%nat ->
       checkFunction runs fuel bal fresh e <> Bcheck.Unfinished).
Proof.
  split; [|split; [|split; [|split]]].
  - intros runs fuel bal fresh ig sg e e1 o Hrun Ho Hr Hn.
    rewrite restartLoop_step, Hrun. unfold Bcheck.afterRun.
    rewrite Hr, bool_decide_eq_true_2 by done. simpl.
    split; [by destruct o|]. split; [done|]. split; [done|].
    by rewrite (escalationFrom_step ig sg), Hr.
  - intros runs fuel bal fresh ig sg e e1 o Hrun Ho Hstop.
    rewrite restartLoop_step, Hrun. unfold Bcheck.afterRun.
    assert (Bcheck.restartable fn ig sg && bool_decide (0 < Bcheck.erefinable e1)%N = false) as ->.
    { destruct Hstop as [-> | ->]; [done|]. apply andb_false_iff. right.
      by apply bool_decide_eq_false_2. }
    by destruct o.
  - intros runs fuel bal fresh e e' trace Hdone.
    destruct (restartLoop_trace _ _ _ _ _ _ _ _ _ Hdone) as (Hp & Hne & Hs).
    split; [done|]. split; [done|]. split; [|done].
    apply prefix_length in Hp. pose proof (escalationFrom_length false false). lia.
  - intros runs fuel bal fresh e Hruns. unfold Bcheck.checkFunction.
    apply restartLoop_enough; [apply escalationFrom_length | done].
  - intros bal fresh e. unfold Bcheck.checkFunction.
    destruct (restartLoop_terminates 3 bal fresh false false (Bcheck.on_emsg msg_newFunction e))
      as (fuel0 & Hfuel0); [apply escalationFrom_length|].
    exists fuel0. intros runs fuel Hruns Hfuel.
    rewrite (restartLoop_enough 3 runs) by (done || apply escalationFrom_length).
    by apply Hfuel0.
Qed.

End Restarts.

(** The check of [chain] with the fresh-variables checking enabled: three
    runs, the baseline, then with integer guards, then with SEXP guards too,
    the message about [x] being left by the last run only. *)
Lemma restart_escalates_until_nothing_refinable_witness :
  exists e',
    Bcheck.checkFunction Samples.hash_combine 100 4 7 Samples.ir Samples.cm Samples.cprotect
      Samples.liveVars Samples.dom (Samples.chain Samples.isThird) 3 20 false true
      Samples.engine0 = Bcheck.Done e' [(false, false); (true, false); (true, true)] /\
    [(false, false); (true, false); (true, true)] `prefix_of`
      Bcheck.escalation (Samples.chain Samples.isThird) /\
    lineBuffer (Bcheck.emsg e') = [Samples.pending_x].
Proof.
  eexists. split; [vm_compute; reflexivity|].
  split; [|vm_compute; reflexivity].
  destruct (restart_escalates_until_nothing_refinable Samples.hash_combine 100 4 7 Samples.ir
              Samples.cm Samples.cprotect Samples.liveVars Samples.dom
              (Samples.chain Samples.isThird)) as (_ & _ & Htrace & _).
  eapply (Htrace 3%nat 20%nat false true Samples.engine0). vm_compute. reflexivity.
Defined.

(* ================================================================== *)
(** * The visited set owns the states *)
(* ================================================================== *)

#[local] Instance keepsOwned_preorder : PreOrder keepsOwned.
Proof. split; unfold keepsOwned; [by intros e | intros e1 e2 e3; auto]. Qed.

Lemma owned_same e e' :
  Bcheck.heap e' = Bcheck.heap e ->
  Bcheck.doneSet e' = Bcheck.doneSet e ->
  Bcheck.workList e' = Bcheck.workList e ->
  Bcheck.nextAddr e' = Bcheck.nextAddr e ->
  keepsOwned e e'.
Proof. unfold keepsOwned, owned. by intros -> -> -> ->. Qed.

Lemma clearStates_empties e p :
  owned e -> Bcheck.heap (Bcheck.clearStates e) !! p = None.
Proof. intros (Hh & _ & _). apply clearStates_frees. intros q Hq. by apply Hh. Qed.

Lemma clearStates_owned e : keepsOwned e (Bcheck.clearStates e).
Proof.
  intros Ho. split; [|split].
  - intros p. rewrite (clearStates_empties e p Ho). simpl. split.
    + by intros [? ?].
    + by intros ?%elem_of_nil.
  - simpl. by intros p ?%elem_of_nil.
  - simpl. by intros p ?%elem_of_nil.
Qed.

Section Ownership.

Variable hash_combine : N -> Bcheck.HashArg -> N.
Variable MAX_STATES : N.
Variable MAX_PSTACK_SIZE : nat.
Variable aliasChainBound : nat.
Variable ir : IRInfo.
Variable cm : CalledModuleTy.
Variable cprotect : CProtectInfo.
Variable liveVars : LiveVarsTy.
Variable dom : Bcheck.Domains.
Variable fn : Bcheck.FunctionIR.

Lemma addState_owned s e : follows keepsOwned (Bcheck.addState hash_combine s) e.
Proof.
  unfold Bcheck.addState. use_follows @follows_modify.
  intros (Hh & Hw & Hn). simpl.
  set (n := Bcheck.nextAddr e).
  assert (Hfresh : Bcheck.heap e !! n = None).
  { destruct (Bcheck.heap e !! n) eqn:E; [|done].
    assert (n ∈ Bcheck.doneSet e) as ?%Hn by (apply Hh; by rewrite E). lia. }
  unfold Bcheck.add. simpl. rewrite lookup_insert_eq.
  destruct (Bcheck.doneSet_find _ _ _) as [found|]; unfold owned; simpl.
  - rewrite insert_insert_eq, delete_insert_eq, delete_id by done.
    split; [done|]. split; [done|]. intros q Hq%Hn. lia.
  - rewrite insert_insert_eq. split; [|split].
    + intros q. rewrite elem_of_app, list_elem_of_singleton, <- Hh.
      destruct (decide (q = n)) as [->|Hne].
      * rewrite lookup_insert_eq. split; [by right | by eexists].
      * rewrite lookup_insert_ne by done. split; [by left | by intros [?|?]].
    + intros q [->|Hq%Hw]%elem_of_cons; rewrite elem_of_app, list_elem_of_singleton; auto.
    + intros q [Hq%Hn | ->%list_elem_of_singleton]%elem_of_app; lia.
Qed.

Lemma restartCheck_owned ig sg e : follows keepsOwned (Bcheck.restartCheck fn ig sg) e.
Proof.
  unfold follows. rewrite (restartCheck_eq fn ig sg).
  destruct (_ && _); simpl; [apply clearStates_owned | done].
Qed.

Lemma handleUnprotectWithIntGuard_owned in_ s e :
  follows keepsOwned (Bcheck.handleUnprotectWithIntGuard dom in_ s) e.
Proof.
  unfold Bcheck.handleUnprotectWithIntGuard.
  repeat (follow; repeat case_match; simplify_eq/=); by apply owned_same.
Qed.

Lemma runFreshVars_owned sg bal in_ s e :
  follows keepsOwned
    (Bcheck.runFreshVars MAX_PSTACK_SIZE aliasChainBound ir cm cprotect liveVars sg bal in_ s) e.
Proof. unfold Bcheck.runFreshVars. follow; by apply owned_same. Qed.

Lemma runBalance_owned in_ s e : follows keepsOwned (Bcheck.runBalance dom in_ s) e.
Proof. unfold Bcheck.runBalance. follow; by apply owned_same. Qed.

Ltac owned_step :=
  lazymatch goal with
  | |- follows _ (Bcheck.restartCheck _ _ _) _ => apply restartCheck_owned
  | |- follows _ (Bcheck.runFreshVars _ _ _ _ _ _ _ _ _ _) _ => apply runFreshVars_owned
  | |- follows _ (Bcheck.runBalance _ _ _) _ => apply runBalance_owned
  | |- follows _ (Bcheck.handleUnprotectWithIntGuard _ _ _) _ =>
      apply handleUnprotectWithIntGuard_owned
  | |- follows _ (Bcheck.addState _ _) _ => apply addState_owned
  | |- follows _ (if ?b then _ else _) _ => destruct b eqn:?
  | |- follows _ (let _ := _ in _) _ => cbv zeta
  | |- _ => follow_step
  end.

Lemma visit_owned ig sg bal fresh in_ s e :
  follows keepsOwned
    (Bcheck.visit MAX_PSTACK_SIZE aliasChainBound ir cm cprotect liveVars dom fn
       ig sg bal fresh in_ s) e.
Proof. unfold Bcheck.visit. repeat owned_step; by apply owned_same. Qed.

Lemma visitAll_owned ig sg bal fresh ins s e :
  follows keepsOwned
    (Bcheck.visitAll MAX_PSTACK_SIZE aliasChainBound ir cm cprotect liveVars dom fn
       ig sg bal fresh ins s) e.
Proof.
  revert s e. induction ins as [|in_ ins IH]; intros s e; simpl.
  - use_follows @follows_ret.
  - use_follows @follows_bind; [apply visit_owned | intros; apply IH].
Qed.

Lemma visitTerminator_owned ig sg bal fresh t s e :
  follows keepsOwned (Bcheck.visitTerminator hash_combine dom ig sg bal fresh t s) e.
Proof.
  unfold Bcheck.visitTerminator, Bcheck.addSuccessors, Bcheck.addProposed.
  repeat owned_step; try reflexivity; by apply owned_same.
Qed.

Lemma iteration_owned ig sg bal fresh e :
  follows keepsOwned
    (Bcheck.iteration hash_combine MAX_STATES MAX_PSTACK_SIZE aliasChainBound ir cm cprotect
       liveVars dom fn ig sg bal fresh) e.
Proof.
  unfold Bcheck.iteration.
  use_follows @follows_bind; [apply restartCheck_owned|]. intros _ e1 _.
  use_follows @follows_bind; [use_follows @follows_gets|]. intros e2 e3 [= <- <-].
  destruct (Bcheck.workList e1) as [|top rest] eqn:Hw; [use_follows @follows_ret|].
  destruct (Bcheck.heap e1 !! top) as [s|]; [|use_follows @follows_abort].
  use_follows @follows_bind.
  { use_follows @follows_modify. intros (Hh & Hwl & Hn). split; [done|]. split; [|done].
    simpl. intros p Hp. apply Hwl. rewrite Hw. by right. }
  intros _ e4 _.
  destruct (Bcheck.errorBasicBlocks fn (Bcheck.bb s)); [use_follows @follows_ret|].
  case_bool_decide.
  - use_follows @follows_bind; [use_follows @follows_modify; by apply owned_same|].
    intros _ e5 _.
    use_follows @follows_bind; [use_follows @follows_modify; apply clearStates_owned|].
    intros. use_follows @follows_return.
  - use_follows @follows_bind; [apply visitAll_owned|]. intros s' e5 _.
    destruct (last _); [apply visitTerminator_owned | use_follows @follows_abort].
Qed.

Lemma workLoop_owned ig sg bal fresh fuel e e' o :
  Bcheck.workLoop hash_combine MAX_STATES MAX_PSTACK_SIZE aliasChainBound ir cm cprotect
    liveVars dom fn ig sg bal fresh fuel e = Some (e', o) ->
  owned e -> owned e'.
Proof.
  revert e. induction fuel as [|fuel IH]; intros e; simpl.
  - destruct (Bcheck.workList e); [|done]. by intros [= <- <-].
  - destruct (Bcheck.workList e); [by intros [= <- <-]|].
    pose proof (iteration_owned ig sg bal fresh e) as Hi. unfold follows in Hi.
    destruct (Bcheck.iteration _ _ _ _ _ _ _ _ _ _ _ _ _ _ e) as [e1 [[]| |]]; simpl in Hi.
    + intros Hl Ho. by apply (IH e1), Hi.
    + intros [= <- <-]. exact Hi.
    + intros [= <- <-]. exact Hi.
Qed.

Lemma checkFunction_run_owned ig sg bal fresh fuel e e' o :
  Bcheck.checkFunction_run hash_combine MAX_STATES MAX_PSTACK_SIZE aliasChainBound ir cm
    cprotect liveVars dom fn ig sg bal fresh fuel e = Some (e', o) ->
  owned e -> owned e'.
Proof.
  unfold Bcheck.checkFunction_run. intros Hrun Ho.
  eapply workLoop_owned; [exact Hrun|].
  pose proof (addState_owned (Bcheck.initialState (Bcheck.entryBlock fn))
                (Bcheck.clearStates (Bcheck.set_erefinable 0 e))) as Ha.
  apply Ha. apply clearStates_owned. revert Ho. by apply owned_same.
Qed.

Lemma restartLoop_owned runs fuel bal fresh ig sg e e' :
  owned e ->
  (exists trace,
     Bcheck.restartLoop hash_combine MAX_STATES MAX_PSTACK_SIZE aliasChainBound ir cm
       cprotect liveVars dom fn runs fuel bal fresh ig sg e = Bcheck.Done e' trace) \/
  Bcheck.restartLoop hash_combine MAX_STATES MAX_PSTACK_SIZE aliasChainBound ir cm
    cprotect liveVars dom fn runs fuel bal fresh ig sg e = Bcheck.Crashed e' ->
  owned e'.
Proof.
  revert ig sg e. induction runs as [|runs IH]; intros ig sg e Ho.
  { simpl. by intros [[? ?]|?]. }
  rewrite restartLoop_step.
  destruct (Bcheck.checkFunction_run _ _ _ _ _ _ _ _ _ _ _ _ _ _ _ _) as [[e1 o]|] eqn:Hrun;
    [|by intros [[? ?]|?]].
  pose proof (checkFunction_run_owned _ _ _ _ _ _ _ _ Hrun Ho) as Ho1.
  assert (Hafter :
    (exists trace,
       Bcheck.afterRun hash_combine MAX_STATES MAX_PSTACK_SIZE aliasChainBound ir cm cprotect liveVars
         dom fn runs fuel bal fresh ig sg e1 = Bcheck.Done e' trace) \/
    Bcheck.afterRun hash_combine MAX_STATES MAX_PSTACK_SIZE aliasChainBound ir cm cprotect liveVars
      dom fn runs fuel bal fresh ig sg e1 = Bcheck.Crashed e' -> owned e').
  { unfold Bcheck.afterRun. destruct (_ && _).
    - intros H. apply (IH (Bcheck.nextPrecision fn ig sg).1 (Bcheck.nextPrecision fn ig sg).2
                         (Bcheck.on_emsg msg_clear e1)).
      + revert Ho1. by apply owned_same.
      + destruct (Bcheck.restartLoop _ _ _ _ _ _ _ _ _ _ _ _ _ _ _ _ _) as [e2 tr|e2|];
          destruct H as [[trace H]|H]; simplify_eq; eauto.
    - intros [[trace [= <- _]]|?]; done. }
  destruct o; [exact Hafter | exact Hafter|].
  intros [[? ?]|[= <-]]; done.
Qed.

(** The check of a function leaves every state it allocated in the
    visited set: whatever the transfer functions do, a state is in the
    visited set or deleted, the work list never holds a deleted state, and
    [clearStates] leaves no state behind. *)
Theorem visited_set_owns_the_states runs fuel bal fresh e :
  owned e ->
  (forall e' trace,
     Bcheck.checkFunction hash_combine MAX_STATES MAX_PSTACK_SIZE aliasChainBound ir cm
       cprotect liveVars dom fn runs fuel bal fresh e = Bcheck.Done e' trace -> owned e') /\
  (forall e',
     Bcheck.checkFunction hash_combine MAX_STATES MAX_PSTACK_SIZE aliasChainBound ir cm
       cprotect liveVars dom fn runs fuel bal fresh e = Bcheck.Crashed e' -> owned e') /\
  (forall p, Bcheck.heap (Bcheck.clearStates e) !! p = None).
Proof.
  intros Ho. unfold Bcheck.checkFunction.
  assert (Ho' : owned (Bcheck.on_emsg msg_newFunction e)) by (revert Ho; by apply owned_same).
  split; [|split].
  - intros e' trace H. eapply restartLoop_owned; [exact Ho' | left; eauto].
  - intros e' H. eapply restartLoop_owned; [exact Ho' | right; eauto].
  - intros p. by apply clearStates_empties.
Qed.

(** A chain of aliases that ends within the bound is walked to its end:
    the walk returns. *)
Lemma followAliases_ends n origVar r :
  aliasChainEnds ir n origVar = true ->
  exists r', FreshVars.followAliases ir (S n) origVar r = (r', Next tt).
Proof.
  revert origVar r. induction n as [|n IH]; intros origVar r.
  - simpl. destruct (findOnlyStoreTo ir origVar) as [[]|]; try (by eexists).
    destruct (loadedVar _); [done | by eexists].
  - intros Hends. simpl in Hends.
    change (FreshVars.followAliases ir (S (S n)) origVar r) with
      (match findOnlyStoreTo ir origVar with
       | Some (StoreInst _ valueOp _) =>
           match loadedVar valueOp with
           | Some v => bind (modify (on_freshVars (set_vars (delete v))))
                         (fun _ => FreshVars.followAliases ir (S n) v)
           | None => ret tt
           end
       | _ => ret tt
       end r).
    destruct (findOnlyStoreTo ir origVar) as [[]|]; try (by eexists).
    destruct (loadedVar _) as [v|]; [|by eexists].
    unfold bind, modify. apply IH. exact Hends.
Qed.

(** A run of the check of a function comes to an end when the chains
    of aliases of the function end within the bound (no variable is, through
    the stores that define it, an alias of itself): every walk along the
    aliases then returns, and some number of rounds of the work loop is
    enough for the run, whatever the transfer functions of the balance and
    of the guards are; more rounds give the same result.  The run returns
    or stops at a failed assertion. *)
Theorem run_of_checkFunction_terminates ig sg bal fresh e :
  (forall v, aliasChainEnds ir aliasChainBound v = true) ->
  (forall origVar r,
     exists r', FreshVars.followAliases ir (S aliasChainBound) origVar r = (r', Next tt)) /\
  exists fuel res, forall fuel', (fuel <= fuel')%nat ->
    Bcheck.checkFunction_run hash_combine MAX_STATES MAX_PSTACK_SIZE aliasChainBound ir cm
      cprotect liveVars dom fn ig sg bal fresh fuel' e = Some res.
Proof.
  intros Hends. split.
  - intros origVar r. by apply followAliases_ends.
  - destruct (checkFunction_run_terminates hash_combine MAX_STATES MAX_PSTACK_SIZE
                aliasChainBound ir cm cprotect liveVars dom fn ig sg bal fresh e)
      as (fuel & res & Hres).
    exists fuel, res. intros fuel' Hle. by eapply checkFunction_run_more.
Qed.

End Ownership.

Lemma visited_set_owns_the_states_witness :
  exists e',
    Bcheck.checkFunction Samples.hash_combine 100 4 7 Samples.ir Samples.cm Samples.cprotect
      Samples.liveVars Samples.dom (Samples.chain Samples.isThird) 3 20 true true
      Samples.engine0 = Bcheck.Done e' [(false, false); (true, false); (true, true)] /\
    owned e'.
Proof.
  eexists. split; [vm_compute; reflexivity|].
  assert (Ho : owned Samples.engine0).
  { split; [|split]; simpl.
    - intros p. rewrite lookup_empty. split; [by intros [? ?] | by intros ?%elem_of_nil].
    - by intros p ?%elem_of_nil.
    - by intros p ?%elem_of_nil. }
  destruct (visited_set_owns_the_states Samples.hash_combine 100 4 7 Samples.ir Samples.cm
              Samples.cprotect Samples.liveVars Samples.dom (Samples.chain Samples.isThird)
              3 20 true true Samples.engine0 Ho) as (Hdone & _).
  eapply Hdone. vm_compute. reflexivity.
Defined.

Lemma run_of_checkFunction_terminates_witness :
  exists fuel res, forall fuel', (fuel <= fuel')%nat ->
    Bcheck.checkFunction_run Samples.hash_combine 100 4 7 Samples.ir Samples.cm Samples.cprotect
      Samples.liveVars Samples.dom (Samples.chain Samples.isThird) false false true true
      fuel' Samples.engine0 = Some res.
Proof.
  apply (run_of_checkFunction_terminates Samples.hash_combine 100 4 7 Samples.ir Samples.cm
           Samples.cprotect Samples.liveVars Samples.dom (Samples.chain Samples.isThird)
           false false true true Samples.engine0).
  intros v. reflexivity.
Defined.

(* ================================================================== *)
(** * What every transfer of the fresh variables keeps *)
(* ================================================================== *)

#[local] Instance grows_preorder' : PreOrder grows.
Proof. split; unfold grows; [by intros r | intros r1 r2 r3 H1 H2 li Hli; auto]. Qed.

#[local] Instance steady_preorder : PreOrder steady.
Proof.
  split.
  - intros r. unfold steady. split; [done|]. split; [done|]. split; [done|]. split; [|done]. by left.
  - intros r1 r2 r3 (Hg1 & Hn1 & Hc1 & Hs1 & Hk1) (Hg2 & Hn2 & Hc2 & Hs2 & Hk2).
    split; [by etransitivity|]. split; [auto|]. split; [auto|]. split; [|auto].
    intros Hc3. destruct (Hs2 Hc3) as [Hc|Hli]; [|by right].
    destruct (Hs1 Hc) as [?|(li & Hli & Hno)]; [by left|].
    right. exists li. split; [by apply Hg2 | done].
Qed.

Lemma nonnegative_insert vs v n : 0 <= n -> nonnegative vs -> nonnegative (<[v := n]> vs).
Proof.
  intros Hn Hvs w m. destruct (decide (w = v)) as [->|Hne].
  - rewrite lookup_insert_eq. intros [= <-]. done.
  - rewrite lookup_insert_ne by done. apply Hvs.
Qed.

Lemma nonnegative_delete vs v : nonnegative vs -> nonnegative (delete v vs).
Proof. intros Hvs w m Hw. apply (Hvs w m). by apply lookup_delete_Some in Hw as [_ ?]. Qed.

Lemma nonnegative_zero (vs : gmap AllocaInst Z) : nonnegative ((fun _ => 0) <$> vs).
Proof. intros w m. rewrite lookup_fmap. destruct (vs !! w); simpl; [|done]. by intros [= <-]. Qed.

Lemma steady_msg f r : grows r (on_msg f r) -> steady r (on_msg f r).
Proof. intros Hg. split; [exact Hg|]. split; [done|]. split; [done|]. split; [by left | done]. Qed.

Lemma steady_incr r : steady r (incr_refinableInfos r).
Proof. split; [by unfold grows|]. split; [done|]. split; [done|]. split; [by left | done]. Qed.

Lemma steady_vars f r :
  (nonnegative (vars (freshVars r)) -> nonnegative (f (vars (freshVars r)))) ->
  steady r (on_freshVars (set_vars f) r).
Proof. intros Hf. split; [by unfold grows|]. split; [exact Hf|]. split; [done|]. split; [by left | done]. Qed.

Lemma steady_pstack f r : steady r (on_freshVars (set_pstack f) r).
Proof. split; [by unfold grows|]. split; [done|]. split; [done|]. split; [by left | done]. Qed.

Lemma steady_condMsgs f r : steady r (on_freshVars (set_condMsgs f) r).
Proof. split; [by unfold grows|]. split; [done|]. split; [done|]. split; [by left | done]. Qed.

Lemma steady_unprotectAll r : steady r (on_freshVars FreshVars.unprotectAll r).
Proof.
  split; [by unfold grows|]. split; [intros _; apply nonnegative_zero|]. split; [done|].
  split; [by left | done].
Qed.

Lemma steady_confused r :
  (exists li, li ∈ lineBuffer (msg r) /\ confusionNotice li) ->
  steady r (on_freshVars (set_confused true) r).
Proof.
  intros Hli. split; [by unfold grows|]. split; [done|]. split; [done|]. split; [by right | done].
Qed.

Lemma steady_prune var r :
  steady r (on_freshVars (fun fv => set_condMsgs (cm_erase var) (set_vars (delete var) fv)) r).
Proof.
  split; [by unfold grows|]. split; [apply nonnegative_delete|]. split; [done|].
  split; [by left | done].
Qed.

(** The inversion of the steps that lead to the current state. *)
Ltac steps_inv :=
  repeat match goal with
  | H : gets _ _ = (_, Next _) |- _ => unfold gets in H; injection H as ? ?; subst
  | H : modify _ _ = (_, Next _) |- _ => unfold modify in H; injection H as ? ?; subst
  | H : info _ _ _ = (_, Next _) |- _ => unfold info, modify in H; injection H as ? ?; subst
  | H : bool_decide _ = true |- _ => apply bool_decide_eq_true in H
  | H : bool_decide _ = false |- _ => apply bool_decide_eq_false in H
  end.

Ltac notice :=
  eexists; split;
  [ simpl; apply msg_info_emitted
  | unfold confusionNotice; simpl; eauto 8 ].

Ltac steady_modify :=
  first
  [ apply steady_incr
  | apply steady_pstack
  | apply steady_condMsgs
  | apply steady_unprotectAll
  | apply steady_prune
  | apply steady_msg; first [apply grows_info | apply grows_flush]
  | apply steady_vars; intros ?;
    first [ by apply nonnegative_delete
          | apply nonnegative_insert; [lia | done]
          | apply nonnegative_zero ]
  | steps_inv; apply steady_confused; notice ].

Section Steady.

Variable ir : IRInfo.
Variable cm : CalledModuleTy.
Variable cprotect : CProtectInfo.
Variable liveVars : LiveVarsTy.
Variable MAX_PSTACK_SIZE : nat.
Variable aliasChainBound : nat.

Lemma pruneFreshVars_steady in_ r : follows steady (FreshVars.pruneFreshVars liveVars in_) r.
Proof. unfold FreshVars.pruneFreshVars, FreshVars.pruneOne. follow; steady_modify. Qed.

Lemma issueConditionalMessage_steady in_ var text r :
  follows steady (FreshVars.issueConditionalMessage liveVars in_ var text) r.
Proof. unfold FreshVars.issueConditionalMessage. follow; steady_modify. Qed.

Lemma isVarCheckedFresh_steady var r : follows steady (FreshVars.isVarCheckedFresh ir var) r.
Proof.
  unfold follows, FreshVars.isVarCheckedFresh.
  destruct (isSEXP ir var); simpl; [|reflexivity].
  run. destruct (checkedVarsCache r !! var) as [b|] eqn:Hc; simpl; [reflexivity|].
  destruct (FreshVars.onlyLoadStoreUses ir var); simpl.
  - split; [by unfold grows|]. split; [done|]. split; [done|]. split; [by left|].
    intros v b Hv. simpl. rewrite lookup_insert_ne; [done|]. intros ->. congruence.
  - split; [apply grows_info|]. split; [done|]. split; [done|]. split; [by left|].
    intros v b Hv. simpl. rewrite lookup_insert_ne; [done|]. intros ->. congruence.
Qed.

Lemma unprotectOne_steady in_ r : follows steady (FreshVars.unprotectOne in_) r.
Proof. unfold FreshVars.unprotectOne. follow; steps_inv; steady_modify. Qed.

Lemma handlePreserveObject_steady in_ args r :
  follows steady (FreshVars.handlePreserveObject ir in_ args) r.
Proof. unfold FreshVars.handlePreserveObject. follow; steady_modify. Qed.

Lemma handleReprotect_steady var r : follows steady (FreshVars.handleReprotect var) r.
Proof. unfold FreshVars.handleReprotect. follow; steady_modify. Qed.

Lemma protectedVariable_steady in_ arg r :
  follows steady (FreshVars.protectedVariable ir in_ arg) r.
Proof.
  unfold FreshVars.protectedVariable.
  follow; try apply isVarCheckedFresh_steady; steady_modify.
Qed.

Lemma pushProtected_steady var r :
  follows steady (FreshVars.pushProtected MAX_PSTACK_SIZE var) r.
Proof.
  unfold FreshVars.pushProtected. follow; steps_inv; try steady_modify.
  apply steady_vars. simpl. intros Hnn. apply nonnegative_insert; [|done].
  match goal with H : vars _ !! _ = Some _ |- _ => pose proof (Hnn _ _ H) end. lia.
Qed.

Lemma handleProtect_steady in_ f args r :
  follows steady (FreshVars.handleProtect ir MAX_PSTACK_SIZE in_ f args) r.
Proof.
  unfold FreshVars.handleProtect.
  follow; [apply protectedVariable_steady | apply handleReprotect_steady
          | apply pushProtected_steady].
Qed.

Lemma handleUnprotect_steady in_ args balance r :
  follows steady (FreshVars.handleUnprotect in_ args balance) r.
Proof.
  unfold FreshVars.handleUnprotect. follow; try apply unprotectOne_steady; steady_modify.
Qed.

Lemma handleProtectionCalls_steady in_ f args balance r :
  follows steady (FreshVars.handleProtectionCalls ir MAX_PSTACK_SIZE in_ f args balance) r.
Proof.
  unfold FreshVars.handleProtectionCalls.
  follow; [apply handlePreserveObject_steady | apply handleProtect_steady
          | apply handleUnprotect_steady].
Qed.

Lemma checkAllocatingArguments_steady in_ tgt args g r :
  follows steady (FreshVars.checkAllocatingArguments cm cprotect in_ tgt args g) r.
Proof. unfold FreshVars.checkAllocatingArguments. follow; steady_modify. Qed.

Lemma checkFreshVarsAtCall_steady in_ tgt f args r :
  follows steady (FreshVars.checkFreshVarsAtCall ir liveVars in_ tgt f args) r.
Proof.
  unfold FreshVars.checkFreshVarsAtCall.
  follow; try apply issueConditionalMessage_steady; steady_modify.
Qed.

Lemma handleAllocatingCall_steady in_ tgt args g c r :
  follows steady (FreshVars.handleAllocatingCall ir cm cprotect liveVars in_ tgt args g c) r.
Proof.
  unfold FreshVars.handleAllocatingCall.
  follow; try apply checkAllocatingArguments_steady; try apply pruneFreshVars_steady;
    try apply checkFreshVarsAtCall_steady.
Qed.

Lemma handleCall_steady in_ g balance r :
  follows steady (FreshVars.handleCall ir cm cprotect liveVars MAX_PSTACK_SIZE in_ g balance) r.
Proof.
  unfold FreshVars.handleCall.
  follow; try apply handleProtectionCalls_steady; try apply handleAllocatingCall_steady.
Qed.

Lemma handleLoad_steady in_ g r :
  follows steady (FreshVars.handleLoad ir cm cprotect liveVars in_ g) r.
Proof.
  unfold FreshVars.handleLoad, FreshVars.flushConditionalMessages, FreshVars.handleLoadOfFresh.
  follow; try apply issueConditionalMessage_steady; steady_modify.
Qed.

Lemma followAliases_steady fuel v r : follows steady (FreshVars.followAliases ir fuel v) r.
Proof.
  revert v r. induction fuel as [|fuel IH]; intros v r; simpl; follow; try steady_modify.
  apply IH.
Qed.

Lemma handleStoreToStackTop_steady in_ val balance r :
  follows steady (FreshVars.handleStoreToStackTop in_ val balance) r.
Proof.
  unfold FreshVars.handleStoreToStackTop.
  follow; try apply unprotectOne_steady; steady_modify.
Qed.

Lemma handleStoreToVar_steady in_ var val g r :
  follows steady (FreshVars.handleStoreToVar ir cm in_ var val g) r.
Proof.
  unfold FreshVars.handleStoreToVar.
  follow; try apply isVarCheckedFresh_steady; try steady_modify.
  repeat (case_match; simplify_eq/=); follow; steady_modify.
Qed.

Lemma handleStore_steady in_ g balance r :
  follows steady (FreshVars.handleStore ir cm aliasChainBound in_ g balance) r.
Proof.
  unfold FreshVars.handleStore, FreshVars.unfreshAliasedVars.
  follow; try apply followAliases_steady; try apply isVarCheckedFresh_steady;
    try apply handleStoreToStackTop_steady; try apply handleStoreToVar_steady;
    steady_modify.
Qed.

Lemma handleFreshVarsForNonTerminator_steady in_ g balance r :
  follows steady
    (FreshVars.handleFreshVarsForNonTerminator ir cm cprotect liveVars MAX_PSTACK_SIZE
       aliasChainBound in_ g balance) r.
Proof.
  unfold FreshVars.handleFreshVarsForNonTerminator.
  follow; [apply handleCall_steady | apply handleLoad_steady | apply handleStore_steady].
Qed.

End Steady.

Section Kept.

Variable ir : IRInfo.
Variable cm : CalledModuleTy.
Variable cprotect : CProtectInfo.
Variable liveVars : LiveVarsTy.
Variable MAX_PSTACK_SIZE : nat.
Variable aliasChainBound : nat.

Local Abbreviation transfer :=
  (FreshVars.handleFreshVarsForNonTerminator ir cm cprotect liveVars MAX_PSTACK_SIZE
     aliasChainBound).

(** The protect counts are never negative: the transfer of an
    instruction, whatever the instruction, keeps every protect count at
    zero or above. *)
Theorem protect_counts_stay_nonnegative in_ g balance r :
  nonnegative (vars (freshVars r)) ->
  nonnegative (vars (freshVars (transfer in_ g balance r).1)).
Proof.
  intros Hnn.
  by destruct (handleFreshVarsForNonTerminator_steady ir cm cprotect liveVars MAX_PSTACK_SIZE
                 aliasChainBound in_ g balance r) as (_ & Hn & _); auto.
Qed.

(** The tool does not become confused silently: when the transfer of an
    instruction sets the confused flag, one of the five findings that say
    so is in the buffer of messages. *)
Theorem confused_flag_is_set_with_a_notice in_ g balance r :
  confused (freshVars r) = false ->
  confused (freshVars (transfer in_ g balance r).1) = true ->
  exists li, li ∈ lineBuffer (msg (transfer in_ g balance r).1) /\ confusionNotice li.
Proof.
  intros Hc Hc'.
  destruct (handleFreshVarsForNonTerminator_steady ir cm cprotect liveVars MAX_PSTACK_SIZE
              aliasChainBound in_ g balance r) as (_ & _ & _ & Hs & _).
  destruct (Hs Hc') as [?|?]; [congruence | done].
Qed.

(** The answer of [isVarCheckedFresh] for a variable is computed once:
    after it has been given, and after the transfer of any instruction,
    the same answer is given again, and giving it changes nothing -- in
    particular the notice that the variable is ignored is not emitted
    a second time. *)
Theorem checked_variable_answer_is_memoized var b r r1 in_ g balance :
  FreshVars.isVarCheckedFresh ir var r = (r1, Next b) ->
  FreshVars.isVarCheckedFresh ir var r1 = (r1, Next b) /\
  FreshVars.isVarCheckedFresh ir var (transfer in_ g balance r1).1 =
    ((transfer in_ g balance r1).1, Next b).
Proof.
  intros Hfirst.
  assert (Hkept : forall r2, (forall v c, checkedVarsCache r1 !! v = Some c ->
                                checkedVarsCache r2 !! v = Some c) ->
                  FreshVars.isVarCheckedFresh ir var r2 = (r2, Next b)).
  { revert Hfirst. unfold FreshVars.isVarCheckedFresh.
    destruct (isSEXP ir var); simpl; [|by intros [= <- <-]].
    run. destruct (checkedVarsCache r !! var) as [c|] eqn:Hc; simpl.
    - intros [= <- <-] r2 Hr2. by rewrite (Hr2 var c Hc).
    - destruct (FreshVars.onlyLoadStoreUses ir var); simpl; intros [= <- <-] r2 Hr2;
        rewrite (Hr2 var _ (lookup_insert_eq _ _ _)); done. }
  split; [by apply Hkept|].
  apply Hkept.
  by destruct (handleFreshVarsForNonTerminator_steady ir cm cprotect liveVars MAX_PSTACK_SIZE
                 aliasChainBound in_ g balance r1) as (_ & _ & _ & _ & Hk).
Qed.

End Kept.

Lemma protect_counts_stay_nonnegative_witness :
  nonnegative (vars (freshVars
    (FreshVars.handleFreshVarsForNonTerminator Samples.ir Samples.cm Samples.cprotect
       Samples.liveVars 4 7 (Samples.unprotect 1) None None (Samples.tracking false)).1)).
Proof.
  apply (protect_counts_stay_nonnegative Samples.ir Samples.cm Samples.cprotect
           Samples.liveVars 4 7 (Samples.unprotect 1) None None (Samples.tracking false)).
  intros v n Hv. simpl in Hv. apply lookup_singleton_Some in Hv as [_ <-]. lia.
Defined.

Lemma confused_flag_is_set_with_a_notice_witness :
  exists li,
    li ∈ lineBuffer (msg
      (FreshVars.handleFreshVarsForNonTerminator Samples.ir Samples.cm Samples.cprotect
         Samples.liveVars 4 7 (Samples.unprotect 3) None None (Samples.tracking false)).1) /\
    confusionNotice li.
Proof.
  apply (confused_flag_is_set_with_a_notice Samples.ir Samples.cm Samples.cprotect
           Samples.liveVars 4 7 (Samples.unprotect 3) None None (Samples.tracking false)).
  - reflexivity.
  - vm_compute. reflexivity.
Defined.

Lemma checked_variable_answer_is_memoized_witness :
  FreshVars.isVarCheckedFresh Samples.ir Samples.x
    (FreshVars.handleFreshVarsForNonTerminator Samples.ir Samples.cm Samples.cprotect
       Samples.liveVars 4 7 Samples.store_x None None
       (on_cache <[Samples.x := true]> Samples.refs0)).1 =
  ((FreshVars.handleFreshVarsForNonTerminator Samples.ir Samples.cm Samples.cprotect
      Samples.liveVars 4 7 Samples.store_x None None
      (on_cache <[Samples.x := true]> Samples.refs0)).1, Next true).
Proof.
  apply (checked_variable_answer_is_memoized Samples.ir Samples.cm Samples.cprotect
           Samples.liveVars 4 7 Samples.x true Samples.refs0
           (on_cache <[Samples.x := true]> Samples.refs0) Samples.store_x None None).
  vm_compute. reflexivity.
Defined.

(* ================================================================== *)
(** * Protect and unprotect in a row; the restore of a saved stack top *)
(* ================================================================== *)

Lemma pop_back_push_back {A} (l : list A) x : pop_back (push_back x l) = l.
Proof. unfold pop_back, push_back. apply removelast_last. Qed.

Lemma back_push_back {A} (l : list A) x : back (push_back x l) = Some x.
Proof. unfold back, push_back. apply last_snoc. Qed.

Section RoundTrip.

Variable ir : IRInfo.
Variable cm : CalledModuleTy.
Variable cprotect : CProtectInfo.
Variable liveVars : LiveVarsTy.
Variable MAX_PSTACK_SIZE : nat.
Variable aliasChainBound : nat.

(** A variable the tool tracks: the answer comes without a notice, and
    only the cache can have changed. *)
Lemma isVarCheckedFresh_checked var r :
  checkedFresh ir (checkedVarsCache r) var = true ->
  exists c,
    FreshVars.isVarCheckedFresh ir var r = (on_cache (fun _ => c) r, Next true) /\
    checkedFresh ir c var = true.
Proof.
  unfold FreshVars.isVarCheckedFresh, checkedFresh.
  destruct (isSEXP ir var); simpl; [|done].
  run. destruct (checkedVarsCache r !! var) as [b|] eqn:Hc; simpl.
  - intros ->. exists (checkedVarsCache r). split; [by destruct r|]. by rewrite Hc.
  - intros ->. exists (<[var := true]> (checkedVarsCache r)). split; [done|].
    by rewrite lookup_insert_eq.
Qed.

(** [PROTECT(x)] of a tracked variable, the stack not being full. *)
Lemma handleCall_protect_variable a f l g balance tgt x r :
  getCalledFunction cm (CallInst a (Some f) [LoadInst l (Alloca x)]) g = Some tgt ->
  fname (fun_ tgt) = "Rf_protect" \/ fname (fun_ tgt) = "R_ProtectWithIndex" ->
  confused (freshVars r) = false ->
  checkedFresh ir (checkedVarsCache r) x = true ->
  length (pstack (freshVars r)) <> MAX_PSTACK_SIZE ->
  exists c,
    checkedFresh ir c x = true /\
    FreshVars.handleCall ir cm cprotect liveVars MAX_PSTACK_SIZE
      (CallInst a (Some f) [LoadInst l (Alloca x)]) g balance r =
    (mkRefs (mkFreshVars
               (<[x := match vars (freshVars r) !! x with Some n => n + 1 | None => 1 end]>
                  (vars (freshVars r)))
               (condMsgs (freshVars r))
               (push_back (Some x) (pstack (freshVars r)))
               false)
            (msg r) (refinableInfos r) c, Returned).
Proof.
  intros Ht Hf Hc Hx Hlen.
  destruct (isVarCheckedFresh_checked x r Hx) as (c & Hrun & Hcx).
  exists c. split; [done|].
  rewrite (handleCall_resolved ir cm cprotect liveVars MAX_PSTACK_SIZE) with (tgt := tgt) by done.
  rewrite Hc. simpl. unfold bind at 1.
  rewrite (protection_protect ir MAX_PSTACK_SIZE) by done.
  unfold FreshVars.handleProtect. simpl.
  assert (Hn : bool_decide (fname (fun_ tgt) = "R_Reprotect") = false).
  { apply bool_decide_eq_false. by destruct Hf as [-> | ->]. }
  rewrite Hn.
  unfold FreshVars.protectedVariable. simpl.
  unfold bind at 1. unfold bind at 1. unfold gets at 1. cbv beta iota.
  unfold bind at 1. unfold ret at 1. cbv beta iota.
  unfold bind at 1. rewrite Hrun. cbv beta iota. unfold ret at 1. cbv beta iota.
  unfold FreshVars.pushProtected. unfold bind at 1. unfold gets at 1. cbv beta iota.
  simpl. rewrite bool_decide_eq_false_2 by done.
  run. destruct r as [[vs cms ps cf] m n k]. simpl in *. subst cf.
  by destruct (vs !! x).
Qed.

(** [UNPROTECT(k)] for a constant [k] within the stack, the function not
    being one that allocates. *)
Lemma handleCall_unprotect_constant a f k g balance tgt r :
  getCalledFunction cm (CallInst a (Some f) [ConstantInt k]) g = Some tgt ->
  fname (fun_ tgt) = "Rf_unprotect" ->
  isCAllocating cm tgt = false ->
  confused (freshVars r) = false ->
  (N.to_nat k <= length (pstack (freshVars r)))%nat ->
  exists r',
    (FreshVars.handleCall ir cm cprotect liveVars MAX_PSTACK_SIZE
       (CallInst a (Some f) [ConstantInt k]) g balance r).1 = r' /\
    freshVars r' = Nat.iter (N.to_nat k) popProtected (freshVars r) /\
    msg r' = msg r /\ checkedVarsCache r' = checkedVarsCache r.
Proof.
  intros Ht Hf Ha Hc Hk.
  destruct (repeat_unprotectOne (CallInst a (Some f) [ConstantInt k]) (N.to_nat k) r Hk)
    as (r1 & Hrun & Hfv & Hm & Hca).
  exists r1.
  rewrite (handleCall_resolved ir cm cprotect liveVars MAX_PSTACK_SIZE) with (tgt := tgt) by done.
  rewrite Hc. simpl. unfold bind at 1.
  rewrite (protection_unprotect ir MAX_PSTACK_SIZE) by done.
  unfold FreshVars.handleUnprotect. simpl.
  unfold bind at 1. unfold gets at 1. cbv beta iota.
  rewrite bool_decide_eq_false_2 by lia.
  rewrite Hrun. unfold FreshVars.handleAllocatingCall. rewrite Ha. simpl. done.
Qed.

(** The two calls of [PROTECT(x); UNPROTECT(1)], handled one after the
    other. *)
Lemma handleCall_protect_then_unprotect a1 f1 l a2 f2 g balance t1 t2 x r :
  getCalledFunction cm (CallInst a1 (Some f1) [LoadInst l (Alloca x)]) g = Some t1 ->
  fname (fun_ t1) = "Rf_protect" ->
  getCalledFunction cm (CallInst a2 (Some f2) [ConstantInt 1]) g = Some t2 ->
  fname (fun_ t2) = "Rf_unprotect" ->
  isCAllocating cm t2 = false ->
  confused (freshVars r) = false ->
  checkedFresh ir (checkedVarsCache r) x = true ->
  (length (pstack (freshVars r)) < MAX_PSTACK_SIZE)%nat ->
  nonnegative (vars (freshVars r)) ->
  freshVars
    (FreshVars.handleCall ir cm cprotect liveVars MAX_PSTACK_SIZE
       (CallInst a2 (Some f2) [ConstantInt 1]) g balance
       (FreshVars.handleCall ir cm cprotect liveVars MAX_PSTACK_SIZE
          (CallInst a1 (Some f1) [LoadInst l (Alloca x)]) g balance r).1).1 =
  set_vars <[x := default 0 (vars (freshVars r) !! x)]> (freshVars r) /\
  msg
    (FreshVars.handleCall ir cm cprotect liveVars MAX_PSTACK_SIZE
       (CallInst a2 (Some f2) [ConstantInt 1]) g balance
       (FreshVars.handleCall ir cm cprotect liveVars MAX_PSTACK_SIZE
          (CallInst a1 (Some f1) [LoadInst l (Alloca x)]) g balance r).1).1 = msg r.
Proof.
  intros Ht1 Hf1 Ht2 Hf2 Ha2 Hc Hx Hlen Hnn.
  destruct (handleCall_protect_variable a1 f1 l g balance t1 x r Ht1 (or_introl Hf1) Hc Hx)
    as (c & _ & ->); [lia|]. simpl.
  set (r1 := mkRefs _ _ _ _).
  destruct (handleCall_unprotect_constant a2 f2 1 g balance t2 r1 Ht2 Hf2 Ha2 eq_refl)
    as (r2 & -> & Hfv & Hm & _).
  { simpl. unfold push_back. rewrite length_app. simpl. lia. }
  split; [|by rewrite Hm].
  rewrite Hfv. simpl. unfold popProtected, r1. simpl.
  rewrite back_push_back, lookup_insert_eq. unfold set_vars, set_pstack. simpl.
  rewrite pop_back_push_back, insert_insert_eq.
  destruct (freshVars r) as [vs cms ps cf]. simpl in *. subst cf. f_equal.
  destruct (vs !! x) as [n|] eqn:Hn; simpl; f_equal.
  pose proof (Hnn x n Hn). lia.
Qed.

Lemma cm_erase_id v m : cm_find v m = None -> cm_erase v m = m.
Proof.
  unfold cm_erase. induction m as [|[k d] m IH]; [done|]. simpl.
  case_bool_decide as Hk; [done|]. intros Hm.
  rewrite filter_cons_True by done. by rewrite IH.
Qed.

(** The flush of the pending messages of a variable. *)
Lemma flushConditionalMessages_exact v r :
  exists r1,
    FreshVars.flushConditionalMessages v r = (r1, Next tt) /\
    freshVars r1 = set_condMsgs (cm_erase v) (freshVars r) /\
    msg r1 = delayed_flush (pendingOf v (freshVars r)) (msg r) /\
    checkedVarsCache r1 = checkedVarsCache r.
Proof.
  unfold FreshVars.flushConditionalMessages, pendingOf. run.
  destruct (cm_find v (condMsgs (freshVars r))) as [d|] eqn:Hd; simpl.
  - eexists. by split.
  - exists r. split; [done|]. split; [|done].
    unfold set_condMsgs. rewrite (cm_erase_id _ _ Hd). by destruct (freshVars r).
Qed.

(** An instruction that is a call: only [handleCall] acts. *)
Lemma transfer_of_call a c args g balance r :
  isStoreToStructureElement ir (CallInst a c args) = None ->
  (FreshVars.handleFreshVarsForNonTerminator ir cm cprotect liveVars MAX_PSTACK_SIZE
     aliasChainBound (CallInst a c args) g balance r).1 =
  (FreshVars.handleCall ir cm cprotect liveVars MAX_PSTACK_SIZE (CallInst a c args) g balance r).1.
Proof.
  intros Hs. unfold FreshVars.handleFreshVarsForNonTerminator.
  unfold bind at 1. unfold call at 1.
  destruct (FreshVars.handleCall _ _ _ _ _ _ g balance r) as [r1 [[]| |]]; simpl; [| |done].
  all: unfold FreshVars.handleLoad, FreshVars.handleStore; run; rewrite Hs;
       destruct (confused (freshVars r1)) eqn:Hc1; simpl; rewrite ?Hc1; done.
Qed.

(** The load of a variable that is passed to a function that does not
    allocate: the pending messages of the variable are written out, and
    nothing else happens. *)
Lemma transfer_of_load_for_call l x a1 f1 t1 g balance r :
  getCalledFunction cm (LoadInst l (Alloca x)) g = None ->
  isStoreToStructureElement ir (LoadInst l (Alloca x)) = None ->
  users ir (LoadInst l (Alloca x)) = [CallInst a1 (Some f1) [LoadInst l (Alloca x)]] ->
  getCalledFunction cm (CallInst a1 (Some f1) [LoadInst l (Alloca x)]) g = Some t1 ->
  isCAllocating cm t1 = false ->
  confused (freshVars r) = false ->
  exists r1,
    (FreshVars.handleFreshVarsForNonTerminator ir cm cprotect liveVars MAX_PSTACK_SIZE
       aliasChainBound (LoadInst l (Alloca x)) g balance r).1 = r1 /\
    freshVars r1 = set_condMsgs (cm_erase x) (freshVars r) /\
    msg r1 = delayed_flush (pendingOf x (freshVars r)) (msg r) /\
    checkedVarsCache r1 = checkedVarsCache r.
Proof.
  intros Hn Hs Hu Ht1 Ha Hc.
  destruct (flushConditionalMessages_exact x r) as (r1 & Hflush & Hfv & Hm & Hca).
  exists r1. split; [|done].
  assert (Hload : FreshVars.handleLoad ir cm cprotect liveVars (LoadInst l (Alloca x)) g r =
                  (r1, Returned)).
  { destruct (handleLoad_unfold ir cm cprotect liveVars l x g r Hc) as (r1' & Hflush' & ->).
    rewrite Hflush in Hflush'. injection Hflush' as <-.
    destruct (vars (freshVars r1) !! x) as [n|]; [|done].
    unfold FreshVars.handleLoadOfFresh. unfold bind at 1. unfold gets at 1. cbv beta iota.
    rewrite Hu. unfold hasOneUse, user_back. rewrite Hu. simpl.
    rewrite Ht1, Ha. simpl. done. }
  unfold FreshVars.handleFreshVarsForNonTerminator.
  unfold bind at 1. unfold call at 1.
  assert (Hcall : FreshVars.handleCall ir cm cprotect liveVars MAX_PSTACK_SIZE
                    (LoadInst l (Alloca x)) g balance r = (r, Returned)).
  { unfold FreshVars.handleCall. run. by rewrite Hn. }
  rewrite Hcall. unfold bind at 1. unfold call at 1. rewrite Hload.
  unfold FreshVars.handleStore. run. rewrite Hs.
  destruct (confused (freshVars r1)) eqn:Hc1; simpl; rewrite ?Hc1; done.
Qed.

Local Abbreviation transfer :=
  (FreshVars.handleFreshVarsForNonTerminator ir cm cprotect liveVars MAX_PSTACK_SIZE
     aliasChainBound).

#[local] Arguments cm_erase : simpl never.

(** [PROTECT(x); UNPROTECT(1)], the three instructions as the checker
    visits them: the load of [x], the call of [Rf_protect] with the value
    loaded and the call of [Rf_unprotect] with the constant 1.  On a trace
    that is not confused, [x] being a variable the tool tracks, the value
    loaded being used by the call only, neither function being one that
    allocates, the protect stack not being full and the protect counts
    not being negative: the protect stack and the protect counts are
    afterwards what they were, but for a variable that was not in [vars],
    which is in it afterwards with the protect count zero; the pending
    messages of [x] have been written out by the load, and nothing else
    has been reported.  When [x] was in [vars] and had no pending message,
    the fresh variables and the buffer of messages are what they were. *)
Theorem protect_then_unprotect_restores a1 f1 l a2 f2 g balance t1 t2 x r :
  getCalledFunction cm (LoadInst l (Alloca x)) g = None ->
  users ir (LoadInst l (Alloca x)) = [CallInst a1 (Some f1) [LoadInst l (Alloca x)]] ->
  getCalledFunction cm (CallInst a1 (Some f1) [LoadInst l (Alloca x)]) g = Some t1 ->
  fname (fun_ t1) = "Rf_protect" ->
  isCAllocating cm t1 = false ->
  getCalledFunction cm (CallInst a2 (Some f2) [ConstantInt 1]) g = Some t2 ->
  fname (fun_ t2) = "Rf_unprotect" ->
  isCAllocating cm t2 = false ->
  isStoreToStructureElement ir (LoadInst l (Alloca x)) = None ->
  isStoreToStructureElement ir (CallInst a1 (Some f1) [LoadInst l (Alloca x)]) = None ->
  isStoreToStructureElement ir (CallInst a2 (Some f2) [ConstantInt 1]) = None ->
  confused (freshVars r) = false ->
  checkedFresh ir (checkedVarsCache r) x = true ->
  (length (pstack (freshVars r)) < MAX_PSTACK_SIZE)%nat ->
  nonnegative (vars (freshVars r)) ->
  let r' :=
    (transfer (CallInst a2 (Some f2) [ConstantInt 1]) g balance
       (transfer (CallInst a1 (Some f1) [LoadInst l (Alloca x)]) g balance
          (transfer (LoadInst l (Alloca x)) g balance r).1).1).1 in
  freshVars r' =
    set_vars <[x := default 0 (vars (freshVars r) !! x)]>
      (set_condMsgs (cm_erase x) (freshVars r)) /\
  msg r' = delayed_flush (pendingOf x (freshVars r)) (msg r) /\
  pstack (freshVars r') = pstack (freshVars r) /\
  (is_Some (vars (freshVars r) !! x) -> vars (freshVars r') = vars (freshVars r)) /\
  (is_Some (vars (freshVars r) !! x) -> cm_find x (condMsgs (freshVars r)) = None ->
   freshVars r' = freshVars r /\ msg r' = msg r).
Proof.
  intros Hn Hu Ht1 Hf1 Ha1 Ht2 Hf2 Ha2 Hs0 Hs1 Hs2 Hc Hx Hlen Hnn r'. subst r'.
  destruct (transfer_of_load_for_call l x a1 f1 t1 g balance r Hn Hs0 Hu Ht1 Ha1 Hc)
    as (r1 & -> & Hfv1 & Hm1 & Hca1).
  rewrite !transfer_of_call by done.
  destruct (handleCall_protect_then_unprotect a1 f1 l a2 f2 g balance t1 t2 x r1)
    as (Hfv & Hm); try done.
  { by rewrite Hfv1. }
  { by rewrite Hca1. }
  { by rewrite Hfv1. }
  { by rewrite Hfv1. }
  rewrite Hfv, Hm, Hfv1, Hm1. simpl.
  split; [done|]. split; [done|]. split; [done|]. split.
  - intros [n Hx']. rewrite Hx'. simpl. by apply insert_id.
  - intros [n Hx'] Hnone. rewrite Hx'. simpl. unfold pendingOf. rewrite Hnone. simpl.
    split; [|done].
    unfold set_vars, set_condMsgs. cbn [vars condMsgs pstack confused].
    rewrite (cm_erase_id _ _ Hnone), (insert_id _ _ _ Hx').
    by destruct (freshVars r).
Qed.

End RoundTrip.

Lemma protect_then_unprotect_restores_witness :
  freshVars
    (FreshVars.handleFreshVarsForNonTerminator Samples.ir Samples.cm Samples.cprotect
       Samples.liveVars 4 7 (Samples.unprotect 1) None None
       (FreshVars.handleFreshVarsForNonTerminator Samples.ir Samples.cm Samples.cprotect
          Samples.liveVars 4 7 Samples.protect_x None None
          (FreshVars.handleFreshVarsForNonTerminator Samples.ir Samples.cm Samples.cprotect
             Samples.liveVars 4 7 Samples.load_x' None None (Samples.tracking false)).1).1).1 =
    mkFreshVars {[Samples.x := 1]} [] [None; Some Samples.x] false /\
  lineBuffer (msg
    (FreshVars.handleFreshVarsForNonTerminator Samples.ir Samples.cm Samples.cprotect
       Samples.liveVars 4 7 (Samples.unprotect 1) None None
       (FreshVars.handleFreshVarsForNonTerminator Samples.ir Samples.cm Samples.cprotect
          Samples.liveVars 4 7 Samples.protect_x None None
          (FreshVars.handleFreshVarsForNonTerminator Samples.ir Samples.cm Samples.cprotect
             Samples.liveVars 4 7 Samples.load_x' None None (Samples.tracking false)).1).1).1) =
    [Samples.pending_x].
Proof.
  destruct (protect_then_unprotect_restores Samples.ir Samples.cm Samples.cprotect
              Samples.liveVars 4 7 8 Samples.fn_protect 7 9 Samples.fn_unprotect None None
              (mkCalled Samples.fn_protect "Rf_protect")
              (mkCalled Samples.fn_unprotect "Rf_unprotect") Samples.x
              (Samples.tracking false)) as (Hfv & Hm & _);
    [reflexivity | reflexivity | reflexivity | reflexivity | reflexivity | reflexivity
    | reflexivity | reflexivity | reflexivity | reflexivity | reflexivity | reflexivity
    | reflexivity | simpl; lia | |].
  - intros v n Hv. simpl in Hv. apply lookup_singleton_Some in Hv as [_ <-]. lia.
  - split.
    + etransitivity; [exact Hfv|]. vm_compute. reflexivity.
    + etransitivity; [exact (f_equal lineBuffer Hm)|]. vm_compute. reflexivity.
Defined.

Section Restore.

Variable ir : IRInfo.
Variable cm : CalledModuleTy.
Variable aliasChainBound : nat.

Lemma to_int_small z : 0 <= z < 2 ^ 31 -> to_int z = z.
Proof. intros Hz. unfold to_int. rewrite Z.mod_small; lia. Qed.

Lemma handleStore_restore a l save ptr g b r :
  addressOf ptr = AtGlobal (ppStackTopVariable cm) ->
  isStoreToStructureElement ir (StoreInst a (LoadInst l (Alloca save)) ptr) = None ->
  confused (freshVars r) = false ->
  topSaveVar b = Some save ->
  0 <= savedDepth b ->
  Z.of_nat (length (pstack (freshVars r))) < 2 ^ 31 ->
  FreshVars.handleStore ir cm aliasChainBound
    (StoreInst a (LoadInst l (Alloca save)) ptr) g (Some b) r =
  if bool_decide (Z.of_nat (length (pstack (freshVars r))) < savedDepth b) then
    (on_freshVars (set_confused true)
       (on_msg (msg_info restoreHigherText (Some (StoreInst a (LoadInst l (Alloca save)) ptr))) r),
     Returned)
  else if bool_decide (savedDepth b = Z.of_nat (length (pstack (freshVars r)))) then
    (r, Returned)
  else
    bind (repeat_n (Z.to_nat (Z.of_nat (length (pstack (freshVars r))) - savedDepth b))
            (call (FreshVars.unprotectOne (StoreInst a (LoadInst l (Alloca save)) ptr))))
         (fun _ => return_) r.
Proof.
  intros Hptr Hse Hc Hsave Hd Hlen.
  unfold FreshVars.handleStore. unfold bind at 1. unfold gets at 1. rewrite Hc. simpl.
  rewrite Hse. rewrite bool_decide_eq_true_2 by done.
  unfold FreshVars.handleStoreToStackTop. simpl. rewrite Hsave.
  rewrite bool_decide_eq_true_2 by done.
  unfold bind at 1. unfold myassert. rewrite bool_decide_eq_true_2 by done.
  unfold ret at 1. cbv beta iota.
  unfold bind at 1. unfold gets at 1. cbv beta iota.
  rewrite to_int_small by lia.
  repeat case_bool_decide; done.
Qed.

(** [R_PPStackTop = save], [save] being the variable the balance state
    knows to hold a saved stack top, on a trace that is not confused: the
    protect stack is cut back to the saved depth, with the protect counts
    of the variables popped going down and nothing reported; when the
    saved depth is higher than the stack, the stack is left as it is, the
    finding is emitted and the trace is confused. *)
Theorem restore_of_saved_stack_top a l save ptr g b r :
  addressOf ptr = AtGlobal (ppStackTopVariable cm) ->
  isStoreToStructureElement ir (StoreInst a (LoadInst l (Alloca save)) ptr) = None ->
  confused (freshVars r) = false ->
  topSaveVar b = Some save ->
  0 <= savedDepth b ->
  Z.of_nat (length (pstack (freshVars r))) < 2 ^ 31 ->
  (savedDepth b <= Z.of_nat (length (pstack (freshVars r))) ->
   freshVars (FreshVars.handleStore ir cm aliasChainBound
                (StoreInst a (LoadInst l (Alloca save)) ptr) g (Some b) r).1 =
     Nat.iter (length (pstack (freshVars r)) - Z.to_nat (savedDepth b)) popProtected
       (freshVars r) /\
   pstack (freshVars (FreshVars.handleStore ir cm aliasChainBound
                        (StoreInst a (LoadInst l (Alloca save)) ptr) g (Some b) r).1) =
     take (Z.to_nat (savedDepth b)) (pstack (freshVars r)) /\
   msg (FreshVars.handleStore ir cm aliasChainBound
          (StoreInst a (LoadInst l (Alloca save)) ptr) g (Some b) r).1 = msg r) /\
  (Z.of_nat (length (pstack (freshVars r))) < savedDepth b ->
   freshVars (FreshVars.handleStore ir cm aliasChainBound
                (StoreInst a (LoadInst l (Alloca save)) ptr) g (Some b) r).1 =
     set_confused true (freshVars r) /\
   mkLineInfo restoreHigherText (Some (AtInst a)) ∈
     lineBuffer (msg (FreshVars.handleStore ir cm aliasChainBound
                        (StoreInst a (LoadInst l (Alloca save)) ptr) g (Some b) r).1)).
Proof.
  intros Hptr Hse Hc Hsave Hd Hlen.
  rewrite (handleStore_restore a l save ptr g b r) by done.
  split.
  - intros Hle. rewrite bool_decide_eq_false_2 by lia.
    case_bool_decide as Heq.
    + simpl.
      replace (length (pstack (freshVars r)) - Z.to_nat (savedDepth b))%nat with 0%nat by lia.
      simpl. split; [done|]. split; [|done].
      rewrite firstn_all2; [done|]. lia.
    + destruct (repeat_unprotectOne (StoreInst a (LoadInst l (Alloca save)) ptr)
                  (Z.to_nat (Z.of_nat (length (pstack (freshVars r))) - savedDepth b)) r)
        as (r1 & Hrep & Hfv & Hm & _); [lia|].
      unfold bind. rewrite Hrep. simpl.
      replace (length (pstack (freshVars r)) - Z.to_nat (savedDepth b))%nat
        with (Z.to_nat (Z.of_nat (length (pstack (freshVars r))) - savedDepth b)) by lia.
      split; [done|]. split; [|done].
      rewrite Hfv, pstack_iter_popProtected. f_equal. lia.
  - intros Hlt. rewrite bool_decide_eq_true_2 by lia. simpl.
    split; [done|]. apply (msg_info_emitted restoreHigherText (Some (StoreInst a _ ptr))).
Qed.

End Restore.

(** [R_PPStackTop = save] with a saved depth of one, on the protect stack
    of two with [x] on top. *)
Lemma restore_of_saved_stack_top_witness :
  pstack (freshVars
    (FreshVars.handleStore Samples.ir Samples.cm 7
       (StoreInst 30 (LoadInst 31 (Alloca 13%positive)) (GlobalVariable 900)) None
       (Some (mkBalance 2 0 1 CS_NONE None (Some 13%positive) false))
       (Samples.tracking false)).1) = [None] /\
  msg (FreshVars.handleStore Samples.ir Samples.cm 7
         (StoreInst 30 (LoadInst 31 (Alloca 13%positive)) (GlobalVariable 900)) None
         (Some (mkBalance 2 0 1 CS_NONE None (Some 13%positive) false))
         (Samples.tracking false)).1 = Samples.noMessages.
Proof.
  destruct (restore_of_saved_stack_top Samples.ir Samples.cm 7 30%positive 31%positive 13%positive
              (GlobalVariable 900) None
              (mkBalance 2 0 1 CS_NONE None (Some 13%positive) false)
              (Samples.tracking false)) as [Hcut _];
    [reflexivity | reflexivity | reflexivity | reflexivity | simpl; lia | simpl; lia |].
  destruct Hcut as (_ & Hstack & Hmsg); [simpl; lia|].
  split; [exact Hstack | exact Hmsg].
Defined.

(* ================================================================== *)
(** * What a load and a store can change *)
(* ================================================================== *)

#[local] Instance dropping_preorder var : PreOrder (dropping var).
Proof.
  split; unfold dropping.
  - intros r. repeat split. by left.
  - intros r1 r2 r3 (Hp1 & Hc1 & Hk1 & Hv1) (Hp2 & Hc2 & Hk2 & Hv2).
    split; [congruence|]. split; [congruence|]. split; [congruence|].
    intros u. destruct (Hv2 u) as [->|[-> ->]]; [apply Hv1 | by right].
Qed.

#[local] Instance overwriting_preorder var : PreOrder (overwriting var).
Proof.
  split; unfold overwriting.
  - intros r. repeat split. by right; right.
  - intros r1 r2 r3 (Hp1 & Hc1 & Ho1 & Hv1) (Hp2 & Hc2 & Ho2 & Hv2).
    split; [congruence|]. split; [congruence|]. split.
    + intros u Hu. destruct (Ho1 u Hu) as [<- <-]. by apply Ho2.
    + destruct Hv2 as [->|[->| ->]]; auto.
Qed.

Section Frames2.

Variable ir : IRInfo.
Variable cm : CalledModuleTy.
Variable cprotect : CProtectInfo.
Variable liveVars : LiveVarsTy.
Variable aliasChainBound : nat.

Ltac dropping_modify :=
  try (unfold dropping; simpl; repeat split; by left).

Lemma issueConditionalMessage_dropping in_ var w text r :
  follows (dropping var) (FreshVars.issueConditionalMessage liveVars in_ w text) r.
Proof. unfold FreshVars.issueConditionalMessage. follow; dropping_modify. Qed.

Lemma handleLoadOfFresh_dropping in_ var n g r :
  follows (dropping var) (FreshVars.handleLoadOfFresh ir cm cprotect liveVars in_ var n g) r.
Proof.
  unfold FreshVars.handleLoadOfFresh.
  follow; try apply issueConditionalMessage_dropping; dropping_modify.
  unfold dropping. simpl. repeat split. intros u.
  destruct (decide (u = var)) as [->|Hne].
  - right. by rewrite lookup_delete_eq.
  - left. by rewrite lookup_delete_ne.
Qed.

(** A load never makes a variable fresh, never changes a protect count
    and never touches the protect stack, the confused flag or the cache
    of checked variables: the fresh variables are as they were, but for
    the variable loaded, which may have been dropped. *)
Theorem load_only_drops_the_loaded_variable in_ g r :
  pstack (freshVars (FreshVars.handleLoad ir cm cprotect liveVars in_ g r).1) =
    pstack (freshVars r) /\
  confused (freshVars (FreshVars.handleLoad ir cm cprotect liveVars in_ g r).1) =
    confused (freshVars r) /\
  checkedVarsCache (FreshVars.handleLoad ir cm cprotect liveVars in_ g r).1 =
    checkedVarsCache r /\
  forall u,
    vars (freshVars (FreshVars.handleLoad ir cm cprotect liveVars in_ g r).1) !! u =
      vars (freshVars r) !! u \/
    (vars (freshVars (FreshVars.handleLoad ir cm cprotect liveVars in_ g r).1) !! u = None /\
     loadedVar in_ = Some u /\ is_Some (vars (freshVars r) !! u)).
Proof.
  assert (H : forall var, loadedVar in_ = Some var \/ loadedVar in_ = None ->
              (loadedVar in_ = None -> (FreshVars.handleLoad ir cm cprotect liveVars in_ g r).1 = r) /\
              (loadedVar in_ = Some var ->
               follows (dropping var) (FreshVars.handleLoad ir cm cprotect liveVars in_ g) r)).
  { intros var _. split.
    - intros Hn. unfold FreshVars.handleLoad. run.
      destruct (confused (freshVars r)); simpl; [done|].
      destruct in_; try done. simpl in Hn. rewrite Hn. reflexivity.
    - intros Hs. unfold FreshVars.handleLoad, FreshVars.flushConditionalMessages.
      follow; dropping_modify. simpl in Hs. simplify_eq.
      apply handleLoadOfFresh_dropping. }
  destruct (loadedVar in_) as [var|] eqn:Hl.
  - destruct (H var (or_introl eq_refl)) as [_ Hd]. specialize (Hd eq_refl).
    destruct Hd as (Hp & Hc & Hk & Hv).
    split; [done|]. split; [done|]. split; [done|].
    intros u. destruct (Hv u) as [?|[Hn ->]]; [by left|].
    destruct (vars (freshVars r) !! var) as [n|] eqn:Hvar.
    + right. split; [done|]. split; [done|]. by eexists.
    + left. by rewrite Hn.
  - destruct (H 1%positive (or_intror eq_refl)) as [Hr _]. rewrite (Hr eq_refl).
    repeat split. by left.
Qed.

Ltac overwriting_modify :=
  try (unfold overwriting; simpl; repeat split; by right; right).

Lemma isVarCheckedFresh_overwriting var w r :
  follows (overwriting var) (FreshVars.isVarCheckedFresh ir w) r.
Proof. unfold FreshVars.isVarCheckedFresh. follow; overwriting_modify. Qed.

Lemma overwriting_erase var r :
  overwriting var r (on_freshVars (set_condMsgs (cm_erase var)) r).
Proof.
  unfold overwriting. simpl. split; [done|]. split; [done|]. split; [|by right; right].
  intros u Hu. split; [done|]. rewrite cm_find_erase. by rewrite bool_decide_eq_false_2.
Qed.

Lemma overwriting_delete var r :
  overwriting var r (on_freshVars (set_vars (delete var)) r).
Proof.
  unfold overwriting. simpl. split; [done|]. split; [done|]. split.
  - intros u Hu. split; [|done]. by rewrite lookup_delete_ne.
  - left. apply lookup_delete_eq.
Qed.

Lemma overwriting_fresh var r :
  overwriting var r (on_freshVars (set_vars <[var := 0]>) r).
Proof.
  unfold overwriting. simpl. split; [done|]. split; [done|]. split.
  - intros u Hu. split; [|done]. by rewrite lookup_insert_ne.
  - right; left. apply lookup_insert_eq.
Qed.

Lemma handleStoreToVar_overwriting in_ var val g r :
  follows (overwriting var) (FreshVars.handleStoreToVar ir cm in_ var val g) r.
Proof.
  unfold FreshVars.handleStoreToVar.
  follow; try apply isVarCheckedFresh_overwriting; try apply overwriting_erase;
    try apply overwriting_delete; try apply overwriting_fresh; overwriting_modify.
  repeat (case_match; simplify_eq/=); follow;
    try apply overwriting_delete; try apply overwriting_fresh; overwriting_modify.
Qed.

(** A store into a local variable changes only what the tool holds about
    that variable: the protect stack and the confused flag are as they
    were, every other variable keeps its protect count and its pending
    messages, and the variable stored into is dropped from the fresh
    variables, made fresh with the protect count zero, or left as it was. *)
Theorem store_changes_only_the_variable_stored a val v g balance r :
  isStoreToStructureElement ir (StoreInst a val (Alloca v)) = None ->
  overwriting v r
    (FreshVars.handleStore ir cm aliasChainBound (StoreInst a val (Alloca v)) g balance r).1.
Proof.
  intros Hse.
  change (follows (overwriting v)
            (FreshVars.handleStore ir cm aliasChainBound (StoreInst a val (Alloca v)) g balance) r).
  unfold FreshVars.handleStore. rewrite Hse. simpl.
  follow; try apply isVarCheckedFresh_overwriting; try apply handleStoreToVar_overwriting;
    overwriting_modify.
Qed.

End Frames2.

Lemma store_changes_only_the_variable_stored_witness :
  overwriting Samples.x (Samples.tracking false)
    (FreshVars.handleStore Samples.ir Samples.cm 7 Samples.store_x None None
       (Samples.tracking false)).1.
Proof.
  apply (store_changes_only_the_variable_stored Samples.ir Samples.cm 7 2%positive
           Samples.alloc_x Samples.x None None (Samples.tracking false)).
  reflexivity.
Defined.

(* ================================================================== *)
(** * Fresh variables at the call of an allocating function *)
(* ================================================================== *)

Lemma elem_of_ordered {V} (m : gmap positive V) v x :
  (v, x) ∈ ordered m <-> m !! v = Some x.
Proof.
  unfold ordered. rewrite merge_sort_Permutation. apply elem_of_map_to_list.
Qed.

#[local] Instance accumulating_preorder : PreOrder accumulating.
Proof.
  split; unfold accumulating, grows.
  - intros r. split; auto.
  - intros r1 r2 r3 [Hg1 Hp1] [Hg2 Hp2]. split; auto.
Qed.

Section AtCall.

Variable ir : IRInfo.
Variable cm : CalledModuleTy.
Variable cprotect : CProtectInfo.
Variable liveVars : LiveVarsTy.

(** A conditional message is emitted at once or recorded for the
    variable; nothing else changes. *)
Lemma issueConditionalMessage_issues in_ var text r :
  exists r',
    FreshVars.issueConditionalMessage liveVars in_ var text r = (r', Next tt) /\
    accumulating r r' /\
    vars (freshVars r') = vars (freshVars r) /\
    (mkLineInfo (MSG_PFX +:+ text) (Some (addressOf in_)) ∈ lineBuffer (msg r') \/
     mkLineInfo (MSG_PFX +:+ text) (Some (addressOf in_)) ∈ pendingOf var (freshVars r')).
Proof.
  unfold FreshVars.issueConditionalMessage.
  destruct (match liveVars in_ with Some vlive => isDefinitelyUsed vlive var | None => false end).
  - eexists. split; [by run|]. split; [|split; [done|]].
    + split; [|done]. simpl. intros li Hli. apply elem_of_emit. by left.
    + left. simpl. apply (msg_info_emitted (MSG_PFX +:+ text) (Some in_)).
  - run. destruct (cm_find var (condMsgs (freshVars r))) as [d|] eqn:Hd; simpl.
    + eexists. split; [done|]. split; [|split; [done|]].
      * split; [by unfold grows|]. intros v li. unfold pendingOf. simpl.
        rewrite cm_find_set by (by eexists).
        case_bool_decide; [|done]. subst. rewrite Hd. simpl. unfold delayed_info.
        intros Hli. apply elem_of_app. by left.
      * right. unfold pendingOf. simpl. rewrite cm_find_set by (by eexists).
        rewrite bool_decide_eq_true_2 by done. simpl. unfold delayed_info.
        apply elem_of_app. right. by apply list_elem_of_singleton.
    + eexists. split; [done|]. split; [|split; [done|]].
      * split; [by unfold grows|]. intros v li. unfold pendingOf. simpl.
        rewrite cm_find_insert by done.
        case_bool_decide; [|done]. subst. rewrite Hd. simpl. by intros ?%elem_of_nil.
      * right. unfold pendingOf. simpl. rewrite cm_find_insert by done.
        rewrite bool_decide_eq_true_2 by done. simpl. unfold delayed_info. simpl.
        by apply list_elem_of_singleton.
Qed.

Lemma forEach_checkFreshVars in_ tgt (passed : gset AllocaInst) l r :
  exists r',
    forEach l (fun '(var, nProtects) =>
       if bool_decide (0 < nProtects) then ret tt
       else if bool_decide (var ∈ passed) then ret tt
       else
         call (FreshVars.issueConditionalMessage liveVars in_ var
           ("unprotected variable " +:+ varName ir var +:+
            " while calling allocating function " +:+ calledName tgt))) r = (r', Next tt) /\
    accumulating r r' /\
    vars (freshVars r') = vars (freshVars r) /\
    forall var n, (var, n) ∈ l -> n <= 0 -> var ∉ passed ->
      mkLineInfo (unprotectedVariableText (varName ir var) (calledName tgt))
        (Some (addressOf in_)) ∈ lineBuffer (msg r') \/
      mkLineInfo (unprotectedVariableText (varName ir var) (calledName tgt))
        (Some (addressOf in_)) ∈ pendingOf var (freshVars r').
Proof.
  revert r. induction l as [|[w m] l IH]; intros r.
  - exists r. split; [done|]. split; [reflexivity|]. split; [done|].
    by intros var n ?%elem_of_nil.
  - simpl.
    assert (Hstep : exists r1,
      (if bool_decide (0 < m) then ret tt
       else if bool_decide (w ∈ passed) then ret tt
       else call (FreshVars.issueConditionalMessage liveVars in_ w
              ("unprotected variable " +:+ varName ir w +:+
               " while calling allocating function " +:+ calledName tgt))) r = (r1, Next tt) /\
      accumulating r r1 /\
      vars (freshVars r1) = vars (freshVars r) /\
      (m <= 0 -> w ∉ passed ->
        mkLineInfo (unprotectedVariableText (varName ir w) (calledName tgt))
          (Some (addressOf in_)) ∈ lineBuffer (msg r1) \/
        mkLineInfo (unprotectedVariableText (varName ir w) (calledName tgt))
          (Some (addressOf in_)) ∈ pendingOf w (freshVars r1))).
    { case_bool_decide as Hm.
      - exists r. split; [done|]. split; [reflexivity|]. split; [done|]. lia.
      - case_bool_decide as Hp.
        + exists r. split; [done|]. split; [reflexivity|]. split; [done|]. done.
        + destruct (issueConditionalMessage_issues in_ w
                      ("unprotected variable " +:+ varName ir w +:+
                       " while calling allocating function " +:+ calledName tgt) r)
            as (r1 & H1 & Ha & Hv & Hi).
          exists r1. split; [by unfold call; rewrite H1|]. split; [done|]. split; [done|].
          intros _ _. exact Hi. }
    destruct Hstep as (r1 & H1 & Ha1 & Hv1 & Hi1).
    destruct (IH r1) as (r2 & H2 & Ha2 & Hv2 & Hi2).
    exists r2. split; [by unfold bind; rewrite H1|]. split; [by etransitivity|].
    split; [congruence|].
    intros var n [[= -> ->]|Hin]%elem_of_cons Hn Hp.
    + destruct Ha2 as [Hg Hpend]. destruct (Hi1 Hn Hp) as [?|?]; [left; by apply Hg|].
      right. by apply Hpend.
    + by apply (Hi2 var n).
Qed.

(** At the call of an allocating function no unprotected fresh variable
    is passed over: for every variable in [vars] whose protect count is
    not positive and which is not passed to the call, the finding
    "unprotected variable ... while calling allocating function ..." is in
    the buffer of messages or pending for the variable when the scan of
    the fresh variables ends; the scan changes no protect count. *)
Theorem unprotected_fresh_variables_are_reported in_ tgt f args var n r :
  vars (freshVars r) !! var = Some n ->
  n <= 0 ->
  var ∉ FreshVars.passedVarsOf ir f args ->
  exists r',
    FreshVars.checkFreshVarsAtCall ir liveVars in_ tgt f args r = (r', Next tt) /\
    vars (freshVars r') = vars (freshVars r) /\
    (mkLineInfo (unprotectedVariableText (varName ir var) (calledName tgt))
       (Some (addressOf in_)) ∈ lineBuffer (msg r') \/
     mkLineInfo (unprotectedVariableText (varName ir var) (calledName tgt))
       (Some (addressOf in_)) ∈ pendingOf var (freshVars r')).
Proof.
  intros Hvar Hn Hp.
  destruct (forEach_checkFreshVars in_ tgt (FreshVars.passedVarsOf ir f args)
              (ordered (vars (freshVars r))) r) as (r' & Hrun & _ & Hv & Hi).
  exists r'. split; [|split; [done|]].
  - unfold FreshVars.checkFreshVarsAtCall. unfold bind at 1. unfold gets at 1. cbv beta iota.
    rewrite bool_decide_eq_true_2.
    + simpl. exact Hrun.
    + assert (vars (freshVars r) <> ∅) as Hne by (intros He; by rewrite He in Hvar).
      apply map_size_non_empty_iff in Hne. unfold size in *. lia.
  - apply (Hi var n); [by apply elem_of_ordered | done | done].
Qed.

End AtCall.

Lemma unprotected_fresh_variables_are_reported_witness :
  exists r',
    FreshVars.checkFreshVarsAtCall Samples.ir Samples.liveVars Samples.alloc_y
      (mkCalled Samples.fn_allocVector "Rf_allocVector") Samples.fn_allocVector
      [ConstantInt 19; ConstantInt 2]
      (on_freshVars (set_vars (fun _ => {[Samples.x := 0]})) Samples.refs0) = (r', Next tt) /\
    mkLineInfo (unprotectedVariableText "v11" "Rf_allocVector") (Some (AtInst 3)) ∈
      pendingOf Samples.x (freshVars r').
Proof.
  destruct (unprotected_fresh_variables_are_reported Samples.ir Samples.liveVars Samples.alloc_y
              (mkCalled Samples.fn_allocVector "Rf_allocVector") Samples.fn_allocVector
              [ConstantInt 19; ConstantInt 2] Samples.x 0
              (on_freshVars (set_vars (fun _ => {[Samples.x := 0]})) Samples.refs0))
    as (r' & Hrun & _ & Hrep); [reflexivity | lia | vm_compute; intros H; inversion H |].
  exists r'. split; [exact Hrun|].
  destruct Hrep as [Hbuf|Hpend]; [|exact Hpend].
  exfalso. revert Hbuf. replace r' with
    (FreshVars.checkFreshVarsAtCall Samples.ir Samples.liveVars Samples.alloc_y
       (mkCalled Samples.fn_allocVector "Rf_allocVector") Samples.fn_allocVector
       [ConstantInt 19; ConstantInt 2]
       (on_freshVars (set_vars (fun _ => {[Samples.x := 0]})) Samples.refs0)).1
    by (by rewrite Hrun).
  vm_compute. by intros ?%elem_of_nil.
Defined.

(* ================================================================== *)
(** * The visited set holds no state twice *)
(* ================================================================== *)

Section Interned.

Variable hash_combine : N -> Bcheck.HashArg -> N.
Variable MAX_STATES : N.
Variable MAX_PSTACK_SIZE : nat.
Variable aliasChainBound : nat.
Variable ir : IRInfo.
Variable cm : CalledModuleTy.
Variable cprotect : CProtectInfo.
Variable liveVars : LiveVarsTy.
Variable dom : Bcheck.Domains.
Variable fn : Bcheck.FunctionIR.

Local Abbreviation interned := (interned hash_combine).
Local Abbreviation keepsInterned := (keepsInterned hash_combine).

#[local] Instance keepsInterned_preorder : PreOrder keepsInterned.
Proof. split; unfold keepsInterned; [by intros e | intros e1 e2 e3; auto]. Qed.

Lemma interned_same e e' :
  Bcheck.heap e' = Bcheck.heap e ->
  Bcheck.doneSet e' = Bcheck.doneSet e ->
  Bcheck.nextAddr e' = Bcheck.nextAddr e ->
  keepsInterned e e'.
Proof. unfold keepsInterned, interned. by intros -> -> ->. Qed.

Lemma clearStates_interned e : interned (Bcheck.clearStates e).
Proof.
  unfold interned. simpl. split; [constructor|]. split; [by intros p ?%elem_of_nil|].
  split; [by intros p s ?%elem_of_nil|]. intros i j p q s t _ Hp. by rewrite lookup_nil in Hp.
Qed.

#[local] Arguments Bcheck.hash : simpl never.

Lemma addState_interned s e : follows keepsInterned (Bcheck.addState hash_combine s) e.
Proof.
  unfold Bcheck.addState. use_follows @follows_modify.
  intros (Hnd & Hn & Hh & Hpair). simpl.
  set (n := Bcheck.nextAddr e).
  assert (Hfresh : n ∉ Bcheck.doneSet e) by (intros ?%Hn; lia).
  unfold Bcheck.add. simpl. rewrite lookup_insert_eq.
  destruct (Bcheck.doneSet_find _ _ _) as [found|] eqn:Hfind; unfold interned; simpl.
  - rewrite insert_insert_eq, delete_insert_eq.
    split; [done|]. split; [intros q Hq%Hn; lia|]. split.
    + intros p t Hp. rewrite lookup_delete_ne by (intros ->; done). by apply Hh.
    + intros i j p q t1 t2 Hij Hi Hj.
      rewrite !lookup_delete_ne
        by (intros ->; apply Hfresh; by eapply list_elem_of_lookup_2).
      by apply (Hpair i j).
  - rewrite insert_insert_eq.
    unfold Bcheck.doneSet_find in Hfind. simpl in Hfind.
    destruct (list_find _ _) as [?|] eqn:Hnone; [done|].
    apply list_find_None in Hnone.
    split; [|split; [|split]].
    + apply NoDup_app. split; [done|]. split; [|apply NoDup_singleton].
      intros q Hq ->%list_elem_of_singleton. done.
    + intros q [Hq%Hn | ->%list_elem_of_singleton]%elem_of_app; lia.
    + intros p t [Hp | ->%list_elem_of_singleton]%elem_of_app.
      * rewrite lookup_insert_ne by (intros ->; done). by apply Hh.
      * rewrite lookup_insert_eq. by intros [= <-].
    + intros i j p q t1 t2 Hij Hi Hj.
      assert (Hp : p ∈ Bcheck.doneSet e).
      { apply lookup_lt_Some in Hj as Hlen. rewrite length_app in Hlen. simpl in Hlen.
        rewrite lookup_app_l in Hi by lia. by eapply list_elem_of_lookup_2. }
      rewrite (lookup_insert_ne _ n p) by (intros ->; done).
      destruct (decide (j < length (Bcheck.doneSet e))%nat) as [Hlt|Hge].
      * rewrite !lookup_app_l in Hi, Hj by lia.
        rewrite lookup_insert_ne
          by (intros ->; apply Hfresh; by eapply list_elem_of_lookup_2).
        by apply (Hpair i j).
      * apply lookup_lt_Some in Hj as Hlen. rewrite length_app in Hlen. simpl in Hlen.
        rewrite lookup_app_r in Hj by lia.
        apply list_lookup_singleton_Some in Hj as [_ <-].
        rewrite lookup_insert_eq. intros Ht1 [= <-] Hc.
        rewrite Forall_forall in Hnone. specialize (Hnone p Hp).
        unfold Bcheck.found_equal in Hnone. simpl in Hnone.
        rewrite insert_insert_eq, lookup_insert_ne in Hnone by (intros ->; done).
        rewrite Ht1 in Hnone.
        rewrite bool_decide_eq_true_2 in Hnone by done. simpl in Hnone.
        unfold Bcheck.BcheckStateTy_equal in Hnone. simpl in Hnone.
        rewrite bool_decide_eq_false_2 in Hnone by (intros ->; done).
        by destruct (Bcheck.fields_equal _ t1).
Qed.

Lemma restartCheck_interned ig sg e : follows keepsInterned (Bcheck.restartCheck fn ig sg) e.
Proof.
  unfold follows. rewrite (restartCheck_eq fn ig sg).
  destruct (_ && _); simpl; [intros _; apply clearStates_interned | done].
Qed.

Lemma handleUnprotectWithIntGuard_interned in_ s e :
  follows keepsInterned (Bcheck.handleUnprotectWithIntGuard dom in_ s) e.
Proof.
  unfold Bcheck.handleUnprotectWithIntGuard.
  repeat (follow; repeat case_match; simplify_eq/=); by apply interned_same.
Qed.

Lemma runFreshVars_interned sg bal in_ s e :
  follows keepsInterned
    (Bcheck.runFreshVars MAX_PSTACK_SIZE aliasChainBound ir cm cprotect liveVars sg bal in_ s) e.
Proof. unfold Bcheck.runFreshVars. follow; by apply interned_same. Qed.

Lemma runBalance_interned in_ s e : follows keepsInterned (Bcheck.runBalance dom in_ s) e.
Proof. unfold Bcheck.runBalance. follow; by apply interned_same. Qed.

Ltac interned_step :=
  lazymatch goal with
  | |- follows _ (Bcheck.restartCheck _ _ _) _ => apply restartCheck_interned
  | |- follows _ (Bcheck.runFreshVars _ _ _ _ _ _ _ _ _ _) _ => apply runFreshVars_interned
  | |- follows _ (Bcheck.runBalance _ _ _) _ => apply runBalance_interned
  | |- follows _ (Bcheck.handleUnprotectWithIntGuard _ _ _) _ =>
      apply handleUnprotectWithIntGuard_interned
  | |- follows _ (Bcheck.addState _ _) _ => apply addState_interned
  | |- follows _ (if ?b then _ else _) _ => destruct b eqn:?
  | |- follows _ (let _ := _ in _) _ => cbv zeta
  | |- _ => follow_step
  end.

Lemma visit_interned ig sg bal fresh in_ s e :
  follows keepsInterned
    (Bcheck.visit MAX_PSTACK_SIZE aliasChainBound ir cm cprotect liveVars dom fn
       ig sg bal fresh in_ s) e.
Proof. unfold Bcheck.visit. repeat interned_step; by apply interned_same. Qed.

Lemma visitAll_interned ig sg bal fresh ins s e :
  follows keepsInterned
    (Bcheck.visitAll MAX_PSTACK_SIZE aliasChainBound ir cm cprotect liveVars dom fn
       ig sg bal fresh ins s) e.
Proof.
  revert s e. induction ins as [|in_ ins IH]; intros s e; simpl.
  - use_follows @follows_ret.
  - use_follows @follows_bind; [apply visit_interned | intros; apply IH].
Qed.

Lemma visitTerminator_interned ig sg bal fresh t s e :
  follows keepsInterned (Bcheck.visitTerminator hash_combine dom ig sg bal fresh t s) e.
Proof.
  unfold Bcheck.visitTerminator, Bcheck.addSuccessors, Bcheck.addProposed.
  repeat interned_step; try reflexivity; by apply interned_same.
Qed.

Lemma iteration_interned ig sg bal fresh e :
  follows keepsInterned
    (Bcheck.iteration hash_combine MAX_STATES MAX_PSTACK_SIZE aliasChainBound ir cm cprotect
       liveVars dom fn ig sg bal fresh) e.
Proof.
  unfold Bcheck.iteration.
  use_follows @follows_bind; [apply restartCheck_interned|]. intros _ e1 _.
  use_follows @follows_bind; [use_follows @follows_gets|]. intros e2 e3 [= <- <-].
  destruct (Bcheck.workList e1) as [|top rest] eqn:Hw; [use_follows @follows_ret|].
  destruct (Bcheck.heap e1 !! top) as [s|]; [|use_follows @follows_abort].
  use_follows @follows_bind; [use_follows @follows_modify; by apply interned_same|].
  intros _ e4 _.
  destruct (Bcheck.errorBasicBlocks fn (Bcheck.bb s)); [use_follows @follows_ret|].
  case_bool_decide.
  - use_follows @follows_bind; [use_follows @follows_modify; by apply interned_same|].
    intros _ e5 _.
    use_follows @follows_bind;
      [use_follows @follows_modify; intros _; apply clearStates_interned|].
    intros. use_follows @follows_return.
  - use_follows @follows_bind; [apply visitAll_interned|]. intros s' e5 _.
    destruct (last _); [apply visitTerminator_interned | use_follows @follows_abort].
Qed.

Lemma workLoop_interned ig sg bal fresh fuel e e' o :
  Bcheck.workLoop hash_combine MAX_STATES MAX_PSTACK_SIZE aliasChainBound ir cm cprotect
    liveVars dom fn ig sg bal fresh fuel e = Some (e', o) ->
  interned e -> interned e'.
Proof.
  revert e. induction fuel as [|fuel IH]; intros e; simpl.
  - destruct (Bcheck.workList e); [|done]. by intros [= <- <-].
  - destruct (Bcheck.workList e); [by intros [= <- <-]|].
    pose proof (iteration_interned ig sg bal fresh e) as Hi. unfold follows in Hi.
    destruct (Bcheck.iteration _ _ _ _ _ _ _ _ _ _ _ _ _ _ e) as [e1 [[]| |]]; simpl in Hi.
    + intros Hl Ho. by apply (IH e1), Hi.
    + intros [= <- <-]. exact Hi.
    + intros [= <- <-]. exact Hi.
Qed.

Lemma checkFunction_run_interned ig sg bal fresh fuel e e' o :
  Bcheck.checkFunction_run hash_combine MAX_STATES MAX_PSTACK_SIZE aliasChainBound ir cm
    cprotect liveVars dom fn ig sg bal fresh fuel e = Some (e', o) ->
  interned e'.
Proof.
  unfold Bcheck.checkFunction_run. intros Hrun.
  eapply workLoop_interned; [exact Hrun|].
  pose proof (addState_interned (Bcheck.initialState (Bcheck.entryBlock fn))
                (Bcheck.clearStates (Bcheck.set_erefinable 0 e))) as Ha.
  apply Ha. apply clearStates_interned.
Qed.

Lemma restartLoop_interned runs fuel bal fresh ig sg e e' :
  (exists trace,
     Bcheck.restartLoop hash_combine MAX_STATES MAX_PSTACK_SIZE aliasChainBound ir cm
       cprotect liveVars dom fn runs fuel bal fresh ig sg e = Bcheck.Done e' trace) \/
  Bcheck.restartLoop hash_combine MAX_STATES MAX_PSTACK_SIZE aliasChainBound ir cm
    cprotect liveVars dom fn runs fuel bal fresh ig sg e = Bcheck.Crashed e' ->
  interned e'.
Proof.
  revert ig sg e. induction runs as [|runs IH]; intros ig sg e.
  { simpl. by intros [[? ?]|?]. }
  rewrite restartLoop_step.
  destruct (Bcheck.checkFunction_run _ _ _ _ _ _ _ _ _ _ _ _ _ _ _ _) as [[e1 o]|] eqn:Hrun;
    [|by intros [[? ?]|?]].
  pose proof (checkFunction_run_interned _ _ _ _ _ _ _ _ Hrun) as Ho1.
  assert (Hafter :
    (exists trace,
       Bcheck.afterRun hash_combine MAX_STATES MAX_PSTACK_SIZE aliasChainBound ir cm cprotect liveVars
         dom fn runs fuel bal fresh ig sg e1 = Bcheck.Done e' trace) \/
    Bcheck.afterRun hash_combine MAX_STATES MAX_PSTACK_SIZE aliasChainBound ir cm cprotect liveVars
      dom fn runs fuel bal fresh ig sg e1 = Bcheck.Crashed e' -> interned e').
  { unfold Bcheck.afterRun. destruct (_ && _).
    - intros H. apply (IH (Bcheck.nextPrecision fn ig sg).1 (Bcheck.nextPrecision fn ig sg).2
                         (Bcheck.on_emsg msg_clear e1)).
      destruct (Bcheck.restartLoop _ _ _ _ _ _ _ _ _ _ _ _ _ _ _ _ _) as [e2 tr|e2|];
        destruct H as [[trace H]|H]; simplify_eq; eauto.
    - intros [[trace [= <- _]]|?]; done. }
  destruct o; [exact Hafter | exact Hafter|].
  intros [[? ?]|[= <-]]; done.
Qed.

(** The visited set never holds a state twice.  Whatever engine a run
    of the check of a function starts from and however it ends, the
    visited set it leaves holds no address twice, every state in it
    carries the hash code [hash()] computes from its contents, and no
    state of the set has the hash code of a state added before it and
    compares equal to that state; the same holds for the engine the
    check with its restarts leaves. *)
Theorem visited_set_holds_no_state_twice :
  (forall ig sg bal fresh fuel e e' o,
     Bcheck.checkFunction_run hash_combine MAX_STATES MAX_PSTACK_SIZE aliasChainBound ir cm
       cprotect liveVars dom fn ig sg bal fresh fuel e = Some (e', o) -> interned e') /\
  (forall runs fuel bal fresh e e' trace,
     Bcheck.checkFunction hash_combine MAX_STATES MAX_PSTACK_SIZE aliasChainBound ir cm
       cprotect liveVars dom fn runs fuel bal fresh e = Bcheck.Done e' trace -> interned e').
Proof.
  split.
  - intros ig sg bal fresh fuel e e' o. apply checkFunction_run_interned.
  - intros runs fuel bal fresh e e' trace H. unfold Bcheck.checkFunction in H.
    eapply restartLoop_interned. left. eauto.
Qed.

End Interned.

Lemma visited_set_holds_no_state_twice_witness :
  exists e',
    Bcheck.checkFunction Samples.hash_combine 100 4 7 Samples.ir Samples.cm Samples.cprotect
      Samples.liveVars Samples.dom (Samples.chain Samples.isThird) 3 20 true true
      Samples.engine0 = Bcheck.Done e' [(false, false); (true, false); (true, true)] /\
    (2 <= length (Bcheck.doneSet e'))%nat /\
    interned Samples.hash_combine e'.
Proof.
  eexists. split; [vm_compute; reflexivity|]. split; [vm_compute; lia|].
  destruct (visited_set_holds_no_state_twice Samples.hash_combine 100 4 7 Samples.ir Samples.cm
              Samples.cprotect Samples.liveVars Samples.dom (Samples.chain Samples.isThird))
    as (_ & Hdone).
  eapply (Hdone 3%nat 20%nat true true Samples.engine0). vm_compute. reflexivity.
Defined.

(* ================================================================== *)
(** * Error blocks are not checked *)
(* ================================================================== *)

Section ErrorBlocks.

Variable hash_combine : N -> Bcheck.HashArg -> N.
Variable MAX_STATES : N.
Variable MAX_PSTACK_SIZE : nat.
Variable aliasChainBound : nat.
Variable ir : IRInfo.
Variable cm : CalledModuleTy.
Variable cprotect : CProtectInfo.
Variable liveVars : LiveVarsTy.
Variable dom : Bcheck.Domains.
Variable fn : Bcheck.FunctionIR.

Local Abbreviation visitsChecked := (visitsChecked fn).

#[local] Instance visitsChecked_preorder : PreOrder visitsChecked.
Proof.
  split; unfold visitsChecked.
  - intros e a. by left.
  - intros e1 e2 e3 H1 H2 a Ha. destruct (H2 a Ha) as [?|?]; [by apply H1 | by right].
Qed.

Lemma visitsChecked_same e e' :
  Bcheck.visiting e' = Bcheck.visiting e -> visitsChecked e e'.
Proof. intros He a. rewrite He. by left. Qed.

Lemma addState_visits s e : follows visitsChecked (Bcheck.addState hash_combine s) e.
Proof.
  unfold Bcheck.addState. use_follows @follows_modify. apply visitsChecked_same.
  simpl. unfold Bcheck.add. simpl. rewrite lookup_insert_eq.
  by destruct (Bcheck.doneSet_find _ _ _).
Qed.

Lemma restartCheck_visits ig sg e : follows visitsChecked (Bcheck.restartCheck fn ig sg) e.
Proof.
  unfold follows. rewrite (restartCheck_eq fn ig sg).
  destruct (_ && _); simpl; by apply visitsChecked_same.
Qed.

Lemma handleUnprotectWithIntGuard_visits in_ s e :
  follows visitsChecked (Bcheck.handleUnprotectWithIntGuard dom in_ s) e.
Proof.
  unfold Bcheck.handleUnprotectWithIntGuard.
  repeat (follow; repeat case_match; simplify_eq/=); by apply visitsChecked_same.
Qed.

Lemma runFreshVars_visits sg bal in_ s e :
  follows visitsChecked
    (Bcheck.runFreshVars MAX_PSTACK_SIZE aliasChainBound ir cm cprotect liveVars sg bal in_ s) e.
Proof. unfold Bcheck.runFreshVars. follow; by apply visitsChecked_same. Qed.

Lemma runBalance_visits in_ s e : follows visitsChecked (Bcheck.runBalance dom in_ s) e.
Proof. unfold Bcheck.runBalance. follow; by apply visitsChecked_same. Qed.

Ltac visits_step :=
  lazymatch goal with
  | |- follows _ (Bcheck.restartCheck _ _ _) _ => apply restartCheck_visits
  | |- follows _ (Bcheck.runFreshVars _ _ _ _ _ _ _ _ _ _) _ => apply runFreshVars_visits
  | |- follows _ (Bcheck.runBalance _ _ _) _ => apply runBalance_visits
  | |- follows _ (Bcheck.handleUnprotectWithIntGuard _ _ _) _ =>
      apply handleUnprotectWithIntGuard_visits
  | |- follows _ (Bcheck.addState _ _) _ => apply addState_visits
  | |- follows _ (if ?b then _ else _) _ => destruct b eqn:?
  | |- follows _ (let _ := _ in _) _ => cbv zeta
  | |- follows _ (modify (Bcheck.log_visit _)) _ => idtac
  | |- _ => follow_step
  end.

Lemma visit_visits ig sg bal fresh in_ s e :
  ofCheckedBlocks fn (addressOf in_) ->
  follows visitsChecked
    (Bcheck.visit MAX_PSTACK_SIZE aliasChainBound ir cm cprotect liveVars dom fn
       ig sg bal fresh in_ s) e.
Proof.
  intros Hin. unfold Bcheck.visit.
  use_follows @follows_bind.
  { use_follows @follows_modify. intros a. simpl.
    intros [?| ->%list_elem_of_singleton]%elem_of_app; [by left | by right]. }
  intros ? ? ?. repeat visits_step; by apply visitsChecked_same.
Qed.

Lemma visitAll_visits ig sg bal fresh ins s e :
  (forall in_, in_ ∈ ins -> ofCheckedBlocks fn (addressOf in_)) ->
  follows visitsChecked
    (Bcheck.visitAll MAX_PSTACK_SIZE aliasChainBound ir cm cprotect liveVars dom fn
       ig sg bal fresh ins s) e.
Proof.
  revert s e. induction ins as [|in_ ins IH]; intros s e Hins; simpl.
  - use_follows @follows_ret.
  - use_follows @follows_bind.
    + apply visit_visits, Hins. by left.
    + intros. apply IH. intros ? ?. apply Hins. by right.
Qed.

Lemma visitTerminator_visits ig sg bal fresh t s e :
  follows visitsChecked (Bcheck.visitTerminator hash_combine dom ig sg bal fresh t s) e.
Proof.
  unfold Bcheck.visitTerminator, Bcheck.addSuccessors, Bcheck.addProposed.
  repeat visits_step; try reflexivity; by apply visitsChecked_same.
Qed.

Lemma iteration_visits ig sg bal fresh e :
  follows visitsChecked
    (Bcheck.iteration hash_combine MAX_STATES MAX_PSTACK_SIZE aliasChainBound ir cm cprotect
       liveVars dom fn ig sg bal fresh) e.
Proof.
  unfold Bcheck.iteration.
  use_follows @follows_bind; [apply restartCheck_visits|]. intros _ e1 _.
  use_follows @follows_bind; [use_follows @follows_gets|]. intros e2 e3 [= <- <-].
  destruct (Bcheck.workList e1) as [|top rest] eqn:Hw; [use_follows @follows_ret|].
  destruct (Bcheck.heap e1 !! top) as [s|]; [|use_follows @follows_abort].
  use_follows @follows_bind; [use_follows @follows_modify; by apply visitsChecked_same|].
  intros _ e4 _.
  destruct (Bcheck.errorBasicBlocks fn (Bcheck.bb s)) eqn:Herr; [use_follows @follows_ret|].
  case_bool_decide.
  - use_follows @follows_bind; [use_follows @follows_modify; by apply visitsChecked_same|].
    intros _ e5 _.
    use_follows @follows_bind; [use_follows @follows_modify; by apply visitsChecked_same|].
    intros. use_follows @follows_return.
  - use_follows @follows_bind.
    + apply visitAll_visits. intros in_ Hin. by exists (Bcheck.bb s), in_.
    + intros s' e5 _.
      destruct (last _); [apply visitTerminator_visits | use_follows @follows_abort].
Qed.

Lemma workLoop_visits ig sg bal fresh fuel e e' o :
  Bcheck.workLoop hash_combine MAX_STATES MAX_PSTACK_SIZE aliasChainBound ir cm cprotect
    liveVars dom fn ig sg bal fresh fuel e = Some (e', o) ->
  visitsChecked e e'.
Proof.
  revert e. induction fuel as [|fuel IH]; intros e; simpl.
  - destruct (Bcheck.workList e); [|done]. by intros [= <- <-].
  - destruct (Bcheck.workList e); [by intros [= <- <-]|].
    pose proof (iteration_visits ig sg bal fresh e) as Hi. unfold follows in Hi.
    destruct (Bcheck.iteration _ _ _ _ _ _ _ _ _ _ _ _ _ _ e) as [e1 [[]| |]]; simpl in Hi.
    + intros Hl. etransitivity; [exact Hi | by apply IH].
    + intros [= <- <-]. exact Hi.
    + intros [= <- <-]. exact Hi.
Qed.

(** The instructions of error blocks are never checked: every
    instruction a run of the check of a function hands to the transfer
    functions is an instruction of a basic block that is not an error
    block, however the run ends. *)
Theorem error_blocks_are_never_checked ig sg bal fresh fuel e e' o a :
  Bcheck.checkFunction_run hash_combine MAX_STATES MAX_PSTACK_SIZE aliasChainBound ir cm
    cprotect liveVars dom fn ig sg bal fresh fuel e = Some (e', o) ->
  a ∈ Bcheck.visiting e' ->
  a ∈ Bcheck.visiting e \/ ofCheckedBlocks fn a.
Proof.
  unfold Bcheck.checkFunction_run. intros Hrun Ha.
  apply workLoop_visits in Hrun. unfold visitsChecked in Hrun.
  specialize (Hrun a Ha). destruct Hrun as [Hin|Hin]; [|right; exact Hin].
  left. revert Hin. simpl. unfold Bcheck.add. simpl. by rewrite lookup_insert_eq.
Qed.

End ErrorBlocks.

Lemma error_blocks_are_never_checked_witness :
  addressOf Samples.load_x ∈ Bcheck.visiting Samples.engine0 \/
  ofCheckedBlocks (Samples.chain Samples.isThird) (addressOf Samples.load_x).
Proof.
  eapply (error_blocks_are_never_checked Samples.hash_combine 2 4 7 Samples.ir Samples.cm
            Samples.cprotect Samples.liveVars Samples.dom (Samples.chain Samples.isThird)
            false false false false 5 Samples.engine0).
  - vm_compute. reflexivity.
  - vm_compute. repeat constructor.
Defined.

(* ================================================================== *)
(** * The scanner of allocating arguments: what it counts *)
(* ================================================================== *)

Section Counting.
Import Maacheck.

Variable isAllocatingFunction : Function -> bool.

Lemma classify_mono (pa pa' : gset positive) v :
  pa ⊆ pa' ->
  (kindValue (classifyArgumentExpression isAllocatingFunction pa v) <=
   kindValue (classifyArgumentExpression isAllocatingFunction pa' v))%nat.
Proof.
  intros Hsub. destruct v; simpl; try lia.
  destruct calledFunction as [f|]; [|simpl; lia].
  destruct (isAllocatingFunction f); simpl; [|lia].
  repeat case_bool_decide; simpl; try lia. set_solver.
Qed.

Lemma operandKind_mono (pa pa' : gset positive) o :
  pa ⊆ pa' ->
  (kindValue (operandKind isAllocatingFunction pa o) <=
   kindValue (operandKind isAllocatingFunction pa' o))%nat.
Proof.
  intros Hsub.
  destruct o; try (by apply classify_mono).
  simpl.
  destruct (MaacheckProofs.foldl_maxKind_spec isAllocatingFunction pa incoming AK_NOALLOC)
    as (_ & _ & H3).
  destruct (MaacheckProofs.foldl_maxKind_spec isAllocatingFunction pa' incoming AK_NOALLOC)
    as (_ & H2' & _).
  unfold maxKind in *. destruct H3 as [->|(v & Hv & <-)]; [simpl; lia|].
  etransitivity; [by apply classify_mono | by apply H2'].
Qed.

Lemma count_mono (f g : Value -> ArgExpKind) (c : nat) os :
  (forall o, (kindValue (f o) <= kindValue (g o))%nat) ->
  (length (filter (fun k => (c <= kindValue k)%nat) (map f os)) <=
   length (filter (fun k => (c <= kindValue k)%nat) (map g os)))%nat.
Proof.
  intros Hle. induction os as [|o os IH]; [done|]. simpl. rewrite !filter_cons.
  specialize (Hle o). repeat case_decide; simpl; lia.
Qed.

Lemma operandKind_FunctionRef pa f :
  operandKind isAllocatingFunction pa (FunctionRef f) = AK_NOALLOC.
Proof. done. Qed.

Lemma operandKind_fresh_allocator pa o :
  operandKind isAllocatingFunction pa o = AK_FRESH -> pa <> ∅.
Proof.
  intros Hk ->.
  assert (Hc : forall v, classifyArgumentExpression isAllocatingFunction ∅ v <> AK_FRESH).
  { intros v. destruct v; simpl; try done. destruct calledFunction as [f|]; [|done].
    destruct (isAllocatingFunction f); simpl; [|done].
    rewrite bool_decide_eq_false_2 by set_solver. done. }
  destruct o as [| | | | | | | |a incoming| | | |];
    try (by apply (Hc _ Hk)).
  simpl in Hk.
  destruct (MaacheckProofs.foldl_maxKind_spec isAllocatingFunction ∅ incoming AK_NOALLOC)
    as (_ & _ & H3).
  unfold maxKind in *. rewrite Hk in H3. destruct H3 as [?|(v & _ & Hv)]; [done|].
  by apply Hc in Hv.
Qed.

Lemma filter_length_app {A} (P : A -> Prop) `{!forall x, Decision (P x)} (l1 l2 : list A) :
  length (filter P (l1 ++ l2)) = (length (filter P l1) + length (filter P l2))%nat.
Proof. by rewrite filter_app, length_app. Qed.

Lemma filter_exists {A} (P : A -> Prop) `{!forall x, Decision (P x)} (l : list A) :
  (1 <= length (filter P l))%nat -> exists x, x ∈ l /\ P x.
Proof.
  induction l as [|x l IH]; simpl; [lia|]. rewrite filter_cons.
  case_decide.
  - intros _. exists x. split; [by left | done].
  - intros (y & Hy & HP)%IH. exists y. split; [by right | done].
Qed.

(** The set of possible allocators only adds warnings: a call the
    scanner reports is reported as well when more functions are taken for
    possible allocators. *)
Theorem more_possible_allocators_keep_every_warning (pa pa' : gset positive) inst :
  pa ⊆ pa' ->
  suspicious isAllocatingFunction pa inst = true ->
  suspicious isAllocatingFunction pa' inst = true.
Proof.
  intros Hsub. unfold suspicious. rewrite !MaacheckProofs.countOperands_spec.
  rewrite !andb_true_iff, !bool_decide_eq_true. intros [Ha Hf]. split.
  - etransitivity; [exact Ha|].
    apply (count_mono (operandKind isAllocatingFunction pa)
             (operandKind isAllocatingFunction pa')).
    intros o. by apply operandKind_mono.
  - etransitivity; [exact Hf|].
    apply (count_mono (operandKind isAllocatingFunction pa)
             (operandKind isAllocatingFunction pa')).
    intros o. by apply operandKind_mono.
Qed.

(** Only arguments count.  A warning is written only for a call
    instruction with at least two arguments that are classified as
    allocating, one of them as returning a fresh object; the called
    function, the last operand of the call, is never counted, and nothing
    is reported when no function is a possible allocator. *)
Theorem scanner_counts_only_the_arguments (pa : gset positive) inst :
  suspicious isAllocatingFunction pa inst = true ->
  exists a callee args,
    inst = CallInst a callee args /\
    (2 <= length (filter (fun o => operandKind isAllocatingFunction pa o <> AK_NOALLOC) args))%nat /\
    (exists o, o ∈ args /\ operandKind isAllocatingFunction pa o = AK_FRESH) /\
    pa <> ∅.
Proof.
  unfold suspicious. rewrite MaacheckProofs.countOperands_spec.
  rewrite andb_true_iff, !bool_decide_eq_true. intros [Ha Hf].
  destruct inst as [| | | | | |addr calledFunction args| | | | | |];
    try (exfalso; simpl in Ha; lia).
  exists addr, calledFunction, args.
  assert (Hargs : forall c,
    length (filter (fun k => (c <= kindValue k)%nat)
              (map (operandKind isAllocatingFunction pa) (operandsOf (CallInst addr calledFunction args)))) =
    (length (filter (fun o => (c <= kindValue (operandKind isAllocatingFunction pa o))%nat) args) +
     (if bool_decide (c = 0)%nat then length (match calledFunction with Some _ => [()] | None => [] end)
      else 0))%nat).
  { intros c. simpl. rewrite map_app, filter_length_app.
    f_equal.
    - clear. induction args as [|o os IH]; [done|]. simpl. rewrite !filter_cons.
      repeat case_decide; simpl; lia.
    - destruct calledFunction as [f|]; simpl; [|by case_bool_decide].
      rewrite filter_cons. simpl. case_bool_decide; case_decide; simpl; try lia; done. }
  rewrite Hargs in Ha, Hf. simpl in Ha, Hf. rewrite Nat.add_0_r in Ha, Hf.
  split; [done|].
  assert (Hfresh : exists o, o ∈ args /\ operandKind isAllocatingFunction pa o = AK_FRESH).
  { apply filter_exists in Hf as (o & Ho & Hk). exists o. split; [done|].
    destruct (operandKind isAllocatingFunction pa o); simpl in Hk; try lia; done. }
  split; [|split; [done|]].
  - etransitivity; [exact Ha|]. clear.
    induction args as [|o os IH]; [done|]. rewrite !filter_cons.
    destruct (operandKind isAllocatingFunction pa o) eqn:Hk; simpl;
      repeat case_decide; simpl; try lia; try done.
  - destruct Hfresh as (o & _ & Hk). by eapply operandKind_fresh_allocator.
Qed.

End Counting.

Lemma more_possible_allocators_keep_every_warning_witness :
  Maacheck.suspicious Samples.allocates {[103%positive; 104%positive]} Samples.cons_allocs = true.
Proof.
  apply (more_possible_allocators_keep_every_warning Samples.allocates
           {[103%positive]} {[103%positive; 104%positive]} Samples.cons_allocs).
  - set_solver.
  - vm_compute. reflexivity.
Defined.

Lemma scanner_counts_only_the_arguments_witness :
  exists a callee args,
    Samples.cons_allocs = CallInst a callee args /\
    (2 <= length (filter (fun o => Maacheck.operandKind Samples.allocates {[103%positive]} o <>
                                   Maacheck.AK_NOALLOC) args))%nat /\
    (exists o, o ∈ args /\
       Maacheck.operandKind Samples.allocates {[103%positive]} o = Maacheck.AK_FRESH) /\
    ({[103%positive]} : gset positive) <> ∅.
Proof.
  apply (scanner_counts_only_the_arguments Samples.allocates {[103%positive]}
           Samples.cons_allocs).
  vm_compute. reflexivity.
Defined.

(* ================================================================== *)
(** * Loads of a fresh variable *)
(* ================================================================== *)

#[local] Instance keepsVars_preorder : PreOrder keepsVars.
Proof.
  split; unfold keepsVars.
  - by intros r.
  - intros r1 r2 r3 H1 H2. congruence.
Qed.

Section LoadOfFresh.

Variable ir : IRInfo.
Variable cm : CalledModuleTy.
Variable cprotect : CProtectInfo.
Variable liveVars : LiveVarsTy.

Ltac keeps_modify := try (unfold keepsVars; simpl; done).

Lemma issueConditionalMessage_keepsVars in_ w text r :
  follows keepsVars (FreshVars.issueConditionalMessage liveVars in_ w text) r.
Proof. unfold FreshVars.issueConditionalMessage. follow; keeps_modify. Qed.

Lemma no_user_protects in_ var vs :
  (forall u a v p, u ∈ users ir in_ -> u = StoreInst a v p -> addressOf v <> AtInst a) ->
  (forall u a f args, u ∈ users ir in_ -> u = CallInst a (Some f) args ->
     isSetterFunction ir f = false) ->
  existsb (FreshVars.loadUserProtects ir vs var) (users ir in_) = false.
Proof.
  intros Hstore Hcall.
  induction (users ir in_) as [|u us IH]; [done|]. simpl.
  rewrite IH.
  - rewrite orb_false_r. destruct u; simpl; try done.
    + unfold sameValue. simpl.
      rewrite bool_decide_eq_false_2; [done|].
      eapply Hstore; [by left | done].
    + destruct calledFunction as [f|]; [|done].
      rewrite (Hcall _ addr f args (list_elem_of_here _ _) eq_refl).
      by rewrite andb_false_r.
  - intros u' a v p Hu. apply Hstore. by right.
  - intros u' a f args Hu. apply Hcall. by right.
Qed.

(** A load drops the variable loaded from the fresh variables only when
    the value goes to a setter function.  When no user of the load is a call
    of a setter function, the fresh variables and their protect counts
    are after the load what they were before it: in particular a fresh
    variable whose value is stored into a global variable or into a
    structure stays fresh.  (No store instruction being its own value
    operand.) *)
Theorem load_keeps_variable_fresh_but_for_setters in_ g r :
  (forall u a v p, u ∈ users ir in_ -> u = StoreInst a v p -> addressOf v <> AtInst a) ->
  (forall u a f args, u ∈ users ir in_ -> u = CallInst a (Some f) args ->
     isSetterFunction ir f = false) ->
  vars (freshVars (FreshVars.handleLoad ir cm cprotect liveVars in_ g r).1) =
  vars (freshVars r).
Proof.
  intros Hstore Hcall.
  change (follows keepsVars (FreshVars.handleLoad ir cm cprotect liveVars in_ g) r).
  unfold FreshVars.handleLoad, FreshVars.flushConditionalMessages.
  follow; keeps_modify.
  unfold FreshVars.handleLoadOfFresh.
  use_follows @follows_bind; [use_follows @follows_gets|]. intros fv' ra _.
  use_follows @follows_bind.
  { use_follows @follows_when. intros Hb.
    by rewrite (no_user_protects _ _ _ Hstore Hcall) in Hb. }
  intros _ rb _.
  follow; try apply issueConditionalMessage_keepsVars; keeps_modify.
Qed.

End LoadOfFresh.

Lemma load_keeps_variable_fresh_but_for_setters_witness :
  vars (freshVars (FreshVars.handleLoad ir_store_global Samples.cm Samples.cprotect
                     Samples.liveVars Samples.load_x None (Samples.tracking false)).1) =
  {[Samples.x := 1]}.
Proof.
  apply (load_keeps_variable_fresh_but_for_setters ir_store_global Samples.cm Samples.cprotect
           Samples.liveVars Samples.load_x None (Samples.tracking false)).
  - intros u a v p Hu ->. apply list_elem_of_singleton in Hu. inversion Hu. discriminate.
  - intros u a f args Hu ->. by apply list_elem_of_singleton in Hu.
Defined.

(* ================================================================== *)
(** * The older copy: calls of allocating functions, loads and stores *)
(* ================================================================== *)

#[local] Instance key_le_transitive {V} : Transitive (@key_le V).
Proof. unfold key_le. intros a b c. lia. Qed.

#[local] Instance key_le_total {V} : Total (@key_le V).
Proof. unfold key_le. intros a b. lia. Qed.

Lemma ordered_sorted {V} (m : gmap positive V) : StronglySorted key_le (ordered m).
Proof. unfold ordered. apply StronglySorted_merge_sort; apply _. Qed.

#[local] Instance legacy_kept_preorder n : PreOrder (legacy_kept n).
Proof.
  split; unfold legacy_kept.
  - by intros r.
  - intros r1 r2 r3 [H1 H2] [H3 H4]. split; auto.
Qed.

#[local] Instance legacy_keepsVars_preorder : PreOrder legacy_keepsVars.
Proof.
  split; unfold legacy_keepsVars.
  - by intros r.
  - intros r1 r2 r3 [H1 H2] [H3 H4]. split; congruence.
Qed.

#[local] Instance legacy_overwriting_preorder var : PreOrder (legacy_overwriting var).
Proof.
  split; unfold legacy_overwriting.
  - by intros r.
  - intros r1 r2 r3 (Hm1 & Hr1 & Hp1 & Hv1) (Hm2 & Hr2 & Hp2 & Hv2).
    split; [congruence|]. split; [congruence|]. split; [congruence|].
    intros u Hu. destruct (Hv1 u Hu) as [<- <-]. by apply Hv2.
Qed.

Section Older.

Variable ir : IRInfo.
Variable cm : CalledModuleTy.
Variable MAX_PSTACK_SIZE : nat.
Variable liveVars : LegacyTransfer.LiveVarsTy.

(** ** The scan of the fresh variables *)

Lemma addConditionalMessage_other in_ var message u r :
  u <> var ->
  exists r',
    LegacyTransfer.addConditionalMessage in_ var message r = (r', Next tt) /\
    Legacy.msg r' = Legacy.msg r /\
    cm_find u (Legacy.condMsgs (Legacy.freshVars r')) =
      cm_find u (Legacy.condMsgs (Legacy.freshVars r)).
Proof.
  intros Hne. unfold LegacyTransfer.addConditionalMessage. run.
  destruct (cm_find var (Legacy.condMsgs (Legacy.freshVars r))) as [d|] eqn:Hd; simpl.
  - eexists. split; [done|]. split; [done|]. simpl.
    rewrite cm_find_set by (by eexists). by rewrite bool_decide_eq_false_2.
  - eexists. split; [done|]. split; [done|]. simpl.
    rewrite cm_find_insert by done. by rewrite bool_decide_eq_false_2.
Qed.

Lemma forEach_scan_stops in_ tgt (passed : gset AllocaInst) p n u l r :
  StronglySorted key_le l ->
  (p, n) ∈ l -> 0 < n -> (p < u)%positive ->
  exists r' o,
    forEach l (fun '(var, nProtects) =>
       if bool_decide (0 < nProtects) then return_
       else if bool_decide (var ∈ passed) then ret tt
       else
         LegacyTransfer.addConditionalMessage in_ var
           (LegacyTransfer.unprotectedVariableText (varName ir var) (calledName tgt))) r =
    (r', o) /\
    Legacy.msg r' = Legacy.msg r /\
    cm_find u (Legacy.condMsgs (Legacy.freshVars r')) =
      cm_find u (Legacy.condMsgs (Legacy.freshVars r)).
Proof.
  intros Hsorted Hin Hn Hu. revert r.
  induction Hsorted as [|[w m] l Hsorted IH Hall]; intros r; [by apply elem_of_nil in Hin|].
  simpl. unfold bind at 1.
  case_bool_decide as Hm; [by eexists _, _|].
  assert (Hin' : (p, n) ∈ l).
  { apply elem_of_cons in Hin as [[= -> ->]|?]; [lia | done]. }
  assert (Hw : u <> w).
  { rewrite Forall_forall in Hall. specialize (Hall _ Hin'). unfold key_le in Hall.
    simpl in Hall. lia. }
  case_bool_decide.
  - simpl. by apply IH.
  - destruct (addConditionalMessage_other in_ w
                (LegacyTransfer.unprotectedVariableText (varName ir w) (calledName tgt)) u r Hw)
      as (r1 & -> & Hmsg & Hfind).
    destruct (IH Hin' r1) as (r' & o & Hrun & H1 & H2).
    exists r', o. split; [done|]. split; congruence.
Qed.

(** In the older copy the scan of the fresh variables at the call of an
    allocating function ends at the first variable with a positive
    protect count: when some variable is protected, no message is recorded
    for any variable that follows it in the map, and nothing is
    reported. *)
Theorem older_scan_ends_at_a_protected_variable in_ tgt f args p n u r :
  Legacy.vars (Legacy.freshVars r) !! p = Some n ->
  0 < n ->
  (p < u)%positive ->
  Legacy.msg (LegacyTransfer.checkFreshVarsAtCall ir in_ tgt f args r).1 = Legacy.msg r /\
  LegacyTransfer.pendingOf u (LegacyTransfer.checkFreshVarsAtCall ir in_ tgt f args r).1 =
    LegacyTransfer.pendingOf u r.
Proof.
  intros Hp Hn Hu. unfold LegacyTransfer.checkFreshVarsAtCall, LegacyTransfer.pendingOf.
  unfold bind at 1 2. unfold gets at 1 2. cbv beta iota.
  destruct (bool_decide _); simpl; [|done].
  destruct (forEach_scan_stops in_ tgt (FreshVars.passedVarsOf ir f args) p n u
              (ordered (Legacy.vars (Legacy.freshVars r))) r) as (r' & o & -> & H1 & H2);
    [apply ordered_sorted | by apply elem_of_ordered | done | done |].
  split; [exact H1 | simpl; by rewrite H2].
Qed.

(** ** Loads *)

Lemma loadUsersErase_false vs us :
  (forall u a v p, u ∈ us -> u = StoreInst a v p -> addressOf v <> AtInst a) ->
  LegacyTransfer.loadUsersErase ir vs us = false.
Proof.
  induction us as [|u us IH]; intros Hstore; [done|]. simpl.
  assert (IH' : LegacyTransfer.loadUsersErase ir vs us = false).
  { apply IH. intros u' a v p Hu. apply Hstore. by right. }
  destruct u; try done.
  - unfold sameValue. simpl. rewrite bool_decide_eq_false_2; [done|].
    eapply Hstore; [by left | done].
  - by destruct (match calledFunction with Some _ => _ | None => _ end).
Qed.

(** In the older copy a load never changes the fresh variables: the
    protect counts and the protect stack are after a load what they were
    before it, whatever uses the value loaded, a setter function or a
    store into a global variable included.  (No store instruction being its
    own value operand.) *)
Theorem older_load_keeps_the_fresh_variables in_ g r :
  (forall u a v p, u ∈ users ir in_ -> u = StoreInst a v p -> addressOf v <> AtInst a) ->
  legacy_keepsVars r (LegacyTransfer.handleLoad ir cm in_ g r).1.
Proof.
  intros Hstore.
  change (follows legacy_keepsVars (LegacyTransfer.handleLoad ir cm in_ g) r).
  unfold LegacyTransfer.handleLoad, LegacyTransfer.flushConditionalMessages.
  destruct in_; try (follow; done).
  destruct (asAlloca in_) as [var|]; [|follow; done].
  use_follows @follows_bind; [follow; done|]. intros _ r1 _.
  use_follows @follows_bind; [use_follows @follows_gets|]. intros r2 r3 [= <- <-].
  destruct (Legacy.vars (Legacy.freshVars r1) !! var) as [nProtects|]; [|follow; done].
  rewrite (loadUsersErase_false _ _ Hstore).
  follow; done.
Qed.

(** ** Stores *)

(** In the older copy a store reports nothing and changes only what is
    held about the variable stored into: the messages, the count of
    refinable findings and the protect stack are as they were, and every
    other variable keeps its protect count and its pending messages. *)
Theorem older_store_changes_only_the_variable_stored in_ g r :
  legacy_overwriting (match in_ with StoreInst _ _ ptr => asAlloca ptr | _ => None end) r
    (LegacyTransfer.handleStore ir cm in_ g r).1.
Proof.
  change (follows (legacy_overwriting
                     (match in_ with StoreInst _ _ ptr => asAlloca ptr | _ => None end))
            (LegacyTransfer.handleStore ir cm in_ g) r).
  unfold LegacyTransfer.handleStore.
  destruct in_; try (follow; done).
  destruct (asAlloca in_2) as [var|] eqn:Hvar; [|follow; done].
  assert (Herase : forall r0, legacy_overwriting (Some var) r0
                     (LegacyTransfer.set_condMsgs (cm_erase var) r0)).
  { intros r0. unfold legacy_overwriting. simpl. repeat split.
    rewrite cm_find_erase. rewrite bool_decide_eq_false_2; [done | congruence]. }
  assert (Hdelete : forall r0, legacy_overwriting (Some var) r0
                      (Legacy.set_vars (delete var) r0)).
  { intros r0. unfold legacy_overwriting. simpl. repeat split.
    rewrite lookup_delete_ne; [done | congruence]. }
  assert (Hzero : forall r0, legacy_overwriting (Some var) r0
                    (Legacy.set_vars <[var := 0]> r0)).
  { intros r0. unfold legacy_overwriting. simpl. repeat split.
    rewrite lookup_insert_ne; [done | congruence]. }
  use_follows @follows_bind; [use_follows @follows_modify; apply Herase|]. intros _ r1 _.
  repeat (case_match; simplify_eq/=); follow; try apply Hdelete; try apply Hzero; done.
Qed.

(** ** The transfer function *)

Local Abbreviation legacy_kept := (legacy_kept MAX_PSTACK_SIZE).

Ltac kept_modify :=
  try (unfold legacy_kept; simpl; split; [done|]; try done).

Lemma legacy_handleProtectionCall_kept in_ g r :
  follows legacy_kept (Legacy.handleProtectionCall ir cm MAX_PSTACK_SIZE in_ g) r.
Proof.
  unfold Legacy.handleProtectionCall, Legacy.unprotectRound.
  follow; gets_inv;
    unfold legacy_kept, Legacy.unprotectAll; simpl;
    (split;
     [ intros; unfold push_back; rewrite ?length_pop_back, ?length_app; simpl; lia
     | intros Hnn;
       try (apply nonnegative_insert; [done | first [lia | by eauto]]);
       try (by apply nonnegative_delete);
       try (by apply nonnegative_zero);
       try done ]).
  all: repeat match goal with
       | H : modify _ _ = (_, Next _) |- _ => unfold modify in H; injection H as <- _
       end; simpl in *.
  all: apply nonnegative_insert; [|done].
  all: match goal with
       | H : _ !! _ = Some _, Hnn : nonnegative _ |- _ => pose proof (Hnn _ _ H)
       end; lia.
Qed.

Ltac kept_step :=
  lazymatch goal with
  | |- follows _ (Legacy.handleProtectionCall _ _ _ _ _) _ =>
      apply legacy_handleProtectionCall_kept
  | |- _ => follow_step
  end.

Ltac kept_solve :=
  try (unfold legacy_kept; simpl; split; [done|]; intros Hnn;
       first [ done
             | by apply nonnegative_delete
             | by apply nonnegative_insert ]).

Lemma legacy_handleCall_kept in_ g r :
  follows legacy_kept (LegacyTransfer.handleCall ir cm MAX_PSTACK_SIZE liveVars in_ g) r.
Proof.
  unfold LegacyTransfer.handleCall, LegacyTransfer.checkAllocatingArguments,
    LegacyTransfer.pruneFreshVars, LegacyTransfer.pruneOne,
    LegacyTransfer.checkFreshVarsAtCall, LegacyTransfer.addConditionalMessage.
  repeat kept_step; kept_solve.
Qed.

Lemma legacy_handleLoad_kept in_ g r :
  follows legacy_kept (LegacyTransfer.handleLoad ir cm in_ g) r.
Proof.
  unfold LegacyTransfer.handleLoad, LegacyTransfer.flushConditionalMessages.
  repeat kept_step; kept_solve.
Qed.

Lemma legacy_handleStore_kept in_ g r :
  follows legacy_kept (LegacyTransfer.handleStore ir cm in_ g) r.
Proof.
  unfold LegacyTransfer.handleStore.
  repeat kept_step; kept_solve.
  repeat (case_match; simplify_eq/=); repeat kept_step; kept_solve.
Qed.

(** The transfer function of the older copy keeps the protect stack
    within [MAX_PSTACK_SIZE] and the protect counts non-negative, whatever
    the instruction and however its handlers end. *)
Theorem older_transfer_keeps_bound_and_counts in_ g r :
  (length (Legacy.pstack (Legacy.freshVars r)) <= MAX_PSTACK_SIZE)%nat ->
  nonnegative (Legacy.vars (Legacy.freshVars r)) ->
  (length (Legacy.pstack (Legacy.freshVars
     (LegacyTransfer.handleFreshVarsForNonTerminator ir cm MAX_PSTACK_SIZE liveVars in_ g r).1))
   <= MAX_PSTACK_SIZE)%nat /\
  nonnegative (Legacy.vars (Legacy.freshVars
     (LegacyTransfer.handleFreshVarsForNonTerminator ir cm MAX_PSTACK_SIZE liveVars in_ g r).1)).
Proof.
  intros Hb Hnn.
  assert (H : follows legacy_kept
            (LegacyTransfer.handleFreshVarsForNonTerminator ir cm MAX_PSTACK_SIZE liveVars in_ g) r).
  { unfold LegacyTransfer.handleFreshVarsForNonTerminator.
    follow; [apply legacy_handleCall_kept | apply legacy_handleLoad_kept
            | apply legacy_handleStore_kept]. }
  destruct H as [H1 H2]. split; [by apply H1 | by apply H2].
Qed.

End Older.

Lemma older_scan_ends_at_a_protected_variable_witness :
  Legacy.vars (Legacy.freshVars legacy_protected_x) !! Samples.y = Some 0 /\
  LegacyTransfer.pendingOf Samples.y
    (LegacyTransfer.checkFreshVarsAtCall Samples.ir Samples.alloc_y
       (mkCalled Samples.fn_allocVector "Rf_allocVector") Samples.fn_allocVector
       [ConstantInt 19; ConstantInt 2] legacy_protected_x).1 = [].
Proof.
  split; [vm_compute; reflexivity|].
  apply (older_scan_ends_at_a_protected_variable Samples.ir Samples.alloc_y
           (mkCalled Samples.fn_allocVector "Rf_allocVector") Samples.fn_allocVector
           [ConstantInt 19; ConstantInt 2] Samples.x 1 Samples.y legacy_protected_x).
  - vm_compute. reflexivity.
  - lia.
  - vm_compute. reflexivity.
Defined.

Lemma older_load_keeps_the_fresh_variables_witness :
  legacy_keepsVars Samples.legacy_tracking
    (LegacyTransfer.handleLoad ir_store_global Samples.cm Samples.load_x None
       Samples.legacy_tracking).1.
Proof.
  apply (older_load_keeps_the_fresh_variables ir_store_global Samples.cm Samples.load_x None
           Samples.legacy_tracking).
  intros u a v p Hu ->. apply list_elem_of_singleton in Hu. inversion Hu. discriminate.
Defined.

Lemma older_transfer_keeps_bound_and_counts_witness :
  (length (Legacy.pstack (Legacy.freshVars
     (LegacyTransfer.handleFreshVarsForNonTerminator Samples.ir Samples.cm 4
        (fun _ => Some {[Samples.x]}) Samples.protect_x None Samples.legacy_tracking).1)) <= 4)%nat /\
  nonnegative (Legacy.vars (Legacy.freshVars
     (LegacyTransfer.handleFreshVarsForNonTerminator Samples.ir Samples.cm 4
        (fun _ => Some {[Samples.x]}) Samples.protect_x None Samples.legacy_tracking).1)).
Proof.
  apply (older_transfer_keeps_bound_and_counts Samples.ir Samples.cm 4
           (fun _ => Some {[Samples.x]}) Samples.protect_x None Samples.legacy_tracking).
  - vm_compute. lia.
  - intros v n Hv. unfold Samples.legacy_tracking in Hv. simpl in Hv.
    apply lookup_singleton_Some in Hv as [_ <-]. lia.
Defined.

(* ================================================================== *)
(** * The functions [main] checks *)
(* ================================================================== *)

Lemma iter_uint_incr (k : nat) :
  Nat.iter k uint_incr 0%N = (N.of_nat k mod 2 ^ 32)%N.
Proof.
  induction k as [|k IH]; [done|].
  rewrite Nat.iter_succ, IH. unfold uint_incr.
  rewrite N.Div0.add_mod_idemp_l. f_equal. lia.
Qed.

Section MainChecks.

Variable hash_combine : N -> Bcheck.HashArg -> N.
Variable MAX_STATES : N.
Variable MAX_PSTACK_SIZE : nat.
Variable ir : IRInfo.
Variable cm : CalledModuleTy.
Variable cprotect : CProtectInfo.
Variable dom : Bcheck.Domains.
Variable gl : BcheckMain.GlobalsTy.
Variable runs fuel : nat.

Local Abbreviation checkFunctions :=
  (BcheckMain.checkFunctions hash_combine MAX_STATES MAX_PSTACK_SIZE ir cm cprotect dom gl
     runs fuel).
Local Abbreviation main :=
  (BcheckMain.main hash_combine MAX_STATES MAX_PSTACK_SIZE ir cm cprotect dom gl runs fuel).

Lemma checkFunctions_filter funs e n :
  checkFunctions funs e n = checkFunctions (filter (fun f => BcheckMain.analyzed gl f = true) funs) e n.
Proof.
  revert e n. induction funs as [|[f|] funs IH]; intros e n; [done| |].
  - simpl. case_bool_decide as Hs.
    { rewrite filter_cons_False; [apply IH|].
      simpl. rewrite bool_decide_eq_true_2 by done. done. }
    destruct (BcheckMain.isProtectionFunction gl (BcheckMain.fun_addr f)) eqn:Hp; simpl.
    { rewrite filter_cons_False; [apply IH|].
      simpl. rewrite Hp. simpl. by rewrite andb_false_r. }
    rewrite filter_cons_True
      by (simpl; rewrite Hp; simpl; by rewrite bool_decide_eq_false_2).
    simpl. rewrite bool_decide_eq_false_2 by done. rewrite Hp. simpl.
    destruct (Bcheck.checkFunction _ _ _ _ _ _ _ _ _ _ _ _ _ _ _); try done; apply IH.
  - simpl. rewrite filter_cons_False by done. apply IH.
Qed.

Lemma checkFunctions_count funs e n e' n' :
  checkFunctions funs e n = BcheckMain.Returns e' n' ->
  n' = Nat.iter (length (filter (fun f => BcheckMain.analyzed gl f = true) funs)) uint_incr n.
Proof.
  revert e n. induction funs as [|[f|] funs IH]; intros e n.
  - simpl. by intros [= _ <-].
  - simpl. case_bool_decide as Hs.
    { rewrite filter_cons_False; [apply IH|].
      simpl. rewrite bool_decide_eq_true_2 by done. done. }
    destruct (BcheckMain.isProtectionFunction gl (BcheckMain.fun_addr f)) eqn:Hp; simpl.
    { rewrite filter_cons_False; [apply IH|].
      simpl. rewrite Hp. simpl. by rewrite andb_false_r. }
    rewrite filter_cons_True
      by (simpl; rewrite Hp; simpl; by rewrite bool_decide_eq_false_2).
    destruct (Bcheck.checkFunction _ _ _ _ _ _ _ _ _ _ _ _ _ _ _); try done.
    intros H%IH. rewrite H. simpl length. by rewrite Nat.iter_succ_r.
  - simpl. rewrite filter_cons_False by done. apply IH.
Qed.



(** [main] checks the functions of interest that are not NULL, have a
    body and are not one of the protection functions, and no other: it
    ends as it does on the list of those functions alone, and the number
    of analysed functions it reports is their number (as an [unsigned]). *)
Theorem main_checks_the_functions_with_a_body_but_protection funs :
  main funs = main (filter (fun f => BcheckMain.analyzed gl f = true) funs) /\
  (forall e n, main funs = BcheckMain.Returns e n ->
     n = (N.of_nat (length (filter (fun f => BcheckMain.analyzed gl f = true) funs))
          mod 2 ^ 32)%N).
Proof.
  split.
  - unfold BcheckMain.main. by rewrite checkFunctions_filter.
  - intros e n. unfold BcheckMain.main.
    destruct (checkFunctions funs BcheckMain.initialEngine 0%N) as [e1 n1| |] eqn:Hc; try done.
    intros [= _ <-]. apply checkFunctions_count in Hc. rewrite Hc. apply iter_uint_incr.
Qed.

End MainChecks.


(* ================================================================== *)
(** * The successors of a block *)
(* ================================================================== *)

Section Successors.

Variable hash_combine : N -> Bcheck.HashArg -> N.

#[local] Arguments Bcheck.hash : simpl never.

Lemma fields_equal_bb s t : Bcheck.fields_equal s t = true -> Bcheck.bb t = Bcheck.bb s.
Proof.
  unfold Bcheck.fields_equal. rewrite !andb_true_iff, !bool_decide_eq_true.
  intros [[[[[[[[[[[[[Hbb _] _] _] _] _] _] _] _] _] _] _] _] _]. done.
Qed.

(** [state = s.clone(succ); state->add()] keeps what the visited set
    holds, and leaves the new state in it or an equal one. *)
Lemma addState_represents s e :
  handedOut e ->
  handedOut (Bcheck.addState hash_combine s e).1 /\
  (forall q, q ∈ Bcheck.doneSet e ->
     q ∈ Bcheck.doneSet (Bcheck.addState hash_combine s e).1 /\
     Bcheck.heap (Bcheck.addState hash_combine s e).1 !! q = Bcheck.heap e !! q) /\
  represented (Bcheck.hash hash_combine s) (Bcheck.addState hash_combine s e).1.
Proof.
  intros Hn. unfold Bcheck.addState, modify. simpl.
  set (n := Bcheck.nextAddr e).
  assert (Hfresh : n ∉ Bcheck.doneSet e) by (intros ?%Hn; lia).
  unfold Bcheck.add. simpl. rewrite lookup_insert_eq.
  destruct (Bcheck.doneSet_find _ _ _) as [found|] eqn:Hfind; simpl.
  - rewrite insert_insert_eq, delete_insert_eq.
    split; [intros q Hq%Hn; simpl; lia|]. split.
    + intros q Hq. split; [done|]. rewrite lookup_delete_ne; [done|]. by intros ->.
    + unfold Bcheck.doneSet_find in Hfind. simpl in Hfind.
      destruct (list_find _ _) as [[i q]|] eqn:Hl; [|done].
      apply list_find_Some in Hl as (Hq%list_elem_of_lookup_2 & Hf & _).
      unfold Bcheck.found_equal in Hf. simpl in Hf.
      rewrite insert_insert_eq in Hf.
      rewrite lookup_insert_ne in Hf by (intros ->; done).
      destruct (Bcheck.heap e !! q) as [t|] eqn:Ht; [|done].
      apply andb_true_iff in Hf as [Hh%bool_decide_eq_true Heq].
      unfold Bcheck.BcheckStateTy_equal in Heq. simpl in Heq.
      rewrite bool_decide_eq_false_2 in Heq by (intros ->; done).
      exists q, t. split; [done|]. split.
      { simpl. rewrite insert_insert_eq, delete_insert_eq, lookup_delete_ne; [done|].
        by intros ->. }
      split; [by apply fields_equal_bb|]. right. done.
  - rewrite insert_insert_eq.
    split; [|split].
    + intros q [Hq%Hn | ->%list_elem_of_singleton]%elem_of_app; simpl; lia.
    + intros q Hq. split; [apply elem_of_app; by left|].
      rewrite lookup_insert_ne; [done|]. by intros ->.
    + exists n, (Bcheck.hash hash_combine s). split.
      { apply elem_of_app. right. by apply list_elem_of_singleton. }
      split; [simpl; rewrite insert_insert_eq; apply lookup_insert_eq|].
      split; [done|]. by left.
Qed.

Lemma represented_kept s e e' :
  (forall q, q ∈ Bcheck.doneSet e ->
     q ∈ Bcheck.doneSet e' /\ Bcheck.heap e' !! q = Bcheck.heap e !! q) ->
  represented s e -> represented s e'.
Proof.
  intros Hk (q & t & Hq & Ht & Hbb & Hs). destruct (Hk q Hq) as [Hq' Hh].
  exists q, t. split; [done|]. split; [congruence|]. done.
Qed.

Lemma forEach_addState_cons (f : BasicBlock -> Bcheck.BcheckStateTy) b succs e :
  forEach (b :: succs) (fun succ => Bcheck.addState hash_combine (f succ)) e =
  forEach succs (fun succ => Bcheck.addState hash_combine (f succ))
    (Bcheck.addState hash_combine (f b) e).1.
Proof. reflexivity. Qed.

Lemma forEach_addState_represents (f : BasicBlock -> Bcheck.BcheckStateTy) succs e :
  handedOut e ->
  handedOut (forEach succs (fun succ => Bcheck.addState hash_combine (f succ)) e).1 /\
  (forall q, q ∈ Bcheck.doneSet e ->
     q ∈ Bcheck.doneSet (forEach succs (fun succ => Bcheck.addState hash_combine (f succ)) e).1 /\
     Bcheck.heap (forEach succs (fun succ => Bcheck.addState hash_combine (f succ)) e).1 !! q =
       Bcheck.heap e !! q) /\
  (forall succ, succ ∈ succs ->
     represented (Bcheck.hash hash_combine (f succ))
       (forEach succs (fun succ => Bcheck.addState hash_combine (f succ)) e).1).
Proof.
  revert e. induction succs as [|b succs IH]; intros e Hn.
  - simpl. split; [done|]. split; [done|]. by intros succ ?%elem_of_nil.
  - rewrite forEach_addState_cons.
    destruct (addState_represents (f b) e Hn) as (Hn1 & Hk1 & Hr1).
    destruct (IH _ Hn1) as (Hn2 & Hk2 & Hr2).
    split; [done|]. split.
    + intros q Hq. destruct (Hk1 q Hq) as [Hq1 Hh1]. destruct (Hk2 q Hq1) as [Hq2 Hh2].
      split; [done | congruence].
    + intros succ [->|Hin]%elem_of_cons; [|by apply Hr2].
      by apply (represented_kept _ (Bcheck.addState hash_combine (f b) e).1).
Qed.

(** No successor is lost.  After "add conservatively all cfg
    successors", the visited set holds, for every successor of the
    terminator, the state cloned for it or a state with the same hash code
    that compares equal to it; and the states the visited set held are
    still in it, unchanged. *)
Theorem every_successor_is_represented a succs s e succ :
  handedOut e ->
  succ ∈ succs ->
  represented (Bcheck.hash hash_combine (Bcheck.clone s succ))
    (Bcheck.addSuccessors hash_combine (TerminatorInst a succs) s e).1 /\
  (forall q, q ∈ Bcheck.doneSet e ->
     q ∈ Bcheck.doneSet (Bcheck.addSuccessors hash_combine (TerminatorInst a succs) s e).1 /\
     Bcheck.heap (Bcheck.addSuccessors hash_combine (TerminatorInst a succs) s e).1 !! q =
       Bcheck.heap e !! q).
Proof.
  intros Hn Hin. unfold Bcheck.addSuccessors.
  destruct (forEach_addState_represents (Bcheck.clone s) succs e Hn) as (_ & Hk & Hr).
  split; [by apply Hr | exact Hk].
Qed.

End Successors.

Lemma every_successor_is_represented_witness :
  represented
    (Bcheck.hash Samples.hash_combine (Bcheck.clone (Bcheck.initialState 1%positive) 2%positive))
    (Bcheck.addSuccessors Samples.hash_combine (TerminatorInst 20 [2%positive; 3%positive])
       (Bcheck.initialState 1%positive) Samples.entered).1.
Proof.
  apply (every_successor_is_represented Samples.hash_combine 20%positive
           [2%positive; 3%positive] (Bcheck.initialState 1%positive) Samples.entered 2%positive).
  - intros p Hp. vm_compute in Hp. apply list_elem_of_singleton in Hp as ->. vm_compute. reflexivity.
  - by left.
Defined.

(* ================================================================== *)
(** * Stores to the node stack *)
(* ================================================================== *)

#[local] Instance unfreshing_preorder var : PreOrder (unfreshing var).
Proof.
  split; unfold unfreshing.
  - intros r. split; [done|]. split; [by right|]. done.
  - intros r1 r2 r3 (Hv1 & Hd1 & Hp1 & Hc1 & Hf1 & Hm1 & Hr1 & Hk1)
                    (Hv2 & Hd2 & Hp2 & Hc2 & Hf2 & Hm2 & Hr2 & Hk2).
    split; [auto|]. split.
    + intros u. destruct (Hd2 u) as [?| ->]; [by left | apply Hd1].
    + repeat split; congruence.
Qed.

Section NodeStack.

Variable ir : IRInfo.
Variable cm : CalledModuleTy.
Variable aliasChainBound : nat.

Lemma unfreshing_delete var v r :
  unfreshing var r (on_freshVars (set_vars (delete v)) r).
Proof.
  unfold unfreshing. simpl. split.
  - intros Hv. by apply lookup_delete_None; right.
  - split; [|done]. intros u. destruct (decide (u = v)) as [->|Hne].
    + left. apply lookup_delete_eq.
    + right. by rewrite lookup_delete_ne.
Qed.

Lemma followAliases_unfreshing var fuel origVar r :
  follows (unfreshing var) (FreshVars.followAliases ir fuel origVar) r.
Proof.
  revert origVar r. induction fuel as [|fuel IH]; intros origVar r; simpl.
  - use_follows @follows_abort.
  - repeat (case_match; try (use_follows @follows_ret)).
    use_follows @follows_bind; [use_follows @follows_modify; apply unfreshing_delete|].
    intros. apply IH.
Qed.

(** A store to the node stack only takes variables out of the fresh
    variables.  On a trace that is not confused, the variable saved is not
    fresh afterwards; every other variable is removed from the fresh
    variables or keeps its protect count; and the protect stack, the
    pending messages, the message buffer, the count of refinable findings
    and the cache of checked variables are what they were. *)
Theorem store_to_node_stack_only_unfreshes in_ protectedVar g balance r :
  confused (freshVars r) = false ->
  isStoreToStructureElement ir in_ = Some protectedVar ->
  vars (freshVars (FreshVars.handleStore ir cm aliasChainBound in_ g balance r).1) !! protectedVar
    = None /\
  unfreshing protectedVar r (FreshVars.handleStore ir cm aliasChainBound in_ g balance r).1.
Proof.
  intros Hc Hs.
  assert (Heq : FreshVars.handleStore ir cm aliasChainBound in_ g balance r =
              match FreshVars.unfreshAliasedVars ir aliasChainBound in_ protectedVar
                      (on_freshVars (set_vars (delete protectedVar)) r) with
              | (r', Aborted) => (r', Aborted)
              | (r', _) => (r', Returned)
              end).
  { unfold FreshVars.handleStore. unfold bind at 1. unfold gets at 1. cbv beta iota.
    rewrite Hc, Hs. simpl. unfold bind, modify, call. simpl.
    by destruct (FreshVars.unfreshAliasedVars _ _ _ _ _) as [r' [[]| |]]. }
  assert (Hu : follows (unfreshing protectedVar)
                 (FreshVars.unfreshAliasedVars ir aliasChainBound in_ protectedVar)
                 (on_freshVars (set_vars (delete protectedVar)) r)).
  { unfold FreshVars.unfreshAliasedVars.
    follow; try apply unfreshing_delete; try apply followAliases_unfreshing. }
  unfold follows in Hu. rewrite Heq.
  assert (Hfinal : unfreshing protectedVar (on_freshVars (set_vars (delete protectedVar)) r)
            (match FreshVars.unfreshAliasedVars ir aliasChainBound in_ protectedVar
                     (on_freshVars (set_vars (delete protectedVar)) r) with
             | (r', Aborted) => (r', Aborted)
             | (r', _) => (r', @Returned unit)
             end).1).
  { by destruct (FreshVars.unfreshAliasedVars _ _ _ _ _) as [r' [[]| |]]. }
  split.
  - destruct Hfinal as (Hv & _). apply Hv. simpl. apply lookup_delete_eq.
  - etransitivity; [apply unfreshing_delete | exact Hfinal].
Qed.

End NodeStack.

Lemma store_to_node_stack_only_unfreshes_witness :
  vars (freshVars (FreshVars.handleStore ir_node_stack Samples.cm 7 store_node_stack None None
                     (Samples.tracking false)).1) !! Samples.x = None /\
  pstack (freshVars (FreshVars.handleStore ir_node_stack Samples.cm 7 store_node_stack None None
                       (Samples.tracking false)).1) = [None; Some Samples.x].
Proof.
  destruct (store_to_node_stack_only_unfreshes ir_node_stack Samples.cm 7 store_node_stack
              Samples.x None None (Samples.tracking false)) as (Hx & _ & _ & Hp & _);
    [reflexivity | reflexivity |].
  split; [exact Hx | exact Hp].
Defined.
